(** * anki-formater: the markup rewriting function [transform] of main.go

    Go strings are byte strings, so a Go [string] is a Rocq [string] (a list
    of 8-bit [ascii]).  The functions of Go's standard library that
    [transform] calls (package strings, html.EscapeString, regexp) are
    modelled on the bytes; html.UnescapeString is kept abstract. *)

From Stdlib Require Import String Ascii List Arith Lia Bool.
Import ListNotations.
Open Scope string_scope.
Open Scope nat_scope.

(** ** Bytes and slices *)

(** The double quote character, written by its code. *)
Definition dq : string := String "034"%char EmptyString.

Definition byte (n : nat) : ascii := ascii_of_nat n.
Definition code (c : ascii) : nat := nat_of_ascii c.

(** [s[:n]] and [s[n:]]. *)
Fixpoint take (n : nat) (s : string) : string :=
  match n, s with
  | S k, String c s' => String c (take k s')
  | _, _ => EmptyString
  end.

Fixpoint drop (n : nat) (s : string) : string :=
  match n, s with
  | S k, String _ s' => drop k s'
  | _, _ => s
  end.

Definition head (s : string) : option ascii :=
  match s with
  | EmptyString => None
  | String c _ => Some c
  end.

(** The last byte of [s], or [d] when [s] is empty. *)
Fixpoint last_or (d : option ascii) (s : string) : option ascii :=
  match s with
  | EmptyString => d
  | String c s' => last_or (Some c) s'
  end.

Definition is_empty (s : string) : bool :=
  match s with
  | EmptyString => true
  | String _ _ => false
  end.

(** ** Package strings *)

Module Strings.

(** strings.HasPrefix(s, p) *)
Fixpoint HasPrefix (s p : string) {struct p} : bool :=
  match p, s with
  | EmptyString, _ => true
  | String a p', String b s' => Ascii.eqb a b && HasPrefix s' p'
  | String _ _, EmptyString => false
  end.

(** strings.Index(s, sub): the offset of the first occurrence, [None] for
    Go's -1. *)
Fixpoint Index (s sub : string) : option nat :=
  if HasPrefix s sub then Some 0
  else match s with
       | EmptyString => None
       | String _ s' => option_map S (Index s' sub)
       end.

(** strings.ReplaceAll(s, old, new) for a non-empty [old]: occurrences are
    replaced from left to right and do not overlap.  [skip] counts the bytes
    of the occurrence just replaced that are still to be passed over. *)
Fixpoint replace_go (old new : string) (skip : nat) (s : string) : string :=
  match s with
  | EmptyString => EmptyString
  | String c s' =>
      match skip with
      | S k => replace_go old new k s'
      | O =>
          if HasPrefix s old
          then new ++ replace_go old new (String.length old - 1) s'
          else String c (replace_go old new 0 s')
      end
  end.

Definition ReplaceAll (s old new : string) : string := replace_go old new 0 s.

(** strings.Trim(s, cutset) for an ASCII cutset: leading and trailing bytes
    of the cutset are removed. *)
Fixpoint mem (c : ascii) (cutset : string) : bool :=
  match cutset with
  | EmptyString => false
  | String d r => Ascii.eqb c d || mem c r
  end.

Fixpoint TrimLeft (s cutset : string) : string :=
  match s with
  | EmptyString => EmptyString
  | String c s' => if mem c cutset then TrimLeft s' cutset else s
  end.

Fixpoint TrimRight (s cutset : string) : string :=
  match s with
  | EmptyString => EmptyString
  | String c s' =>
      let r := TrimRight s' cutset in
      if is_empty r && mem c cutset then EmptyString else String c r
  end.

Definition Trim (s cutset : string) : string :=
  TrimRight (TrimLeft s cutset) cutset.

(** unicode.IsSpace on the UTF-8 encoding: the number of bytes of the white
    space rune that [s] starts with, 0 when it starts with none.  The runes
    are TAB, LF, VT, FF, CR, SPACE, U+0085, U+00A0, U+1680, U+2000..U+200A,
    U+2028, U+2029, U+202F, U+205F and U+3000. *)
Definition ascii_space (c : ascii) : bool :=
  let n := code c in ((9 <=? n) && (n <=? 13)) || (n =? 32).

Definition space_width (s : string) : nat :=
  match s with
  | EmptyString => 0
  | String c0 r0 =>
      if ascii_space c0 then 1
      else match r0 with
           | EmptyString => 0
           | String c1 r1 =>
               let a := code c0 in
               let b := code c1 in
               if (a =? 194) && ((b =? 133) || (b =? 160)) then 2
               else match r1 with
                    | EmptyString => 0
                    | String c2 _ =>
                        let d := code c2 in
                        if (a =? 225) && (b =? 154) && (d =? 128) then 3
                        else if (a =? 226) && (b =? 128)
                                && (((128 <=? d) && (d <=? 138))
                                    || (d =? 168) || (d =? 169) || (d =? 175))
                        then 3
                        else if (a =? 226) && (b =? 129) && (d =? 159) then 3
                        else if (a =? 227) && (b =? 128) && (d =? 128) then 3
                        else 0
                    end
           end
  end.

(** [s] is exactly one white space rune. *)
Definition is_space_rune (s : string) : bool :=
  match space_width s with
  | O => false
  | w => String.length s =? w
  end.

(** strings.TrimLeftFunc(s, unicode.IsSpace) *)
Fixpoint TrimLeftSpace (s : string) : string :=
  match s with
  | EmptyString => EmptyString
  | String _ r0 =>
      match space_width s with
      | 1 => TrimLeftSpace r0
      | 2 => match r0 with
             | String _ r1 => TrimLeftSpace r1
             | _ => s
             end
      | 3 => match r0 with
             | String _ (String _ r2) => TrimLeftSpace r2
             | _ => s
             end
      | _ => s
      end
  end.

(** strings.TrimRightFunc(s, unicode.IsSpace): white space runes are taken
    off the end for as long as the string ends with one. *)
Fixpoint TrimRightSpace (s : string) : string :=
  match s with
  | EmptyString => EmptyString
  | String c s' =>
      let t := String c (TrimRightSpace s') in
      if is_space_rune t then EmptyString else t
  end.

(** strings.TrimSpace(s) *)
Definition TrimSpace (s : string) : string := TrimRightSpace (TrimLeftSpace s).

End Strings.

(** ** Package html *)

Module Html.

(** html.EscapeString: the five markup-significant bytes are replaced by
    character references. *)
Definition escape_byte (c : ascii) : string :=
  let n := code c in
  if n =? 38 then "&amp;"
  else if n =? 39 then "&#39;"
  else if n =? 60 then "&lt;"
  else if n =? 62 then "&gt;"
  else if n =? 34 then "&#34;"
  else String c EmptyString.

Fixpoint EscapeString (s : string) : string :=
  match s with
  | EmptyString => EmptyString
  | String c s' => escape_byte c ++ EscapeString s'
  end.

End Html.

(** ** UTF-8 decoding, as a range loop over a string performs it *)

Module Utf8.

Definition between (lo hi : nat) (c : ascii) : bool :=
  (lo <=? code c) && (code c <=? hi).

Definition cont (c : ascii) : bool := between 128 191 c.

(** utf8.DecodeRuneInString: the size of the well-formed rune at the head of
    [s]; [None] for a byte that decodes to U+FFFD with size 1. *)
Definition rune_size (s : string) : option nat :=
  match s with
  | EmptyString => None
  | String b0 r0 =>
      if code b0 <? 128 then Some 1
      else match r0 with
           | EmptyString => None
           | String b1 r1 =>
               if between 194 223 b0 then (if cont b1 then Some 2 else None)
               else match r1 with
                    | EmptyString => None
                    | String b2 r2 =>
                        let second3 :=
                          if code b0 =? 224 then between 160 191 b1
                          else if code b0 =? 237 then between 128 159 b1
                          else between 225 239 b0 && cont b1 in
                        if between 224 239 b0
                        then (if second3 && cont b2 then Some 3 else None)
                        else match r2 with
                             | EmptyString => None
                             | String b3 _ =>
                                 let second4 :=
                                   if code b0 =? 240 then between 144 191 b1
                                   else if code b0 =? 244 then between 128 143 b1
                                   else between 241 243 b0 && cont b1 in
                                 if between 240 244 b0 && second4 && cont b2 && cont b3
                                 then Some 4 else None
                             end
                    end
           end
  end.

(** The encoding of U+FFFD. *)
Definition RuneError : string :=
  String (byte 239) (String (byte 191) (String (byte 189) EmptyString)).

End Utf8.

(** ** Package regexp

    The patterns of main.go use literals, one-byte classes and their
    repetitions, one optional group, capture groups and the ASCII word
    boundary.  Go returns the leftmost match and, among the matches that
    start there, the one a backtracking matcher finds first; the matcher
    below is that backtracking matcher, written with a continuation for the
    rest of the pattern.  It works on bytes: every pattern of main.go opens
    with an ASCII literal and what follows a class repetition is ASCII, so
    the bytes it stops at are rune boundaries. *)

Module Regexp.

Inductive regex : Type :=
| REmpty
| RLit (alts : list string)        (* one of the byte strings [alts] *)
| RSet (p : ascii -> bool)         (* one byte of the class [p] *)
| RSeq (r1 r2 : regex)
| RStar (greedy : bool) (p : ascii -> bool)  (* [p*] or [p*?] *)
| ROpt (r : regex)                 (* [(?:r)?] *)
| RGroup (n : nat) (r : regex)     (* capture group number [n], from 1 *)
| RWordB.                          (* the word boundary *)

(** Capture groups 1, 2, ... as a list; a group that took no part in the
    match is the empty string, as in FindStringSubmatch. *)
Definition caps : Type := list string.

Fixpoint set_cap (n : nat) (v : string) (c : caps) : caps :=
  match n, c with
  | 1, _ :: c' => v :: c'
  | S k, x :: c' => x :: set_cap k v c'
  | _, _ => c
  end.

Definition get_cap (n : nat) (c : caps) : string :=
  match n with
  | O => EmptyString
  | S k => nth k c EmptyString
  end.

Fixpoint ngroups (r : regex) : nat :=
  match r with
  | RSeq r1 r2 => Nat.max (ngroups r1) (ngroups r2)
  | ROpt r1 => ngroups r1
  | RGroup n r1 => Nat.max n (ngroups r1)
  | _ => 0
  end.

(** What is left of the subject after the match, and the groups. *)
Definition result : Type := (string * caps)%type.

(** A continuation receives the byte before the current position, the rest
    of the subject and the groups so far. *)
Definition cont : Type := option ascii -> string -> caps -> option result.

Definition is_word_byte (c : ascii) : bool :=
  let n := code c in
  ((48 <=? n) && (n <=? 57)) || ((65 <=? n) && (n <=? 90))
  || ((97 <=? n) && (n <=? 122)) || (n =? 95).

Definition is_word (o : option ascii) : bool :=
  match o with
  | Some c => is_word_byte c
  | None => false
  end.

Fixpoint lit_alts (alts : list string) (k : cont) (prev : option ascii)
  (s : string) (c : caps) : option result :=
  match alts with
  | [] => None
  | a :: rest =>
      if Strings.HasPrefix s a
      then match k (last_or prev a) (drop (String.length a) s) c with
           | Some x => Some x
           | None => lit_alts rest k prev s c
           end
      else lit_alts rest k prev s c
  end.

Fixpoint star_greedy (p : ascii -> bool) (k : cont) (prev : option ascii)
  (s : string) (c : caps) : option result :=
  match s with
  | String b s' =>
      if p b
      then match star_greedy p k (Some b) s' c with
           | Some x => Some x
           | None => k prev s c
           end
      else k prev s c
  | EmptyString => k prev s c
  end.

Fixpoint star_lazy (p : ascii -> bool) (k : cont) (prev : option ascii)
  (s : string) (c : caps) : option result :=
  match k prev s c with
  | Some x => Some x
  | None =>
      match s with
      | String b s' => if p b then star_lazy p k (Some b) s' c else None
      | EmptyString => None
      end
  end.

(** [run r k prev s c]: match [r] at the head of [s], then go on with [k];
    [None] when every way of matching [r] makes [k] fail. *)
Fixpoint run (r : regex) (k : cont) (prev : option ascii) (s : string)
  (c : caps) : option result :=
  match r with
  | REmpty => k prev s c
  | RLit alts => lit_alts alts k prev s c
  | RSet p =>
      match s with
      | String b s' => if p b then k (Some b) s' c else None
      | EmptyString => None
      end
  | RSeq r1 r2 => run r1 (run r2 k) prev s c
  | RStar true p => star_greedy p k prev s c
  | RStar false p => star_lazy p k prev s c
  | ROpt r1 =>
      match run r1 k prev s c with
      | Some x => Some x
      | None => k prev s c
      end
  | RGroup n r1 =>
      run r1 (fun prev' s' c' =>
                k prev' s'
                  (set_cap n (take (String.length s - String.length s') s) c'))
          prev s c
  | RWordB =>
      if xorb (is_word prev) (is_word (head s)) then k prev s c else None
  end.

Definition accept : cont := fun _ s c => Some (s, c).

(** The match of [r] that starts at the head of [s], [prev] being the byte
    before it. *)
Definition match_at (r : regex) (prev : option ascii) (s : string)
  : option result :=
  run r accept prev s (repeat EmptyString (ngroups r)).

(** The slice of strings a submatch function returns: the whole match, then
    the groups. *)
Definition submatch (s : string) (x : result) : list string :=
  take (String.length s - String.length (fst x)) s :: snd x.

(** FindStringSubmatch: the leftmost match, [nil] when there is none. *)
Fixpoint find_from (r : regex) (prev : option ascii) (s : string)
  : list string :=
  match match_at r prev s with
  | Some x => submatch s x
  | None =>
      match s with
      | EmptyString => []
      | String b s' => find_from r (Some b) s'
      end
  end.

Definition FindStringSubmatch (r : regex) (s : string) : list string :=
  find_from r None s.

(** The subject cut at its successive matches: a byte outside every match,
    or a match with its submatches.  No pattern of main.go matches the empty
    string (lemma [match_at_nonempty] below), so a match covers the byte it
    starts at; [skip] counts the bytes of the last match still to pass. *)
Inductive piece : Type :=
| Keep (b : ascii)
| Hit (m : list string).

Fixpoint scan_go (r : regex) (prev : option ascii) (skip : nat) (s : string)
  : list piece :=
  match s with
  | EmptyString => []
  | String b s' =>
      match skip with
      | S k => scan_go r (Some b) k s'
      | O =>
          match match_at r prev s with
          | Some x =>
              Hit (submatch s x)
              :: scan_go r (Some b)
                   (String.length s - String.length (fst x) - 1) s'
          | None => Keep b :: scan_go r (Some b) 0 s'
          end
      end
  end.

Definition scan (r : regex) (s : string) : list piece := scan_go r None 0 s.

(** The whole match and group [n] of a submatch slice: [m[0]] and [m[n]]. *)
Definition whole (m : list string) : string := nth 0 m EmptyString.
Definition group (n : nat) (m : list string) : string := nth n m EmptyString.

(** A replacement template after Expand has read it: text and [$n]. *)
Inductive titem : Type :=
| TText (s : string)
| TGroup (n : nat).

Fixpoint expand (t : list titem) (m : list string) : string :=
  match t with
  | [] => EmptyString
  | TText s :: t' => s ++ expand t' m
  | TGroup n :: t' => group n m ++ expand t' m
  end.

Fixpoint render (f : list string -> string) (ps : list piece) : string :=
  match ps with
  | [] => EmptyString
  | Keep b :: ps' => String b (render f ps')
  | Hit m :: ps' => f m ++ render f ps'
  end.

(** ReplaceAllString(src, repl) *)
Definition ReplaceAllString (r : regex) (src : string) (repl : list titem)
  : string :=
  render (expand repl) (scan r src).

(** ReplaceAllStringFunc(src, f): [f] receives the matched text. *)
Definition ReplaceAllStringFunc (r : regex) (src : string)
  (f : string -> string) : string :=
  render (fun m => f (whole m)) (scan r src).

(** ReplaceAllStringFunc with a closure that updates a captured variable:
    the variable is threaded through the calls, in the order of the
    matches. *)
Fixpoint render_st {S : Type} (f : S -> string -> S * string) (st : S)
  (ps : list piece) : S * string :=
  match ps with
  | [] => (st, EmptyString)
  | Keep b :: ps' =>
      let (st', out) := render_st f st ps' in (st', String b out)
  | Hit m :: ps' =>
      let (st1, rep) := f st (whole m) in
      let (st2, out) := render_st f st1 ps' in
      (st2, rep ++ out)
  end.

Definition ReplaceAllStringFuncSt {S : Type} (r : regex) (src : string)
  (f : S -> string -> S * string) (st : S) : S * string :=
  render_st f st (scan r src).

(** *** Pattern syntax *)

Definition upper_of (c : ascii) : ascii :=
  if (97 <=? code c) && (code c <=? 122) then byte (code c - 32) else c.

Definition lower_of (c : ascii) : ascii :=
  if (65 <=? code c) && (code c <=? 90) then byte (code c + 32) else c.

Definition bytes (l : list nat) : string :=
  fold_right (fun n s => String (byte n) s) EmptyString l.

(** The byte strings a literal byte matches under the flag [i]: both cases
    of a letter and, by Unicode simple folding, U+017F for s and U+212A for
    k. *)
Definition fold_alts (c : ascii) : list string :=
  let lo := lower_of c in
  let up := upper_of c in
  if Ascii.eqb lo up then [String c EmptyString]
  else
    ([String lo EmptyString; String up EmptyString]
     ++ (if code lo =? 115 then [bytes [197; 191]]
         else if code lo =? 107 then [bytes [226; 132; 170]]
         else []))%list.

Fixpoint seq (l : list regex) : regex :=
  match l with
  | [] => REmpty
  | [r] => r
  | r :: l' => RSeq r (seq l')
  end.

(** A literal under the flag [i]. *)
Fixpoint lit (w : string) : regex :=
  match w with
  | EmptyString => REmpty
  | String c EmptyString => RLit (fold_alts c)
  | String c w' => RSeq (RLit (fold_alts c)) (lit w')
  end.

Definition any : ascii -> bool := fun _ => true.               (* [.] under [s] *)
Definition none_of (x : ascii) : ascii -> bool :=              (* [[^x]] *)
  fun c => negb (Ascii.eqb c x).
Definition space : ascii -> bool :=                            (* [\s] *)
  fun c => let n := code c in
           (n =? 9) || (n =? 10) || (n =? 12) || (n =? 13) || (n =? 32).
Definition digit : ascii -> bool :=                            (* [\d] *)
  fun c => (48 <=? code c) && (code c <=? 57).

Definition star (p : ascii -> bool) : regex := RStar true p.
Definition lazy (p : ascii -> bool) : regex := RStar false p.
Definition plus (p : ascii -> bool) : regex := RSeq (RSet p) (RStar true p).

End Regexp.

(** ** main.go *)

Module Main.

Import Strings Html Regexp.

(** strings.HasSuffix and strings.Join, used by the image step. *)
Definition HasSuffix (s suffix : string) : bool :=
  (String.length suffix <=? String.length s)
  && String.eqb (drop (String.length s - String.length suffix) s) suffix.

Fixpoint Join (elems : list string) (sep : string) : string :=
  match elems with
  | [] => EmptyString
  | [x] => x
  | x :: rest => x ++ sep ++ Join rest sep
  end.

(** *** The patterns (all compiled with the flags [is]) *)

Definition not_dq : ascii -> bool := none_of "034"%char.
Definition not_gt : ascii -> bool := none_of ">"%char.
Definition not_rparen : ascii -> bool := none_of ")"%char.

(** "<style.*?>.*?</style>" *)
Definition reStyleBlock : regex :=
  seq [lit "<style"; lazy any; lit ">"; lazy any; lit "</style>"].

(** "<div\s+class=DQdc-line\s+dc-translation[^DQ]*DQ\s*>(.*?)</div>",
    DQ standing for the double quote here and below. *)
Definition reTransDiv : regex :=
  seq [lit "<div"; plus space; lit ("class=" ++ dq ++ "dc-line"); plus space;
       lit "dc-translation"; star not_dq; lit dq; star space; lit ">";
       RGroup 1 (lazy any); lit "</div>"].

(** "<[^>]+class=DQ[^DQ]*\bdc-translation\b[^DQ]*DQ[^>]*>(.*?)</[^>]+>" *)
Definition reAnyTranslation : regex :=
  seq [lit "<"; plus not_gt; lit ("class=" ++ dq); star not_dq; RWordB;
       lit "dc-translation"; RWordB; star not_dq; lit dq; star not_gt;
       lit ">"; RGroup 1 (lazy any); lit "</"; plus not_gt; lit ">"].

(** "\{\{c\d+::(.*?)(?:::(.*?))?\}\}" *)
Definition reCloze : regex :=
  seq [lit "{{c"; plus digit; lit "::"; RGroup 1 (lazy any);
       ROpt (RSeq (lit "::") (RGroup 2 (lazy any))); lit "}}"].

(** "<div\s+class=DQ(C)DQ\s+style=DQ([^DQ]*?)DQ\s*></div>" with C the
    class "[^DQ]*\bdc-image[^DQ]*" *)
Definition reImage : regex :=
  seq [lit "<div"; plus space; lit ("class=" ++ dq);
       RGroup 1 (seq [star not_dq; RWordB; lit "dc-image"; star not_dq]);
       lit dq; plus space; lit ("style=" ++ dq); RGroup 2 (lazy not_dq);
       lit dq; star space; lit "></div>"].

(** "background-image\s*:\s*url\(([^)]+)\)" *)
Definition reBgImage : regex :=
  seq [lit "background-image"; star space; lit ":"; star space; lit "url(";
       RGroup 1 (plus not_rparen); lit ")"].

(** "<div\s+class=DQ(C)DQ(.*?)>" with C the class "[^DQ]*\bdc-card[^DQ]*" *)
Definition reCardDiv : regex :=
  seq [lit "<div"; plus space; lit ("class=" ++ dq);
       RGroup 1 (seq [star not_dq; RWordB; lit "dc-card"; star not_dq]);
       lit dq; RGroup 2 (lazy any); lit ">"].

(** "<span[^>]*class=DQ[^DQ]*\bTOKEN\b[^DQ]*DQ[^>]*>(.*?)</span>" with
    TOKEN one of dc-down and dc-gap *)
Definition reUnwrap (token : string) : regex :=
  seq [lit "<span"; star not_gt; lit ("class=" ++ dq); star not_dq; RWordB;
       lit token; RWordB; star not_dq; lit dq; star not_gt; lit ">";
       RGroup 1 (lazy any); lit "</span>"].

Definition reUnwrapDown : regex := reUnwrap "dc-down".
Definition reUnwrapGap : regex := reUnwrap "dc-gap".

Section Transform.

(** html.UnescapeString, with its table of named character references, is
    not reproduced: the development holds for every decoder. *)
Variable UnescapeString : string -> string.

(** The range loop of stripTags.  It visits runes: a byte that starts no
    well-formed rune is visited as U+FFFD and written as such; [skip] counts
    the bytes of the current rune still to copy. *)
Fixpoint strip_go (inTag : bool) (skip : nat) (s : string) : string :=
  match s with
  | EmptyString => EmptyString
  | String b s' =>
      let write (x : string) (rest : string) : string :=
        if inTag then rest else x ++ rest in
      match skip with
      | S k => write (String b EmptyString) (strip_go inTag k s')
      | O =>
          if Ascii.eqb b "<"%char then strip_go true 0 s'
          else if Ascii.eqb b ">"%char then strip_go false 0 s'
          else match Utf8.rune_size s with
               | Some w => write (String b EmptyString) (strip_go inTag (w - 1) s')
               | None => write Utf8.RuneError (strip_go inTag 0 s')
               end
      end
  end.

Definition stripTags (s : string) : string :=
  TrimSpace (UnescapeString (strip_go false 0 s)).

(** Step 1: the style blocks are deleted. *)
Definition strip_style (h : string) : string :=
  ReplaceAllString reStyleBlock h [].

(** Step 2: the translation, from the translation line written as a div
    (which is then deleted), else from the first element of class
    dc-translation. *)
Definition extract_translation (h : string) : string * string :=
  let ja := EmptyString in
  let m := FindStringSubmatch reTransDiv h in
  let (ja, h) :=
    if 2 <=? List.length m
    then (TrimSpace (stripTags (group 1 m)), ReplaceAllString reTransDiv h [])
    else (ja, h) in
  let ja :=
    if is_empty ja
    then let m := FindStringSubmatch reAnyTranslation h in
         if 2 <=? List.length m then TrimSpace (stripTags (group 1 m)) else ja
    else ja in
  (ja, h).

Definition span_open (color : string) : string :=
  "<span style=" ++ dq ++ "color:" ++ color ++ ";" ++ dq ++ ">".

(** Step 3, the function given to ReplaceAllStringFunc; [ja] is the variable
    of [transform] it captures. *)
Definition cloze_func (color : string) (ja : string) (s : string)
  : string * string :=
  let g := FindStringSubmatch reCloze s in
  let front := if 2 <=? List.length g then group 1 g else EmptyString in
  let back := if 3 <=? List.length g then group 2 g else EmptyString in
  let ja :=
    if is_empty ja && negb (is_empty (TrimSpace back))
    then TrimSpace (stripTags back) else ja in
  let plain := TrimSpace (stripTags front) in
  if is_empty plain then (ja, EmptyString)
  else (ja, span_open color ++ EscapeString plain ++ "</span>").

Definition rewrite_cloze (color : string) (ja h : string) : string * string :=
  ReplaceAllStringFuncSt reCloze h (cloze_func color) ja.

(** Step 3.5: one round of the loop, and the loop.  [fuel] bounds the number
    of rounds; [None] is a loop that has not reached its break. *)
Definition unwrap_round (h : string) : string :=
  ReplaceAllString reUnwrapGap (ReplaceAllString reUnwrapDown h [TGroup 1])
    [TGroup 1].

Fixpoint unwrap_loop (fuel : nat) (h : string) : option string :=
  match fuel with
  | O => None
  | S fuel' =>
      let before := h in
      let h := unwrap_round h in
      if String.eqb h before then Some h else unwrap_loop fuel' h
  end.

Definition unwrap (h : string) : option string :=
  unwrap_loop (S (String.length h)) h.

(** Step 4 *)
Definition card_template : list titem :=
  [TText ("<div class=" ++ dq); TGroup 1;
   TText (dq ++ " style=" ++ dq ++ "padding-bottom:1rem;" ++ dq ++ ">")].

Definition rewrite_card (h : string) : string :=
  ReplaceAllString reCardDiv h card_template.

(** Step 5 *)
Definition image_func (s : string) : string :=
  let p := FindStringSubmatch reImage s in
  if List.length p <? 3 then s
  else
    let class := group 1 p in
    let style := group 2 p in
    let m := FindStringSubmatch reBgImage style in
    let bg :=
      if 2 <=? List.length m
      then let bg := group 0 m in
           if negb (HasSuffix bg ";") then bg ++ ";" else bg
      else EmptyString in
    let newStyle :=
      Join ["display:inline-block"; "width:calc(50% - 10px)";
            "padding-bottom:29%"; "background-position:center";
            "background-repeat:no-repeat"; "background-size:cover";
            "margin-left:2px"; "margin-right:2px"] ";" ++ ";" in
    let newStyle := newStyle ++ bg in
    "<div class=" ++ dq ++ class ++ dq ++ " style=" ++ dq ++ newStyle ++ dq
    ++ "></div>".

Definition rewrite_image (h : string) : string :=
  ReplaceAllStringFunc reImage h image_func.

(** Step 6 *)
Definition sound_prefix : string := "[sound:".
Definition line_open : string := "<div class=" ++ dq ++ "dc-line" ++ dq.
Definition div_close : string := "</div>".

Definition audio_div (ss : string) : string :=
  "<div class=" ++ dq ++ "dc-audio" ++ dq ++ " style=" ++ dq
  ++ "padding:0.4rem;margin-top:0.25rem;" ++ dq ++ ">" ++ ss ++ "</div>".

Definition sound_ref (s : string) : string :=
  if HasPrefix s sound_prefix then s
  else match Index s sound_prefix with
       | Some i => drop i s
       | None => s
       end.

Definition insert_sound (h sound : string) : string :=
  let s := Trim sound (dq ++ " ") in
  if negb (is_empty s)
  then
    let ss := sound_ref s in
    match Index h line_open with
    | Some idx =>
        match Index (drop idx h) div_close with
        | Some e =>
            let insert := idx + e + String.length div_close in
            take insert h ++ audio_div ss ++ drop insert h
        | None => h
        end
    | None => h
    end
  else h.

(** The last step *)
Definition collapse_spaces (h : string) : string := ReplaceAll h "  " " ".

(** transform(h, sound, color); [None] only if the loop of step 3.5 were to
    run out of fuel. *)
Definition transform (h sound color : string) : option (string * string) :=
  let h := strip_style h in
  let (ja, h) := extract_translation h in
  let (ja, h) := rewrite_cloze color ja h in
  match unwrap h with
  | None => None
  | Some h =>
      let h := rewrite_card h in
      let h := rewrite_image h in
      let h := insert_sound h sound in
      let h := collapse_spaces h in
      Some (h, ja)
  end.

End Transform.

End Main.

(** * Properties *)

(** ** Strings *)

Lemma str_app_nil_r (s : string) : s ++ EmptyString = s.
Proof. induction s; simpl; congruence. Qed.

Lemma str_app_assoc (a b c : string) : (a ++ b) ++ c = a ++ b ++ c.
Proof. induction a; simpl; congruence. Qed.

Lemma str_length_app (a b : string) :
  String.length (a ++ b) = String.length a + String.length b.
Proof. induction a; simpl; congruence. Qed.

Lemma str_length_zero (s : string) : String.length s = 0 -> s = EmptyString.
Proof. destruct s; simpl; congruence. Qed.

Lemma is_empty_true (s : string) : is_empty s = true <-> s = EmptyString.
Proof. destruct s; simpl; split; congruence. Qed.

Lemma is_empty_false (s : string) : is_empty s = false <-> s <> EmptyString.
Proof. destruct s; simpl; split; congruence. Qed.

Lemma str_app_inv_head (a b c : string) : a ++ b = a ++ c -> b = c.
Proof. induction a; simpl; intros H; [assumption | inversion H; auto]. Qed.

Lemma str_app_eq_self (a t : string) : a ++ t = t -> a = EmptyString.
Proof.
  intros H. apply str_length_zero.
  apply (f_equal String.length) in H. rewrite str_length_app in H. lia.
Qed.

Lemma take_drop (n : nat) (s : string) : take n s ++ drop n s = s.
Proof.
  revert s; induction n; intros [|c s]; simpl; try reflexivity.
  now rewrite IHn.
Qed.

Lemma take_0 (s : string) : take 0 s = EmptyString.
Proof. destruct s; reflexivity. Qed.

Lemma drop_0 (s : string) : drop 0 s = s.
Proof. destruct s; reflexivity. Qed.

Lemma length_take (n : nat) (s : string) :
  String.length (take n s) = Nat.min n (String.length s).
Proof. revert s; induction n; intros [|c s]; simpl; auto. Qed.

Lemma length_drop (n : nat) (s : string) :
  String.length (drop n s) = String.length s - n.
Proof. revert s; induction n; intros [|c s]; simpl; auto. Qed.

Lemma take_app (a b : string) : take (String.length a) (a ++ b) = a.
Proof. induction a; simpl; [now rewrite ?take_0 | congruence]. Qed.

Lemma drop_app (a b : string) : drop (String.length a) (a ++ b) = b.
Proof. induction a; simpl; [now rewrite ?drop_0 | congruence]. Qed.

Lemma take_app_le (n : nat) (a b : string) :
  n <= String.length a -> take n (a ++ b) = take n a.
Proof.
  revert a; induction n; intros a H; [now rewrite !take_0|].
  destruct a; simpl in *; [lia|]. rewrite IHn by lia. reflexivity.
Qed.

Lemma take_all (n : nat) (s : string) : String.length s <= n -> take n s = s.
Proof.
  revert s; induction n; intros [|c s]; simpl; intros H;
    try reflexivity; try lia.
  rewrite IHn by lia. reflexivity.
Qed.

Lemma drop_all (n : nat) (s : string) :
  String.length s <= n -> drop n s = EmptyString.
Proof.
  revert s; induction n; intros [|c s]; simpl; intros H;
    try reflexivity; try lia.
  apply IHn; lia.
Qed.

Lemma drop_drop (n m : nat) (s : string) : drop n (drop m s) = drop (m + n) s.
Proof.
  revert s; induction m; intros s; simpl.
  - now rewrite ?drop_0.
  - destruct s; simpl; [destruct n; reflexivity | apply IHm].
Qed.

(** The part of [a ++ t] consumed when [t] is left is [a]. *)
Lemma take_consumed (a t : string) :
  take (String.length (a ++ t) - String.length t) (a ++ t) = a.
Proof.
  rewrite str_length_app.
  replace (String.length a + String.length t - String.length t)
    with (String.length a) by lia.
  apply take_app.
Qed.

Lemma last_or_app (d : option ascii) (a b : string) :
  last_or d (a ++ b) = last_or (last_or d a) b.
Proof. revert d; induction a; simpl; intros; auto. Qed.

Module StringsFacts.

Import Strings.

Lemma HasPrefix_app (p t : string) : HasPrefix (p ++ t) p = true.
Proof. induction p; simpl; [reflexivity|]. now rewrite Ascii.eqb_refl. Qed.

Lemma HasPrefix_split (s p : string) :
  HasPrefix s p = true -> s = p ++ drop (String.length p) s.
Proof.
  revert s; induction p as [|a p IH]; intros s H; simpl.
  - now rewrite ?drop_0.
  - destruct s as [|b s]; simpl in H; [discriminate|].
    apply andb_true_iff in H as [E H].
    apply Ascii.eqb_eq in E; subst b. simpl. f_equal. auto.
Qed.

Lemma HasPrefix_iff (s p : string) :
  HasPrefix s p = true <-> exists t, s = p ++ t.
Proof.
  split.
  - intros H. eexists. apply HasPrefix_split, H.
  - intros [t ->]. apply HasPrefix_app.
Qed.

Lemma HasPrefix_empty (s : string) : HasPrefix s EmptyString = true.
Proof. destruct s; reflexivity. Qed.

(** [sub] occurs in [s] at offset [i] and at no smaller offset. *)
Definition first_at (sub s : string) (i : nat) : Prop :=
  i <= String.length s
  /\ HasPrefix (drop i s) sub = true
  /\ forall j, j < i -> HasPrefix (drop j s) sub = false.

Definition absent (sub s : string) : Prop :=
  forall j, HasPrefix (drop j s) sub = false.

Lemma Index_unfold (s sub : string) :
  Index s sub =
  if HasPrefix s sub then Some 0
  else match s with
       | EmptyString => None
       | String _ s' => option_map S (Index s' sub)
       end.
Proof. destruct s; reflexivity. Qed.




Lemma Index_None (s sub : string) : Index s sub = None <-> absent sub s.
Proof.
  induction s as [|c s IH]; rewrite Index_unfold.
  - destruct (HasPrefix EmptyString sub) eqn:E.
    + split; [discriminate|]. intros H. specialize (H 0). simpl in H. congruence.
    + split; [|reflexivity]. intros _ j. destruct j; simpl; assumption.
  - destruct (HasPrefix (String c s) sub) eqn:E.
    + split; [discriminate|]. intros H. specialize (H 0). simpl in H. congruence.
    + destruct (Index s sub) as [k|] eqn:Ek; simpl.
      * split; [discriminate|]. intros H.
        assert (A : absent sub s) by (intros j; apply (H (S j))).
        apply IH in A. discriminate.
      * split; [|reflexivity]. intros _ [|j]; simpl; [assumption|].
        apply IH; reflexivity.
Qed.

(** The occurrence found by Index, as a decomposition of the string. *)
Lemma first_at_split (sub s : string) (i : nat) :
  first_at sub s i ->
  s = take i s ++ sub ++ drop (i + String.length sub) s
  /\ String.length (take i s) = i.
Proof.
  intros (Hl & Hp & _). split.
  - apply HasPrefix_split in Hp. rewrite drop_drop in Hp.
    rewrite <- Hp. symmetry. apply take_drop.
  - rewrite length_take. lia.
Qed.

End StringsFacts.

(** ** The matcher *)

Module RegexpFacts.

Import Strings StringsFacts Regexp.

Fixpoint all_in (p : ascii -> bool) (s : string) : bool :=
  match s with
  | EmptyString => true
  | String b s' => p b && all_in p s'
  end.

(** [Matches r prev a rest c c']: the pattern [r] matches the bytes [a],
    which stand after the byte [prev] and before [rest], and the groups [c]
    become [c'].  The relation says which matches exist, not which one the
    matcher prefers. *)
Fixpoint Matches (r : regex) (prev : option ascii) (a rest : string)
  (c c' : caps) : Prop :=
  match r with
  | REmpty => a = EmptyString /\ c' = c
  | RLit alts => In a alts /\ c' = c
  | RSet p => exists b, a = String b EmptyString /\ p b = true /\ c' = c
  | RSeq r1 r2 =>
      exists a1 a2 c1,
        a = a1 ++ a2
        /\ Matches r1 prev a1 (a2 ++ rest) c c1
        /\ Matches r2 (last_or prev a1) a2 rest c1 c'
  | RStar _ p => all_in p a = true /\ c' = c
  | ROpt r1 => (a = EmptyString /\ c' = c) \/ Matches r1 prev a rest c c'
  | RGroup n r1 => exists c1, Matches r1 prev a rest c c1 /\ c' = set_cap n a c1
  | RWordB =>
      a = EmptyString /\ c' = c
      /\ xorb (is_word prev) (is_word (head rest)) = true
  end.

(** What a successful run of the matcher went through. *)
Definition sound_for (r : regex) : Prop :=
  forall k prev s c x,
    run r k prev s c = Some x ->
    exists a rest c',
      s = a ++ rest /\ Matches r prev a rest c c'
      /\ k (last_or prev a) rest c' = Some x.

Lemma lit_alts_sound (alts : list string) : sound_for (RLit alts).
Proof.
  unfold sound_for. simpl. induction alts as [|w alts IH]; intros k prev s c x H.
  - discriminate.
  - simpl in H. destruct (HasPrefix s w) eqn:E.
    + destruct (k (last_or prev w) (drop (String.length w) s) c) eqn:K.
      * injection H as <-. exists w, (drop (String.length w) s), c.
        split; [now apply HasPrefix_split|]. split; [|assumption].
        split; [now left | reflexivity].
      * destruct (IH _ _ _ _ _ H) as (a & rest & c' & ? & [? ?] & ?).
        exists a, rest, c'. repeat split; auto. now right.
    + destruct (IH _ _ _ _ _ H) as (a & rest & c' & ? & [? ?] & ?).
      exists a, rest, c'. repeat split; auto. now right.
Qed.

Lemma star_greedy_sound (p : ascii -> bool) : sound_for (RStar true p).
Proof.
  unfold sound_for. simpl. intros k prev s. revert prev.
  induction s as [|b s IH]; intros prev c x H; simpl in H.
  - exists EmptyString, EmptyString, c. repeat split; auto.
  - destruct (p b) eqn:P.
    + destruct (star_greedy p k (Some b) s c) eqn:G.
      * injection H as <-.
        destruct (IH _ _ _ G) as (a & rest & c' & -> & [A ->] & K).
        exists (String b a), rest, c. simpl. rewrite P, A. repeat split; auto.
      * exists EmptyString, (String b s), c. repeat split; auto.
    + exists EmptyString, (String b s), c. repeat split; auto.
Qed.

Lemma star_lazy_sound (p : ascii -> bool) : sound_for (RStar false p).
Proof.
  unfold sound_for. simpl. intros k prev s. revert prev.
  induction s as [|b s IH]; intros prev c x H; simpl in H.
  - destruct (k prev EmptyString c) eqn:K; [|discriminate].
    injection H as <-. exists EmptyString, EmptyString, c. repeat split; auto.
  - destruct (k prev (String b s) c) eqn:K.
    + injection H as <-. exists EmptyString, (String b s), c. repeat split; auto.
    + destruct (p b) eqn:P; [|discriminate].
      destruct (IH _ _ _ H) as (a & rest & c' & -> & [A ->] & K').
      exists (String b a), rest, c. simpl. rewrite P, A. repeat split; auto.
Qed.

Theorem run_sound (r : regex) : sound_for r.
Proof.
  induction r as [|alts|p|r1 IH1 r2 IH2|g p|r1 IH1|n r1 IH1|].
  - intros k prev s c x H. simpl in H.
    exists EmptyString, s, c. repeat split; auto.
  - apply lit_alts_sound.
  - intros k prev s c x H. simpl in H.
    destruct s as [|b s]; [discriminate|]. destruct (p b) eqn:P; [|discriminate].
    exists (String b EmptyString), s, c. repeat split; auto.
    exists b. auto.
  - intros k prev s c x H. simpl in H.
    destruct (IH1 _ _ _ _ _ H) as (a1 & rest1 & c1 & -> & M1 & K1).
    destruct (IH2 _ _ _ _ _ K1) as (a2 & rest & c' & -> & M2 & K2).
    exists (a1 ++ a2), rest, c'. rewrite str_app_assoc, last_or_app.
    repeat split; auto. simpl. exists a1, a2, c1. auto.
  - destruct g; [apply star_greedy_sound | apply star_lazy_sound].
  - intros k prev s c x H. simpl in H.
    destruct (run r1 k prev s c) eqn:R.
    + injection H as <-.
      destruct (IH1 _ _ _ _ _ R) as (a & rest & c' & ? & ? & ?).
      exists a, rest, c'. repeat split; auto. simpl. now right.
    + exists EmptyString, s, c. repeat split; auto. simpl. now left.
  - intros k prev s c x H. simpl in H.
    destruct (IH1 _ _ _ _ _ H) as (a & rest & c' & -> & M & K).
    rewrite take_consumed in K.
    exists a, rest, (set_cap n a c'). repeat split; auto.
    simpl. exists c'. auto.
  - intros k prev s c x H. simpl in H.
    destruct (xorb (is_word prev) (is_word (head s))) eqn:X; [|discriminate].
    exists EmptyString, s, c. repeat split; auto.
Qed.

Lemma match_at_sound (r : regex) (prev : option ascii) (s : string)
  (x : result) :
  match_at r prev s = Some x ->
  exists a,
    s = a ++ fst x
    /\ Matches r prev a (fst x) (repeat EmptyString (ngroups r)) (snd x).
Proof.
  unfold match_at. intros H.
  destruct (run_sound _ _ _ _ _ _ H) as (a & rest & c' & -> & M & K).
  unfold accept in K. injection K as <-. simpl. eauto.
Qed.

(** The slice a match yields: the matched text, then the groups. *)
Lemma submatch_sound (r : regex) (prev : option ascii) (s : string)
  (x : result) :
  match_at r prev s = Some x ->
  exists a,
    s = a ++ fst x /\ submatch s x = a :: snd x
    /\ Matches r prev a (fst x) (repeat EmptyString (ngroups r)) (snd x).
Proof.
  intros H. destruct (match_at_sound _ _ _ _ H) as (a & E & M).
  exists a. repeat split; auto.
  unfold submatch. rewrite E at 1 2. now rewrite take_consumed.
Qed.

(** A lower bound on the length of what a pattern matches. *)
Fixpoint min_len (r : regex) : nat :=
  match r with
  | RLit alts =>
      match alts with
      | [] => 0
      | w :: l => fold_right (fun v n => Nat.min (String.length v) n)
                    (String.length w) l
      end
  | RSet _ => 1
  | RSeq r1 r2 => min_len r1 + min_len r2
  | RGroup _ r1 => min_len r1
  | _ => 0
  end.

Lemma min_len_alts (w : string) (l : list string) (a : string) :
  In a (w :: l) ->
  fold_right (fun v n => Nat.min (String.length v) n) (String.length w) l
  <= String.length a.
Proof.
  induction l as [|v l IH]; simpl.
  - intros [<-|[]]. lia.
  - intros [<-|[<-|H]].
    + specialize (IH (or_introl eq_refl)). lia.
    + lia.
    + specialize (IH (or_intror H)). lia.
Qed.

Lemma Matches_min_len (r : regex) :
  forall prev a rest c c',
    Matches r prev a rest c c' -> min_len r <= String.length a.
Proof.
  induction r as [|alts|p|r1 IH1 r2 IH2|g p|r1 IH1|n r1 IH1|];
    simpl; intros prev a rest c c' M; try lia.
  - destruct M as [I _]. destruct alts as [|w l]; [lia|].
    now apply min_len_alts.
  - destruct M as (b & -> & _). simpl. lia.
  - destruct M as (a1 & a2 & c1 & -> & M1 & M2).
    rewrite str_length_app. apply IH1 in M1. apply IH2 in M2. lia.
  - destruct M as (c1 & M & _). eauto.
Qed.

(** A pattern with a literal in it matches no empty string. *)
Lemma match_at_nonempty (r : regex) (prev : option ascii) (s : string)
  (x : result) :
  0 < min_len r ->
  match_at r prev s = Some x ->
  String.length (fst x) < String.length s.
Proof.
  intros L H. destruct (match_at_sound _ _ _ _ H) as (a & -> & M).
  apply Matches_min_len in M. rewrite str_length_app. lia.
Qed.

End RegexpFacts.

(** ** Cutting a subject at its matches *)

Module ScanFacts.

Import Strings StringsFacts Regexp RegexpFacts.

(** The bytes of [s], each kept. *)
Fixpoint keeps (s : string) : list piece :=
  match s with
  | EmptyString => []
  | String b s' => Keep b :: keeps s'
  end.

(** The submatch slices of the matches, in order. *)
Fixpoint hits (ps : list piece) : list (list string) :=
  match ps with
  | [] => []
  | Keep _ :: ps' => hits ps'
  | Hit m :: ps' => m :: hits ps'
  end.

(** [m] is what some match of [r] yields. *)
Definition hit_of (r : regex) (m : list string) : Prop :=
  exists prev a rest c,
    match_at r prev (a ++ rest) = Some (rest, c)
    /\ m = a :: c
    /\ Matches r prev a rest (repeat EmptyString (ngroups r)) c.

Lemma match_at_hit (r : regex) (prev : option ascii) (s : string) (x : result) :
  match_at r prev s = Some x -> hit_of r (submatch s x).
Proof.
  intros H. destruct (submatch_sound _ _ _ _ H) as (a & E & S & M).
  destruct x as [rest c]. simpl in *. subst s.
  exists prev, a, rest, c. auto.
Qed.

Lemma render_app (f : list string -> string) (l1 l2 : list piece) :
  render f (l1 ++ l2)%list = render f l1 ++ render f l2.
Proof.
  induction l1 as [|[b|m] l1 IH]; simpl; [reflexivity| |].
  - now rewrite IH.
  - now rewrite IH, str_app_assoc.
Qed.

Lemma render_keeps (f : list string -> string) (s : string) :
  render f (keeps s) = s.
Proof. induction s; simpl; congruence. Qed.

Lemma hits_app (l1 l2 : list piece) :
  hits (l1 ++ l2)%list = (hits l1 ++ hits l2)%list.
Proof. induction l1 as [|[b|m] l1 IH]; simpl; congruence. Qed.

Lemma hits_keeps (s : string) : hits (keeps s) = [].
Proof. induction s; simpl; auto. Qed.

Lemma scan_go_hits (r : regex) (s : string) :
  forall prev k, Forall (hit_of r) (hits (scan_go r prev k s)).
Proof.
  induction s as [|b s IH]; intros prev k; simpl; [constructor|].
  destruct k as [|k]; [|apply IH].
  destruct (match_at r prev (String b s)) as [x|] eqn:E; simpl.
  - constructor; [apply (match_at_hit _ _ _ _ E) | apply IH].
  - apply IH.
Qed.

Lemma scan_hits (r : regex) (s : string) : Forall (hit_of r) (hits (scan r s)).
Proof. apply scan_go_hits. Qed.

(** Passing over [k] bytes, then scanning. *)
Lemma scan_go_skip (r : regex) (s : string) :
  forall prev k,
    k <= String.length s ->
    scan_go r prev k s = scan_go r (last_or prev (take k s)) 0 (drop k s).
Proof.
  induction s as [|b s IH]; intros prev k H.
  - simpl in H. assert (k = 0) by lia. subst. reflexivity.
  - destruct k as [|k]; [reflexivity|].
    simpl in H. cbn [scan_go take drop last_or]. apply IH. lia.
Qed.

(** At a match: the match, then the scan of what follows it. *)
Lemma scan_go_match (r : regex) (prev : option ascii) (a rest : string)
  (c : caps) :
  0 < min_len r ->
  match_at r prev (a ++ rest) = Some (rest, c) ->
  scan_go r prev 0 (a ++ rest)
  = Hit (a :: c) :: scan_go r (last_or prev a) 0 rest.
Proof.
  intros L H.
  pose proof (match_at_nonempty _ _ _ _ L H) as N. simpl in N.
  rewrite str_length_app in N.
  destruct a as [|b a]; [simpl in N; lia|].
  cbn [append scan_go]. cbn [append] in H. rewrite H.
  unfold submatch. cbn [fst snd].
  change (String b (a ++ rest)) with (String b a ++ rest).
  rewrite take_consumed. f_equal.
  rewrite scan_go_skip.
  - replace (String.length (String b a ++ rest) - String.length rest - 1)
      with (String.length a)
      by (rewrite str_length_app; cbn [String.length]; lia).
    now rewrite take_app, drop_app.
  - rewrite !str_length_app. cbn [String.length]. lia.
Qed.

Lemma scan_go_nomatch (r : regex) (prev : option ascii) (b : ascii)
  (s : string) :
  match_at r prev (String b s) = None ->
  scan_go r prev 0 (String b s) = Keep b :: scan_go r (Some b) 0 s.
Proof. intros H. cbn [scan_go]. now rewrite H. Qed.

(** The pieces, each read as the text it came from, give the subject back. *)
Theorem render_whole_scan (r : regex) (s : string) :
  0 < min_len r ->
  forall prev, render whole (scan_go r prev 0 s) = s.
Proof.
  intros L.
  remember (String.length s) as n eqn:E. revert s E.
  induction n as [n IH] using lt_wf_ind. intros s E prev.
  destruct s as [|b s]; [reflexivity|].
  destruct (match_at r prev (String b s)) as [[rest c]|] eqn:M.
  - destruct (match_at_sound _ _ _ _ M) as (a & Ea & _). simpl in Ea.
    pose proof (match_at_nonempty _ _ _ _ L M) as N. simpl in N.
    rewrite Ea in M |- *. rewrite (scan_go_match _ _ _ _ _ L M).
    simpl. unfold whole at 1. simpl. f_equal.
    apply (IH (String.length rest)); [|reflexivity].
    subst n. simpl. lia.
  - rewrite (scan_go_nomatch _ _ _ _ M). simpl. f_equal.
    apply (IH (String.length s)); [|reflexivity]. subst n. simpl. lia.
Qed.

(** Without a match nothing is replaced. *)
Lemma find_from_nil (r : regex) (s : string) :
  forall prev, find_from r prev s = [] -> scan_go r prev 0 s = keeps s.
Proof.
  induction s as [|b s IH]; intros prev H; [reflexivity|].
  cbn [find_from] in H.
  destruct (match_at r prev (String b s)) as [x|] eqn:M; [discriminate|].
  rewrite (scan_go_nomatch _ _ _ _ M). simpl. f_equal. now apply IH.
Qed.

Lemma no_match_scan (r : regex) (s : string) :
  FindStringSubmatch r s = [] -> scan r s = keeps s.
Proof. apply find_from_nil. Qed.

Lemma no_match_ReplaceAllString (r : regex) (s : string) (t : list titem) :
  FindStringSubmatch r s = [] -> ReplaceAllString r s t = s.
Proof.
  intros H. unfold ReplaceAllString. rewrite (no_match_scan _ _ H).
  apply render_keeps.
Qed.


(** The leftmost match is the first match of the scan. *)
Lemma find_from_first (r : regex) (s : string) :
  0 < min_len r ->
  forall prev m,
    find_from r prev s = m -> m <> [] ->
    exists pre post,
      s = pre ++ whole m ++ post
      /\ hit_of r m
      /\ scan_go r prev 0 s
         = (keeps pre
            ++ Hit m :: scan_go r (last_or prev (pre ++ whole m)) 0 post)%list.
Proof.
  intros L. induction s as [|b s IH]; intros prev m F N.
  - cbn [find_from] in F.
    destruct (match_at r prev EmptyString) as [x|] eqn:M; [|congruence].
    pose proof (match_at_nonempty _ _ _ _ L M) as Hn. simpl in Hn. lia.
  - cbn [find_from] in F.
    destruct (match_at r prev (String b s)) as [[rest c]|] eqn:M.
    + destruct (submatch_sound _ _ _ _ M) as (a & Ea & Es & Hm).
      cbn [fst snd] in Ea, Es, Hm. rewrite Es in F. subst m.
      exists EmptyString, rest. change (whole (a :: c)) with a.
      cbn [append keeps app]. rewrite Ea in M |- *.
      split; [reflexivity|]. split.
      * exists prev, a, rest, c. auto.
      * now apply scan_go_match.
    + destruct (IH _ _ F N) as (pre & post & E & Hh & Hs).
      exists (String b pre), post. cbn [append keeps app last_or].
      split; [congruence|]. split; [assumption|].
      rewrite (scan_go_nomatch _ _ _ _ M), Hs. reflexivity.
Qed.

End ScanFacts.

(** ** How long a group can be *)

Module GroupFacts.

Import Strings StringsFacts Regexp RegexpFacts ScanFacts.

(** A lower bound on the bytes a match of [r] has outside group [n]. *)
Fixpoint outside (n : nat) (r : regex) : nat :=
  match r with
  | RSeq r1 r2 => outside n r1 + outside n r2
  | RGroup m r1 => if m =? n then 0 else outside n r1
  | ROpt _ => 0
  | _ => min_len r
  end.

Lemma set_cap_nil (m : nat) (v : string) : set_cap m v [] = [].
Proof. destruct m as [|[|m]]; reflexivity. Qed.

Lemma get_set_cap_other (n m : nat) (v : string) (c : caps) :
  m <> n -> get_cap n (set_cap m v c) = get_cap n c.
Proof.
  revert n m; induction c as [|x c IH]; intros n m H.
  - now rewrite set_cap_nil.
  - destruct m as [|[|m]]; [reflexivity| |].
    + destruct n as [|[|n]]; [reflexivity | congruence | reflexivity].
    + cbn [set_cap]. destruct n as [|[|n]]; [reflexivity | reflexivity |].
      apply (IH (S n) (S m)). congruence.
Qed.

Lemma get_set_cap_same (n : nat) (v : string) (c : caps) :
  get_cap n (set_cap n v c) = v \/ get_cap n (set_cap n v c) = get_cap n c.
Proof.
  revert n; induction c as [|x c IH]; intros n.
  - right. now rewrite set_cap_nil.
  - destruct n as [|[|n]]; [now right | now left |].
    cbn [set_cap]. apply (IH (S n)).
Qed.

Lemma outside_le_min_len (n : nat) (r : regex) : outside n r <= min_len r.
Proof.
  induction r; simpl; try lia.
  destruct (n0 =? n); lia.
Qed.

Lemma Matches_outside (n : nat) (r : regex) :
  forall prev a rest c c',
    Matches r prev a rest c c' ->
    get_cap n c' = get_cap n c
    \/ String.length (get_cap n c') + outside n r <= String.length a.
Proof.
  induction r as [|alts|p|r1 IH1 r2 IH2|g p|r1 IH1|m r1 IH1|];
    intros prev a rest c c' M; cbn [Matches] in M.
  - left. destruct M as [_ ->]. reflexivity.
  - left. destruct M as [_ ->]. reflexivity.
  - left. destruct M as (b & _ & _ & ->). reflexivity.
  - destruct M as (a1 & a2 & c1 & -> & M1 & M2).
    pose proof (Matches_min_len _ _ _ _ _ _ M1) as L1.
    pose proof (Matches_min_len _ _ _ _ _ _ M2) as L2.
    pose proof (outside_le_min_len n r1) as O1.
    pose proof (outside_le_min_len n r2) as O2.
    apply IH1 in M1. apply IH2 in M2. rewrite str_length_app. cbn [outside].
    destruct M2 as [E2|B2].
    + rewrite E2. destruct M1 as [E1|B1]; [left; assumption | right; lia].
    + right. lia.
  - left. destruct M as [_ ->]. reflexivity.
  - destruct M as [[_ ->]|M]; [left; reflexivity|].
    apply IH1 in M. cbn [outside]. destruct M; [left; assumption | right; lia].
  - destruct M as (c1 & M & ->). cbn [outside].
    destruct (Nat.eqb_spec m n) as [->|Ne].
    + destruct (get_set_cap_same n a c1) as [E|E]; rewrite E.
      * right. lia.
      * apply IH1 in M. destruct M; [left; assumption | right; lia].
    + rewrite get_set_cap_other by assumption. apply (IH1 _ _ _ _ _ M).
  - left. destruct M as (_ & -> & _). reflexivity.
Qed.

Lemma get_cap_repeat (n k : nat) : get_cap n (repeat EmptyString k) = EmptyString.
Proof.
  destruct n as [|n]; [reflexivity|]. cbn [get_cap]. revert n.
  induction k; intros [|n]; simpl; auto.
Qed.

(** A group is shorter than the match when the pattern has a literal outside
    it. *)
Theorem group_shorter (r : regex) (n : nat) (m : list string) :
  0 < outside (S n) r ->
  hit_of r m ->
  String.length (group (S n) m) < String.length (whole m).
Proof.
  intros O (prev & a & rest & c & _ & -> & M).
  change (group (S n) (a :: c)) with (get_cap (S n) c).
  change (whole (a :: c)) with a.
  pose proof (Matches_min_len _ _ _ _ _ _ M) as L.
  pose proof (outside_le_min_len (S n) r) as O'.
  apply (Matches_outside (S n)) in M. rewrite get_cap_repeat in M.
  destruct M as [->|B]; [simpl; lia | lia].
Qed.

(** Replacing every match by something shorter. *)
Lemma render_shorter (f : list string -> string) (ps : list piece) :
  Forall (fun m => String.length (f m) < String.length (whole m)) (hits ps) ->
  (hits ps = [] /\ render f ps = render whole ps)
  \/ String.length (render f ps) < String.length (render whole ps).
Proof.
  induction ps as [|[b|m] ps IH]; intros F.
  - left. split; reflexivity.
  - cbn [hits] in F |- *. cbn [render]. destruct (IH F) as [[E R]|L].
    + left. split; [assumption | now rewrite R].
    + right. cbn [String.length]. lia.
  - cbn [hits] in F. inversion F as [|? ? Hm F']; subst.
    right. cbn [render]. rewrite !str_length_app.
    destruct (IH F') as [[_ R]|L]; [rewrite R|]; lia.
Qed.

Theorem ReplaceAllString_group_shrinks (r : regex) (n : nat) (s : string) :
  0 < outside (S n) r ->
  ReplaceAllString r s [TGroup (S n)] = s
  \/ String.length (ReplaceAllString r s [TGroup (S n)]) < String.length s.
Proof.
  intros O. unfold ReplaceAllString.
  assert (L : 0 < min_len r)
    by (pose proof (outside_le_min_len (S n) r); lia).
  pose proof (render_whole_scan r s L None) as W. fold (scan r s) in W.
  assert (F : Forall (fun m => String.length (expand [TGroup (S n)] m)
                               < String.length (whole m)) (hits (scan r s))).
  { eapply Forall_impl; [|apply (scan_hits r s)]. intros m Hm. cbn [expand].
    rewrite str_app_nil_r. now apply (group_shorter r). }
  destruct (render_shorter _ _ F) as [[_ R]|Lt].
  - left. congruence.
  - right. now rewrite W in Lt.
Qed.

End GroupFacts.

(** ** Step 3.5: the loop that unwraps the decorative spans *)

Module UnwrapFacts.

Import Strings StringsFacts Regexp RegexpFacts ScanFacts GroupFacts Main.

Lemma outside_reUnwrapDown : 0 < outside 1 reUnwrapDown.
Proof. vm_compute. lia. Qed.

Lemma outside_reUnwrapGap : 0 < outside 1 reUnwrapGap.
Proof. vm_compute. lia. Qed.

(** A round leaves the markup as it is or makes it shorter. *)
Lemma unwrap_round_shrinks (h : string) :
  unwrap_round h = h \/ String.length (unwrap_round h) < String.length h.
Proof.
  unfold unwrap_round.
  destruct (ReplaceAllString_group_shrinks reUnwrapDown 0 h outside_reUnwrapDown)
    as [E1|L1];
    destruct (ReplaceAllString_group_shrinks reUnwrapGap 0
                (ReplaceAllString reUnwrapDown h [TGroup 1]) outside_reUnwrapGap)
      as [E2|L2].
  - left. congruence.
  - right. rewrite E1 in L2 at 2. exact L2.
  - right. rewrite E2. exact L1.
  - right. lia.
Qed.

Lemma unwrap_loop_fixed (fuel : nat) (h : string) :
  unwrap_round h = h -> unwrap_loop (S fuel) h = Some h.
Proof.
  intros E. cbn [unwrap_loop]. rewrite E, String.eqb_refl. reflexivity.
Qed.

(** With more fuel than the markup has bytes the loop reaches its break, and
    what it returns is a markup that a round leaves as it is. *)
Lemma unwrap_loop_total (fuel : nat) :
  forall h,
    String.length h < fuel ->
    exists h', unwrap_loop fuel h = Some h' /\ unwrap_round h' = h'
               /\ String.length h' <= String.length h.
Proof.
  induction fuel as [|fuel IH]; intros h L; [lia|].
  cbn [unwrap_loop].
  destruct (String.eqb_spec (unwrap_round h) h) as [E|N].
  - exists (unwrap_round h). rewrite E. auto.
  - destruct (unwrap_round_shrinks h) as [E|S]; [congruence|].
    destruct (IH (unwrap_round h)) as (h' & R & F & Le); [lia|].
    exists h'. repeat split; auto. lia.
Qed.

(** More fuel changes nothing. *)
Lemma unwrap_loop_more (fuel : nat) :
  forall h h' fuel',
    unwrap_loop fuel h = Some h' -> fuel <= fuel' ->
    unwrap_loop fuel' h = Some h'.
Proof.
  induction fuel as [|fuel IH]; intros h h' fuel' R L; [discriminate|].
  destruct fuel' as [|fuel']; [lia|].
  cbn [unwrap_loop] in *.
  destruct (String.eqb (unwrap_round h) h); [assumption|].
  apply (IH _ _ _ R). lia.
Qed.

Lemma unwrap_total (h : string) :
  exists h', unwrap h = Some h' /\ unwrap_round h' = h'.
Proof.
  destruct (unwrap_loop_total (S (String.length h)) h) as (h' & R & F & _);
    [lia|].
  exists h'. auto.
Qed.

End UnwrapFacts.

(** ** strings.ReplaceAll and the last step *)

Module ReplaceFacts.

Import Strings StringsFacts Main.

Lemma absent_tail (sub : string) (c : ascii) (s : string) :
  absent sub (String c s) -> absent sub s.
Proof. intros H j. apply (H (S j)). Qed.

(** Nothing is replaced where [old] does not occur. *)
Lemma ReplaceAll_absent (s old new : string) :
  Index s old = None -> ReplaceAll s old new = s.
Proof.
  rewrite Index_None. unfold ReplaceAll.
  induction s as [|c s IH]; intros A; [reflexivity|].
  cbn [replace_go]. rewrite (A 0 : HasPrefix (String c s) old = false).
  f_equal. apply IH. eapply absent_tail, A.
Qed.

Definition sp : ascii := " "%char.











End ReplaceFacts.

(** ** A decoder to run the program with *)

Module Decoder.

Import Strings.

(** The character references that html.EscapeString writes, and quot. *)
Definition references : list (string * string) :=
  [("&amp;", "&"); ("&lt;", "<"); ("&gt;", ">"); ("&#39;", "'");
   ("&#34;", dq); ("&quot;", dq)].

Fixpoint lookup (s : string) (l : list (string * string))
  : option (string * string) :=
  match l with
  | [] => None
  | (name, v) :: l' => if HasPrefix s name then Some (name, v) else lookup s l'
  end.

(** html.UnescapeString on the references above; every other byte is copied.
    html.UnescapeString itself decodes more (the numeric references and the
    whole table of names); on a string without an ampersand it returns the
    string, as this one does. *)
Fixpoint unescape_go (skip : nat) (s : string) : string :=
  match s with
  | EmptyString => EmptyString
  | String c s' =>
      match skip with
      | S k => unescape_go k s'
      | O =>
          if Ascii.eqb c "&"%char
          then match lookup s references with
               | Some (name, v) => v ++ unescape_go (String.length name - 1) s'
               | None => String c (unescape_go 0 s')
               end
          else String c (unescape_go 0 s')
      end
  end.

Definition UnescapeBasic (s : string) : string := unescape_go 0 s.

Lemma UnescapeBasic_plain (s : string) :
  mem "&"%char s = false -> UnescapeBasic s = s.
Proof.
  unfold UnescapeBasic. induction s as [|c s IH]; intros H; [reflexivity|].
  cbn [mem] in H. apply orb_false_iff in H as [H1 H2].
  cbn [unescape_go]. rewrite Ascii.eqb_sym, H1. f_equal. auto.
Qed.

End Decoder.

(** ** The steps of transform, when nothing matches *)

Module StepFacts.

Import Strings StringsFacts Regexp RegexpFacts ScanFacts GroupFacts Main
  UnwrapFacts ReplaceFacts.



Lemma no_match_unwrap (h : string) :
  FindStringSubmatch reUnwrapDown h = [] ->
  FindStringSubmatch reUnwrapGap h = [] ->
  unwrap h = Some h.
Proof.
  intros D G. apply unwrap_loop_fixed. unfold unwrap_round.
  rewrite (no_match_ReplaceAllString _ _ _ D).
  apply (no_match_ReplaceAllString _ _ _ G).
Qed.


End StepFacts.

(** * The claims about the loop, the last step and the untouched markup *)

Module Totality.

Import Strings StringsFacts Regexp RegexpFacts ScanFacts GroupFacts Main
  UnwrapFacts ReplaceFacts StepFacts.

Section WithDecoder.

Variable UnescapeString : string -> string.

(** C4. [transform] returns a pair of strings for every markup, sound and
    color: the loop of step 3.5, the only part of it that could go on for
    ever, reaches its break within as many rounds as the markup has bytes,
    plus one, and more fuel changes nothing.  On the empty markup and the
    empty sound the pair is that of two empty strings. *)
Theorem transform_total :
  (forall h sound color,
      exists out ja, transform UnescapeString h sound color = Some (out, ja))
  /\ (forall color,
         transform UnescapeString EmptyString EmptyString color
         = Some (EmptyString, EmptyString))
  /\ (forall h fuel,
         String.length h < fuel ->
         unwrap_loop fuel h = unwrap h /\ unwrap h <> None).
Proof.
  split; [|split].
  - intros h sound color. unfold transform.
    destruct (extract_translation UnescapeString (strip_style h)) as [ja1 h1].
    destruct (rewrite_cloze UnescapeString color ja1 h1) as [ja2 h2].
    destruct (unwrap_total h2) as (h' & R & _). rewrite R. eauto.
  - intros color. reflexivity.
  - intros h fuel L. destruct (unwrap_total h) as (h' & R & _).
    split; [|congruence]. rewrite R.
    apply (unwrap_loop_more (S (String.length h))); [exact R | lia].
Qed.

(** C6. The unwrapping of step 3.5 is idempotent: it returns a markup that
    one more round leaves as it is, so that unwrapping its own output
    returns that output. *)
Theorem unwrap_idempotent (h : string) :
  exists h',
    unwrap h = Some h' /\ unwrap h' = Some h' /\ unwrap_round h' = h'.
Proof.
  destruct (unwrap_total h) as (h' & R & F).
  exists h'. repeat split; auto. now apply unwrap_loop_fixed.
Qed.



End WithDecoder.



End Totality.

(** * Step 6: the sound *)

Module Sound.

Import Strings StringsFacts RegexpFacts Main.

Definition in_cutset (cutset : string) : ascii -> bool := fun c => mem c cutset.

Lemma last_or_nonempty (s : string) (d d' : option ascii) :
  s <> EmptyString -> last_or d s = last_or d' s.
Proof. destruct s; [congruence | reflexivity]. Qed.

Lemma TrimLeft_spec (s cutset : string) :
  exists l,
    s = l ++ TrimLeft s cutset
    /\ all_in (in_cutset cutset) l = true
    /\ forall c, head (TrimLeft s cutset) = Some c -> mem c cutset = false.
Proof.
  induction s as [|c s (l & E & A & H)].
  - exists EmptyString. repeat split. discriminate.
  - cbn [TrimLeft]. destruct (mem c cutset) eqn:M.
    + exists (String c l). cbn [append all_in]. unfold in_cutset at 1.
      rewrite M, A, <- E. auto.
    + exists EmptyString. repeat split. cbn [head]. congruence.
Qed.






Section Insertion.

Variables h sound : string.

Let s : string := Trim sound (dq ++ " ").

Hypothesis nonempty : s <> EmptyString.





End Insertion.








End Sound.

(** ** What the parts of a pattern match *)

Module PatternFacts.

Import Strings StringsFacts Regexp RegexpFacts ScanFacts.

(** [a] is the word [w] up to the case of its letters (and the two foldings
    of s and k the flag [i] brings). *)
Fixpoint folds (w a : string) : Prop :=
  match w with
  | EmptyString => a = EmptyString
  | String ch w' =>
      exists x a', In x (fold_alts ch) /\ a = x ++ a' /\ folds w' a'
  end.

Lemma Matches_lit (w : string) :
  forall prev a rest c c',
    Matches (lit w) prev a rest c c' -> folds w a /\ c' = c.
Proof.
  induction w as [|ch w IH]; intros prev a rest c c' M.
  - exact M.
  - destruct w as [|ch' w].
    + cbn [lit Matches] in M. destruct M as [I ->]. split; [|reflexivity].
      exists a, EmptyString. rewrite str_app_nil_r. repeat split; auto.
    + change (lit (String ch (String ch' w)))
        with (RSeq (RLit (fold_alts ch)) (lit (String ch' w))) in M.
      cbn [Matches] in M.
      destruct M as (a1 & a2 & c1 & -> & [I ->] & M2).
      apply IH in M2 as [F ->]. split; [|reflexivity].
      exists a1, a2. auto.
Qed.

Lemma folds_refl (w : string) : folds w w.
Proof.
  induction w as [|ch w IH]; [reflexivity|].
  exists (String ch EmptyString), w. repeat split; auto.
  unfold fold_alts.
  destruct (Ascii.eqb (lower_of ch) (upper_of ch)) eqn:E; [now left|].
  unfold lower_of, upper_of in *.
  destruct ((65 <=? code ch) && (code ch <=? 90)) eqn:U;
    destruct ((97 <=? code ch) && (code ch <=? 122)) eqn:L.
  - apply andb_true_iff in U as [_ U], L as [L _].
    apply Nat.leb_le in U, L. lia.
  - right. left. reflexivity.
  - left. reflexivity.
  - rewrite Ascii.eqb_refl in E. discriminate.
Qed.

Lemma Matches_star (g : bool) (p : ascii -> bool) prev a rest c c' :
  Matches (RStar g p) prev a rest c c' -> all_in p a = true /\ c' = c.
Proof. intros M. exact M. Qed.

Lemma Matches_plus (p : ascii -> bool) prev a rest c c' :
  Matches (plus p) prev a rest c c' ->
  all_in p a = true /\ a <> EmptyString /\ c' = c.
Proof.
  unfold plus. cbn [Matches].
  intros (a1 & a2 & c1 & -> & (b & -> & P & ->) & A & ->).
  cbn [append all_in]. rewrite P, A. repeat split. discriminate.
Qed.

Lemma all_in_app (p : ascii -> bool) (a b : string) :
  all_in p (a ++ b) = all_in p a && all_in p b.
Proof.
  induction a as [|x a IH]; [reflexivity|].
  cbn [append all_in]. now rewrite IH, andb_assoc.
Qed.

End PatternFacts.

(** ** Step 4: the card line *)

Module Card.

Import Strings StringsFacts Regexp RegexpFacts ScanFacts PatternFacts Main.

(** A byte the flag [i] leaves alone. *)
Definition caseless (ch : ascii) : bool :=
  Ascii.eqb (lower_of ch) (upper_of ch).

Lemma folds_plain (w a : string) :
  all_in caseless w = true -> folds w a -> a = w.
Proof.
  revert a. induction w as [|ch w IH]; intros a P F; [exact F|].
  cbn [all_in] in P. apply andb_true_iff in P as [P1 P2].
  destruct F as (x & a' & I & -> & F).
  unfold fold_alts in I. unfold caseless in P1. rewrite P1 in I.
  destruct I as [<-|[]]. cbn [append]. f_equal. now apply IH.
Qed.

(** A class value in which the word [token] stands: what
    "[^DQ]*\btoken[^DQ]*" matches. *)
Definition class_with (token g : string) : Prop :=
  exists a tok b,
    g = a ++ tok ++ b /\ all_in not_dq a = true /\ folds token tok
    /\ all_in not_dq b = true.

Lemma Matches_class (token : string) prev g rest c c1 :
  Matches (seq [star not_dq; RWordB; lit token; star not_dq]) prev g rest c c1 ->
  class_with token g /\ c1 = c.
Proof.
  cbn [seq]. unfold star. cbn [Matches].
  intros (a1 & a2 & c2 & -> & [A1 ->] & a3 & a4 & c3 & -> & (-> & -> & _)
          & a5 & a6 & c4 & -> & L & [A6 ->]).
  apply Matches_lit in L as [F ->]. split; [|reflexivity].
  exists a1, a5, a6. cbn [append]. auto.
Qed.







End Card.

(** ** Matching the matched text again

    The functions given to ReplaceAllStringFunc match their pattern once
    more, on the matched text alone.  For a pattern without word boundary
    this finds the same match with the same groups. *)

Module Locality.

Import Strings StringsFacts Regexp RegexpFacts ScanFacts.

(** The pattern looks at no byte outside what it matches. *)
Fixpoint local (r : regex) : bool :=
  match r with
  | RSeq r1 r2 => local r1 && local r2
  | ROpt r1 => local r1
  | RGroup _ r1 => local r1
  | RWordB => false
  | _ => true
  end.

Lemma HasPrefix_app_l (s t p : string) :
  HasPrefix s p = true -> HasPrefix (s ++ t) p = true.
Proof.
  intros H. apply HasPrefix_iff in H as [u ->].
  rewrite str_app_assoc. apply HasPrefix_app.
Qed.

Lemma HasPrefix_length (s p : string) :
  HasPrefix s p = true -> String.length p <= String.length s.
Proof.
  intros H. apply HasPrefix_iff in H as [u ->]. rewrite str_length_app. lia.
Qed.

Lemma HasPrefix_take (s t p : string) :
  String.length p <= String.length s ->
  HasPrefix (s ++ t) p = true -> HasPrefix s p = true.
Proof.
  intros L H. apply HasPrefix_iff in H as [u E].
  apply HasPrefix_iff. exists (drop (String.length p) s).
  rewrite <- (take_drop (String.length p) s) at 1. f_equal.
  rewrite <- (take_app_le _ _ t L), E. apply take_app.
Qed.

Lemma drop_app_le (n : nat) (a b : string) :
  n <= String.length a -> drop n (a ++ b) = drop n a ++ b.
Proof.
  revert a. induction n as [|n IH]; intros a L; [now rewrite !drop_0|].
  destruct a as [|x a]; [simpl in L; lia|].
  cbn [append drop]. apply IH. simpl in L. lia.
Qed.

Section Cut.

(** What follows the matched text in the subject. *)
Variable rest : string.

(** A result that has gone past the end of the matched text. *)
Definition beyond (o : option result) : Prop :=
  exists r' c', o = Some (r', c') /\ String.length r' < String.length rest.

Definition agree (o1 o2 : option result) : Prop :=
  (o1 = None /\ o2 = None)
  \/ exists r' c', o1 = Some (r', c') /\ o2 = Some (r' ++ rest, c').

(** [o1] on the matched text alone, [o2] on the subject. *)
Definition sim (o1 o2 : option result) : Prop := beyond o2 \/ agree o1 o2.

Definition late (o : option result) : Prop := o = None \/ beyond o.

Definition orelse (o1 o2 : option result) : option result :=
  match o1 with
  | Some x => Some x
  | None => o2
  end.

Lemma orelse_sim (t1 f1 t2 f2 : option result) :
  sim t1 f1 -> sim t2 f2 -> sim (orelse t1 t2) (orelse f1 f2).
Proof.
  intros [B|[[-> ->]|(r' & c' & -> & ->)]] S2.
  - left. destruct B as (r' & c' & -> & L). exists r', c'. auto.
  - exact S2.
  - right. right. exists r', c'. auto.
Qed.

Lemma orelse_late (f1 f2 : option result) :
  late f1 -> late f2 -> late (orelse f1 f2).
Proof.
  intros [->|B] L2; [exact L2|].
  right. destruct B as (r' & c' & -> & L). exists r', c'. auto.
Qed.

Lemma late_sim (t f1 f2 : option result) :
  late f1 -> sim t f2 -> sim t (orelse f1 f2).
Proof.
  intros [->|B] S2; [exact S2|].
  left. destruct B as (r' & c' & -> & L). exists r', c'. auto.
Qed.

Lemma late_sim_none (f : option result) : late f -> sim None f.
Proof. intros [->|B]; [right; left; auto | left; exact B]. Qed.

Definition lates (k : cont) : Prop :=
  forall p t c, String.length t < String.length rest -> late (k p t c).

Definition related (kf kt : cont) : Prop :=
  (forall pf pt s c, sim (kt pt s c) (kf pf (s ++ rest) c)) /\ lates kf.

Lemma run_lates (r : regex) : forall k, lates k -> lates (run r k).
Proof.
  induction r as [|alts|p|r1 IH1 r2 IH2|g p|r1 IH1|n r1 IH1|];
    intros k K pf t c L; cbn [run].
  - now apply K.
  - induction alts as [|a alts IHa]; cbn [lit_alts]; [now left|].
    destruct (HasPrefix t a); [|exact IHa].
    refine (orelse_late _ _ _ IHa). apply K. rewrite length_drop. lia.
  - destruct t as [|b t]; [now left|].
    destruct (p b); [|now left]. apply K. simpl in L. lia.
  - apply IH1; [|assumption]. now apply IH2.
  - destruct g.
    + revert pf L. induction t as [|b t IHt]; intros pf L; cbn [star_greedy].
      * now apply K.
      * destruct (p b); [|now apply K].
        apply (orelse_late (star_greedy p k (Some b) t c)).
        -- apply IHt. simpl in L. lia.
        -- now apply K.
    + revert pf L. induction t as [|b t IHt]; intros pf L; cbn [star_lazy].
      * apply (orelse_late (k pf EmptyString c)); [now apply K|now left].
      * apply (orelse_late (k pf (String b t) c)); [now apply K|].
        destruct (p b); [|now left]. apply IHt. simpl in L. lia.
  - apply (orelse_late (run r1 k pf t c)); [now apply IH1|now apply K].
  - apply IH1; [|assumption]. intros p' t' c' L'. now apply K.
  - destruct (xorb _ _); [now apply K|now left].
Qed.

Lemma run_related (r : regex) :
  local r = true ->
  forall kf kt, related kf kt -> related (run r kf) (run r kt).
Proof.
  induction r as [|alts|p|r1 IH1 r2 IH2|g p|r1 IH1|n r1 IH1|];
    intros Lr kf kt [R K]; (split; [|now apply run_lates]);
    intros pf pt s c; cbn [run].
  - apply R.
  - clear Lr. induction alts as [|a alts IHa]; cbn [lit_alts]; [right; left; auto|].
    destruct (HasPrefix s a) eqn:E.
    + rewrite (HasPrefix_app_l _ rest _ E).
      rewrite (drop_app_le _ _ _ (HasPrefix_length _ _ E)).
      apply (orelse_sim _ _ _ _ (R _ _ _ _) IHa).
    + destruct (HasPrefix (s ++ rest) a) eqn:E'; [|exact IHa].
      apply late_sim; [|exact IHa]. apply K.
      pose proof (HasPrefix_length _ _ E') as L.
      rewrite length_drop, str_length_app in *.
      assert (String.length s < String.length a); [|lia].
      destruct (Nat.le_gt_cases (String.length a) (String.length s)) as [L'|L'];
        [|exact L'].
      rewrite (HasPrefix_take _ _ _ L' E') in E. discriminate.
  - destruct s as [|b s]; cbn [append].
    + destruct rest as [|b t] eqn:Er; [right; left; auto|].
      destruct (p b); [|right; left; auto].
      apply late_sim_none. rewrite <- Er in *. apply K. rewrite Er. simpl. lia.
    + destruct (p b); [apply R | right; left; auto].
  - cbn [local] in Lr. apply andb_true_iff in Lr as [L1 L2].
    apply (IH1 L1 (run r2 kf) (run r2 kt)). apply IH2; [assumption|].
    split; assumption.
  - assert (G : forall t pf, String.length t < String.length rest ->
                             late (run (RStar g p) kf pf t c)).
    { intros t pf' L. now apply (run_lates (RStar g p) kf K). }
    destruct g; cbn [run] in G.
    + revert pf pt. induction s as [|b s IHs]; intros pf pt.
      * cbn [append star_greedy].
        destruct rest as [|b t] eqn:Er; [cbn [star_greedy]; apply (R pf pt EmptyString)|].
        cbn [star_greedy]. destruct (p b); [|apply (R pf pt EmptyString)].
        apply late_sim; [|apply (R pf pt EmptyString)].
        apply G. simpl. lia.
      * cbn [append star_greedy]. destruct (p b); [|apply (R pf pt (String b s))].
        apply (orelse_sim _ _ _ _ (IHs _ _) (R pf pt (String b s) c)).
    + revert pf pt. induction s as [|b s IHs]; intros pf pt.
      * cbn [append star_lazy].
        destruct rest as [|b t] eqn:Er.
        -- cbn [star_lazy].
           apply (orelse_sim _ _ None None (R pf pt EmptyString c)).
           right; left; auto.
        -- cbn [star_lazy].
           apply (orelse_sim _ _ None _ (R pf pt EmptyString c)).
           destruct (p b); [|right; left; auto].
           apply late_sim_none. apply G. simpl. lia.
      * cbn [append star_lazy].
        apply (orelse_sim _ _ _ _ (R pf pt (String b s) c)).
        destruct (p b); [apply IHs | right; left; auto].
  - cbn [local] in Lr.
    apply (orelse_sim _ _ _ _ (proj1 (IH1 Lr kf kt (conj R K)) _ _ _ _)
             (R pf pt s c)).
  - cbn [local] in Lr.
    refine (proj1 (IH1 Lr _ _ _) pf pt s c). split.
    + intros pf' pt' s' c'.
      rewrite !str_length_app.
      replace (String.length s + String.length rest
               - (String.length s' + String.length rest))
        with (String.length s - String.length s') by lia.
      rewrite take_app_le by lia. apply R.
    + intros p' t' c' L'. now apply K.
  - discriminate.
Qed.

Lemma accept_related : related accept accept.
Proof.
  split.
  - intros pf pt s c. right. right. exists s, c. auto.
  - intros p t c L. right. exists t, c. auto.
Qed.

Lemma match_at_cut (r : regex) (prev prev' : option ascii) (a : string)
  (c : caps) :
  local r = true ->
  match_at r prev (a ++ rest) = Some (rest, c) ->
  match_at r prev' a = Some (EmptyString, c).
Proof.
  intros L M. unfold match_at in *.
  destruct (proj1 (run_related r L _ _ accept_related) prev prev' a
              (repeat EmptyString (ngroups r)))
    as [(r' & c' & E & Lt)|[[_ E]|(r' & c' & E1 & E2)]].
  - rewrite M in E. injection E as <- _. lia.
  - rewrite M in E. discriminate.
  - rewrite M in E2. injection E2 as E2 <-.
    symmetry in E2. apply str_app_eq_self in E2. now subst r'.
Qed.

End Cut.

(** FindStringSubmatch on the text of a match gives the match. *)
Theorem rematch (r : regex) (m : list string) :
  local r = true -> hit_of r m -> FindStringSubmatch r (whole m) = m.
Proof.
  intros L (prev & a & rest & c & M & -> & _).
  change (whole (a :: c)) with a.
  pose proof (match_at_cut rest r prev None a c L M) as E.
  unfold FindStringSubmatch.
  assert (F : find_from r None a
              = match match_at r None a with
                | Some x => submatch a x
                | None => match a with
                          | EmptyString => []
                          | String b s' => find_from r (Some b) s'
                          end
                end) by (destruct a; reflexivity).
  rewrite F, E. unfold submatch. cbn [fst snd String.length].
  now rewrite Nat.sub_0_r, take_all.
Qed.

End Locality.

(** ** Strings of white space *)

Module Blank.

Import Strings StringsFacts RegexpFacts Main.

(** A sequence of white space runes. *)
Inductive AllSpace : string -> Prop :=
| AllSpace_nil : AllSpace EmptyString
| AllSpace_cons (r s : string) :
    is_space_rune r = true -> AllSpace s -> AllSpace (r ++ s).


(** What TrimRightSpace takes off. *)
Lemma TrimRightSpace_split (t : string) :
  exists sp, t = TrimRightSpace t ++ sp /\ AllSpace sp.
Proof.
  induction t as [|c t (sp & E & A)].
  - exists EmptyString. split; [reflexivity|constructor].
  - cbn [TrimRightSpace].
    destruct (is_space_rune (String c (TrimRightSpace t))) eqn:R.
    + exists (String c (TrimRightSpace t) ++ sp). split.
      * cbn [append]. now rewrite <- E.
      * now constructor.
    + exists sp. split; [|assumption]. cbn [append]. now rewrite <- E.
Qed.

(** What TrimLeftSpace takes off. *)
Lemma TrimLeftSpace_split (s : string) :
  exists sp, s = sp ++ TrimLeftSpace s /\ AllSpace sp.
Proof.
  remember (String.length s) as n eqn:E. revert s E.
  induction n as [n IH] using lt_wf_ind. intros s E.
  assert (Z : exists sp, s = sp ++ s /\ AllSpace sp)
    by (exists EmptyString; split; [reflexivity|constructor]).
  destruct s as [|c0 r0]; [exact Z|].
  cbn [TrimLeftSpace].
  destruct (space_width (String c0 r0)) as [|[|[|[|w]]]] eqn:W; try exact Z.
  - destruct (IH (String.length r0)) with (s := r0) as (sp & E1 & A);
      [subst n; simpl; lia|reflexivity|].
    exists (String c0 EmptyString ++ sp). split.
    + cbn [append]. now rewrite <- E1.
    + constructor; [|assumption].
      unfold is_space_rune. cbn [space_width] in *.
      destruct (ascii_space c0); [reflexivity|].
      destruct r0 as [|c1 r1]; [discriminate|].
      destruct ((code c0 =? 194) && ((code c1 =? 133) || (code c1 =? 160)));
        [discriminate|].
      destruct r1; [discriminate|].
      repeat match type of W with
             | (if ?b then _ else _) = _ => destruct b; try discriminate
             end.
  - destruct r0 as [|c1 r1]; [exact Z|].
    destruct (IH (String.length r1)) with (s := r1) as (sp & E1 & A);
      [subst n; simpl; lia|reflexivity|].
    exists (String c0 (String c1 EmptyString) ++ sp). split.
    + cbn [append]. now rewrite <- E1.
    + constructor; [|assumption].
      unfold is_space_rune. cbn [space_width] in *.
      destruct (ascii_space c0); [discriminate|].
      destruct ((code c0 =? 194) && ((code c1 =? 133) || (code c1 =? 160)));
        [reflexivity|].
      destruct r1; [discriminate|].
      repeat match type of W with
             | (if ?b then _ else _) = _ => destruct b; try discriminate
             end.
  - destruct r0 as [|c1 [|c2 r2]]; try exact Z.
    destruct (IH (String.length r2)) with (s := r2) as (sp & E1 & A);
      [subst n; simpl; lia|reflexivity|].
    exists (String c0 (String c1 (String c2 EmptyString)) ++ sp). split.
    + cbn [append]. now rewrite <- E1.
    + constructor; [|assumption].
      unfold is_space_rune. cbn [space_width] in *.
      destruct (ascii_space c0); [discriminate|].
      destruct ((code c0 =? 194) && ((code c1 =? 133) || (code c1 =? 160)));
        [discriminate|].
      repeat match type of W with
             | (if ?b then _ else _) = _ => destruct b; try discriminate
             end; reflexivity.
Qed.


End Blank.

(** ** What tag stripping does to white space *)

Module BlankFacts.

Import Strings StringsFacts RegexpFacts Main Blank.







Lemma mem_app (c : ascii) (a b : string) :
  mem c (a ++ b) = mem c a || mem c b.
Proof.
  induction a as [|x a IH]; [reflexivity|].
  cbn [append mem]. now rewrite IH, orb_assoc.
Qed.





End BlankFacts.

(** ** The markers that reCloze finds *)

Module MarkerFacts.

Import Strings StringsFacts Regexp RegexpFacts ScanFacts Main.

(** A greedy repetition over bytes of the class, up to a byte that is not in
    it. *)
Lemma star_greedy_all (p : ascii -> bool) (k : cont) (ds rest : string)
  (c : caps) (x : result) :
  all_in p ds = true ->
  (forall b, head rest = Some b -> p b = false) ->
  forall prev,
    k (last_or prev ds) rest c = Some x ->
    star_greedy p k prev (ds ++ rest) c = Some x.
Proof.
  intros A H. induction ds as [|d ds IH]; intros prev K.
  - cbn [append last_or] in *. destruct rest as [|b r]; [exact K|].
    cbn [star_greedy]. now rewrite (H b eq_refl).
  - cbn [all_in] in A. apply andb_true_iff in A as [A1 A2].
    cbn [append star_greedy]. rewrite A1.
    now rewrite (IH A2 (Some d) K).
Qed.

(** A lazy repetition goes over the bytes at which what follows fails. *)
Lemma star_lazy_skip (p : ascii -> bool) (k : cont) (a rest : string)
  (c : caps) :
  all_in p a = true ->
  forall prev,
    (forall a1 b a2,
        a = a1 ++ String b a2 ->
        k (last_or prev a1) (String b a2 ++ rest) c = None) ->
    star_lazy p k prev (a ++ rest) c = star_lazy p k (last_or prev a) rest c.
Proof.
  induction a as [|b a IH]; intros A prev F; [reflexivity|].
  cbn [all_in] in A. apply andb_true_iff in A as [A1 A2].
  cbn [append star_lazy last_or].
  pose proof (F EmptyString b a eq_refl) as F0. cbn [append last_or] in F0.
  rewrite F0, A1. apply (IH A2). intros a1 b' a2 E.
  apply (F (String b a1) b' a2). cbn [append]. now rewrite E.
Qed.

Lemma star_lazy_here (p : ascii -> bool) (k : cont) (prev : option ascii)
  (s : string) (c : caps) (x : result) :
  k prev s c = Some x -> star_lazy p k prev s c = Some x.
Proof. intros K. destruct s; cbn [star_lazy]; now rewrite K. Qed.

(** The three literals of reCloze, where they match and where they fail. *)
Lemma run_open (k : cont) (prev : option ascii) (s : string) (c : caps) :
  run (lit "{{c") k prev ("{{c" ++ s) c = k (Some "c"%char) s c.
Proof.
  change (lit "{{c")
    with (RSeq (RLit ["{"]) (RSeq (RLit ["{"]) (RLit ["c"; "C"]))).
  cbn. now destruct (k (Some "c"%char) s c).
Qed.

Lemma run_colons (k : cont) (prev : option ascii) (s : string) (c : caps) :
  run (lit "::") k prev ("::" ++ s) c = k (Some ":"%char) s c.
Proof.
  change (lit "::") with (RSeq (RLit [":"]) (RLit [":"])).
  cbn. now destruct (k (Some ":"%char) s c).
Qed.

Lemma run_close (k : cont) (prev : option ascii) (s : string) (c : caps) :
  run (lit "}}") k prev ("}}" ++ s) c = k (Some "}"%char) s c.
Proof.
  change (lit "}}") with (RSeq (RLit ["}"]) (RLit ["}"])).
  cbn. now destruct (k (Some "}"%char) s c).
Qed.

Lemma fail_open (k : cont) (prev : option ascii) (b : ascii) (s : string)
  (c : caps) :
  Ascii.eqb "{" b = false -> run (lit "{{c") k prev (String b s) c = None.
Proof.
  intros N.
  change (lit "{{c")
    with (RSeq (RLit ["{"]) (RSeq (RLit ["{"]) (RLit ["c"; "C"]))).
  cbn [run lit_alts HasPrefix]. now rewrite N.
Qed.

Lemma fail_colons (k : cont) (prev : option ascii) (b : ascii) (s : string)
  (c : caps) :
  Ascii.eqb ":" b = false -> run (lit "::") k prev (String b s) c = None.
Proof.
  intros N. change (lit "::") with (RSeq (RLit [":"]) (RLit [":"])).
  cbn [run lit_alts HasPrefix]. now rewrite N.
Qed.

Lemma fail_close (k : cont) (prev : option ascii) (b : ascii) (s : string)
  (c : caps) :
  Ascii.eqb "}" b = false -> run (lit "}}") k prev (String b s) c = None.
Proof.
  intros N. change (lit "}}") with (RSeq (RLit ["}"]) (RLit ["}"])).
  cbn [run lit_alts HasPrefix]. now rewrite N.
Qed.

(** What follows the first half in reCloze: the second half, if any, and the
    closing braces. *)
Definition after_front : cont :=
  run (ROpt (RSeq (lit "::") (RGroup 2 (lazy any)))) (run (lit "}}") accept).

Lemma match_at_reCloze (prev : option ascii) (s : string) :
  match_at reCloze prev s
  = run (lit "{{c")
      (run (plus digit)
         (run (lit "::") (run (RGroup 1 (lazy any)) after_front)))
      prev s [EmptyString; EmptyString].
Proof. reflexivity. Qed.

Lemma after_front_fail (p : option ascii) (b : ascii) (s : string) (c : caps) :
  Ascii.eqb ":" b = false -> Ascii.eqb "}" b = false ->
  after_front p (String b s) c = None.
Proof.
  intros N1 N2. unfold after_front.
  change (run (ROpt (RSeq (lit "::") (RGroup 2 (lazy any))))
            (run (lit "}}") accept) p (String b s) c)
    with (match run (lit "::") (run (RGroup 2 (lazy any))
                                  (run (lit "}}") accept)) p (String b s) c with
          | Some x => Some x
          | None => run (lit "}}") accept p (String b s) c
          end).
  now rewrite fail_colons, fail_close.
Qed.

Lemma after_front_close (p : option ascii) (rest : string) (c : caps) :
  after_front p ("}}" ++ rest) c = Some (rest, c).
Proof.
  unfold after_front.
  change (run (ROpt (RSeq (lit "::") (RGroup 2 (lazy any))))
            (run (lit "}}") accept) p ("}}" ++ rest) c)
    with (match run (lit "::") (run (RGroup 2 (lazy any))
                                  (run (lit "}}") accept)) p
                  (String "}" (String "}" rest)) c with
          | Some x => Some x
          | None => run (lit "}}") accept p ("}}" ++ rest) c
          end).
  rewrite fail_colons by reflexivity. now rewrite run_close.
Qed.

(** A byte of a first half that the lemmas below take: no colon, no
    closing brace. *)
Definition half_byte (c : ascii) : bool :=
  negb (Ascii.eqb ":" c) && negb (Ascii.eqb "}" c).

Definition no_close (c : ascii) : bool := negb (Ascii.eqb "}" c).

Lemma all_in_any (s : string) : all_in any s = true.
Proof. induction s; cbn [all_in]; auto. Qed.

Lemma all_in_split (p : ascii -> bool) (a a1 a2 : string) (b : ascii) :
  all_in p a = true -> a = a1 ++ String b a2 -> p b = true.
Proof.
  intros A ->. revert A. induction a1 as [|x a1 IH]; cbn [append all_in];
    intros A; apply andb_true_iff in A as [A1 A2]; auto.
Qed.

Lemma after_front_back (p : option ascii) (back rest : string)
  (ca cb : string) :
  all_in no_close back = true ->
  after_front p ("::" ++ back ++ "}}" ++ rest) [ca; cb]
  = Some (rest, [ca; back]).
Proof.
  intros B. unfold after_front.
  change (run (ROpt (RSeq (lit "::") (RGroup 2 (lazy any))))
            (run (lit "}}") accept) p ("::" ++ back ++ "}}" ++ rest) [ca; cb])
    with (match run (lit "::") (run (RGroup 2 (lazy any))
                                  (run (lit "}}") accept)) p
                  ("::" ++ back ++ "}}" ++ rest) [ca; cb] with
          | Some x => Some x
          | None => run (lit "}}") accept p ("::" ++ back ++ "}}" ++ rest)
                      [ca; cb]
          end).
  rewrite run_colons.
  change (run (RGroup 2 (lazy any)) (run (lit "}}") accept) (Some ":"%char)
            (back ++ "}}" ++ rest) [ca; cb])
    with (star_lazy any
            (fun prev' s' c' =>
               run (lit "}}") accept prev' s'
                 (set_cap 2
                    (take (String.length (back ++ "}}" ++ rest)
                           - String.length s') (back ++ "}}" ++ rest)) c'))
            (Some ":"%char) (back ++ "}}" ++ rest) [ca; cb]).
  rewrite star_lazy_skip.
  - rewrite (star_lazy_here _ _ _ _ _ (rest, [ca; back])); [reflexivity|].
    rewrite take_consumed, run_close. reflexivity.
  - apply all_in_any.
  - intros a1 b a2 E. apply fail_close.
    pose proof (all_in_split _ _ _ _ _ B E) as Nb. unfold no_close in Nb.
    now apply negb_true_iff in Nb.
Qed.

(** A marker with its two halves is matched where it starts, with the two
    halves for groups. *)
Lemma match_at_marker (prev : option ascii) (ds front tail rest : string)
  (back : string) :
  all_in digit ds = true -> ds <> EmptyString ->
  all_in half_byte front = true ->
  (forall p, after_front p (tail ++ rest) [front; EmptyString]
             = Some (rest, [front; back])) ->
  (exists b t, tail = String b t) ->
  match_at reCloze prev
    (("{{c" ++ ds ++ "::" ++ front ++ tail) ++ rest)
  = Some (rest, [front; back]).
Proof.
  intros D Dn F T (tb & tt & Et).
  rewrite match_at_reCloze, !str_app_assoc, run_open.
  destruct ds as [|d ds]; [congruence|].
  cbn [all_in] in D. apply andb_true_iff in D as [D1 D2].
  change (run (plus digit) ?k (Some "c"%char) (String d ds ++ ?t) ?c)
    with (if digit d then star_greedy digit k (Some d) (ds ++ t) c else None).
  rewrite D1.
  apply (star_greedy_all digit); [exact D2| |].
  { intros b [= <-]. reflexivity. }
  rewrite run_colons.
  change (run (RGroup 1 (lazy any)) after_front (Some ":"%char)
            (front ++ tail ++ rest) [EmptyString; EmptyString])
    with (star_lazy any
            (fun prev' s' c' =>
               after_front prev' s'
                 (set_cap 1
                    (take (String.length (front ++ tail ++ rest)
                           - String.length s') (front ++ tail ++ rest)) c'))
            (Some ":"%char) (front ++ tail ++ rest)
            [EmptyString; EmptyString]).
  rewrite star_lazy_skip.
  - apply star_lazy_here. rewrite take_consumed. cbn [set_cap]. apply T.
  - apply all_in_any.
  - intros a1 b a2 E.
    pose proof (all_in_split _ _ _ _ _ F E) as Hb. unfold half_byte in Hb.
    apply andb_true_iff in Hb as [H1 H2].
    apply negb_true_iff in H1, H2.
    rewrite <- str_app_assoc. apply after_front_fail; assumption.
Qed.

(** No match of reCloze starts at a byte that is no opening brace. *)
Lemma scan_no_open (pre s : string) :
  mem "{"%char pre = false ->
  forall prev,
    scan_go reCloze prev 0 (pre ++ s)
    = (keeps pre ++ scan_go reCloze (last_or prev pre) 0 s)%list.
Proof.
  induction pre as [|b pre IH]; intros M prev; [reflexivity|].
  cbn [mem] in M. apply orb_false_iff in M as [M1 M2].
  cbn [append]. rewrite scan_go_nomatch.
  - cbn [keeps app last_or]. now rewrite (IH M2).
  - rewrite match_at_reCloze. now apply fail_open.
Qed.

(** The scan of a markup that has one marker, and no opening brace
    elsewhere. *)
Lemma scan_marker (pre ds front tail post back : string) :
  mem "{"%char pre = false -> mem "{"%char post = false ->
  all_in digit ds = true -> ds <> EmptyString ->
  all_in half_byte front = true ->
  (forall p rest, after_front p (tail ++ rest) [front; EmptyString]
                  = Some (rest, [front; back])) ->
  (exists b t, tail = String b t) ->
  scan reCloze (pre ++ ("{{c" ++ ds ++ "::" ++ front ++ tail) ++ post)
  = (keeps pre
     ++ Hit [("{{c" ++ ds ++ "::" ++ front ++ tail)%string; front; back]
     :: keeps post)%list.
Proof.
  intros Mp Mq D Dn F T Nt. unfold scan.
  rewrite (scan_no_open _ _ Mp). f_equal.
  rewrite (scan_go_match reCloze _ _ post [front; back]).
  - f_equal. rewrite <- (str_app_nil_r post) at 1.
    rewrite (scan_no_open _ _ Mq). cbn [scan_go]. apply app_nil_r.
  - vm_compute. lia.
  - apply match_at_marker; auto.
Qed.

End MarkerFacts.

(** * Step 3: the cloze markers *)

Module Cloze.

Import Strings StringsFacts Html Regexp RegexpFacts ScanFacts PatternFacts
  Locality Main MarkerFacts.

(** The first string of the list that is not empty, the empty string when
    there is none. *)
Fixpoint first_nonempty (l : list string) : string :=
  match l with
  | [] => EmptyString
  | x :: l' => if is_empty x then first_nonempty l' else x
  end.

Lemma first_nonempty_app (l1 l2 : list string) :
  first_nonempty (l1 ++ l2)
  = if is_empty (first_nonempty l1) then first_nonempty l2
    else first_nonempty l1.
Proof.
  induction l1 as [|x l1 IH]; [reflexivity|].
  cbn [app first_nonempty]. destruct (is_empty x) eqn:E; [exact IH|].
  now rewrite E.
Qed.

(** The marker a match of reCloze is, and its two groups; the second group
    is empty when the marker has no second half. *)
Lemma cloze_hit (m : list string) :
  hit_of reCloze m ->
  exists open ds front back sep,
    m = [open ++ ds ++ "::" ++ front ++ sep ++ "}}"; front; back]
    /\ folds "{{c" open
    /\ all_in digit ds = true /\ ds <> EmptyString
    /\ ((sep = EmptyString /\ back = EmptyString) \/ sep = "::" ++ back).
Proof.
  intros (prev & a & rest & c & _ & -> & M).
  assert (N : ngroups reCloze = 2) by reflexivity.
  rewrite N in M. clear N. unfold reCloze, lazy in M.
  cbn [seq] in M. cbn [Matches] in M.
  destruct M as (open & a1 & c1 & -> & M1 & ds & a2 & c2 & -> & M2
                 & co & a3 & c3 & -> & M3 & front & a4 & c4 & -> & M4
                 & sep & a5 & c5 & -> & M5 & M6).
  apply Matches_lit in M1 as [F1 ->].
  apply Matches_plus in M2 as (D & Dn & ->).
  apply Matches_lit in M3 as [F3 ->].
  apply (Card.folds_plain "::") in F3; [subst co|reflexivity].
  destruct M4 as (c4' & [_ ->] & ->).
  apply Matches_lit in M6 as [F6 ->].
  apply (Card.folds_plain "}}") in F6; [subst a5|reflexivity].
  cbn [repeat set_cap] in M5.
  destruct M5 as [[-> ->]|(co & back & c6 & -> & M5 & c7 & [_ ->] & ->)].
  - exists open, ds, front, EmptyString, EmptyString. repeat split; auto.
  - apply Matches_lit in M5 as [F5 ->].
    apply (Card.folds_plain "::") in F5; [subst co|reflexivity].
    exists open, ds, front, back, ("::" ++ back). cbn [set_cap].
    repeat split; auto.
Qed.

Lemma escape_byte_no (x c : ascii) :
  mem x "<>" = true -> mem x (escape_byte c) = false.
Proof.
  intros X. unfold escape_byte.
  repeat match goal with
         | |- context [if ?b then _ else _] => destruct b eqn:?
         end;
    try (cbn [mem orb] in X |- *; apply orb_true_iff in X as [X|X];
         [|apply orb_true_iff in X as [X|X]; [|discriminate]];
         apply Ascii.eqb_eq in X; subst x; reflexivity).
  cbn [mem]. rewrite orb_false_r.
  destruct (Ascii.eqb x c) eqn:E; [|reflexivity].
  apply Ascii.eqb_eq in E. subst c.
  cbn [mem orb] in X. apply orb_true_iff in X as [X|X];
    [|apply orb_true_iff in X as [X|X]; [|discriminate]];
    apply Ascii.eqb_eq in X; subst x; discriminate.
Qed.

Lemma code_eqb (c : ascii) (n : nat) :
  n < 256 -> (code c =? n) = Ascii.eqb c (byte n).
Proof.
  intros L. unfold code, byte.
  destruct (Ascii.eqb_spec c (ascii_of_nat n)) as [->|N].
  - rewrite nat_ascii_embedding by exact L. apply Nat.eqb_refl.
  - apply Nat.eqb_neq. intros E. apply N.
    rewrite <- E. symmetry. apply ascii_nat_embedding.
Qed.

(** html.EscapeString, byte by byte. *)
Lemma EscapeString_cons (c : ascii) (s : string) :
  EscapeString (String c s)
  = (if Ascii.eqb c "&" then "&amp;"
     else if Ascii.eqb c "'" then "&#39;"
     else if Ascii.eqb c "<" then "&lt;"
     else if Ascii.eqb c ">" then "&gt;"
     else if Ascii.eqb c "034" then "&#34;"
     else String c EmptyString)
    ++ EscapeString s.
Proof.
  cbn [EscapeString]. f_equal. unfold escape_byte.
  rewrite !code_eqb by lia. reflexivity.
Qed.

(** What html.EscapeString writes has no angle bracket. *)
Lemma EscapeString_no (x : ascii) (s : string) :
  mem x "<>" = true -> mem x (EscapeString s) = false.
Proof.
  intros X. induction s as [|c s IH]; [reflexivity|].
  cbn [EscapeString]. rewrite BlankFacts.mem_app, IH.
  now rewrite (escape_byte_no _ _ X).
Qed.

Section WithDecoder.

Variable UnescapeString : string -> string.

(** What the function of step 3 writes for a marker of first half [front]. *)
Definition cloze_markup (color front : string) : string :=
  let plain := TrimSpace (stripTags UnescapeString front) in
  if is_empty plain then EmptyString
  else span_open color ++ EscapeString plain ++ "</span>".

(** The translation the function of step 3 takes from a marker of second
    half [back], the empty string when it takes none. *)
Definition cloze_candidate (back : string) : string :=
  if is_empty (TrimSpace back) then EmptyString
  else TrimSpace (stripTags UnescapeString back).

Lemma cloze_func_hit (color ja : string) (m : list string) :
  hit_of reCloze m ->
  cloze_func UnescapeString color ja (whole m)
  = (if is_empty ja then cloze_candidate (group 2 m) else ja,
     cloze_markup color (group 1 m)).
Proof.
  intros H. unfold cloze_func.
  rewrite (rematch reCloze m eq_refl H).
  destruct (cloze_hit m H) as (open & ds & front & back & sep & -> & _).
  cbn [List.length Nat.leb]. unfold group. cbn [nth].
  unfold cloze_candidate, cloze_markup.
  destruct (is_empty ja) eqn:E; [apply is_empty_true in E; subst ja|];
    cbn [andb];
    destruct (is_empty (TrimSpace back)); cbn [negb];
    destruct (is_empty (TrimSpace (stripTags UnescapeString front)));
    reflexivity.
Qed.

(** The captured variable and the markup after the function of step 3 has
    been called on the matches, in their order. *)
Lemma render_st_cloze (color : string) (ps : list piece) :
  Forall (hit_of reCloze) (hits ps) ->
  forall ja,
    render_st (cloze_func UnescapeString color) ja ps
    = (first_nonempty
         (ja :: map (fun m => cloze_candidate (group 2 m)) (hits ps)),
       render (fun m => cloze_markup color (group 1 m)) ps).
Proof.
  induction ps as [|[b|m] ps IH]; intros F ja.
  - cbn [render_st hits map first_nonempty render].
    destruct (is_empty ja) eqn:E; [apply is_empty_true in E; subst ja|];
      reflexivity.
  - cbn [render_st render hits] in *. now rewrite (IH F).
  - cbn [hits] in F. inversion F as [|? ? Hm F']. subst.
    cbn [render_st render hits map]. rewrite (cloze_func_hit _ _ _ Hm).
    rewrite (IH F'). f_equal.
    cbn [first_nonempty]. destruct (is_empty ja) eqn:E; [reflexivity|].
    now rewrite E.
Qed.

Lemma rewrite_cloze_eq (color ja h : string) :
  rewrite_cloze UnescapeString color ja h
  = (first_nonempty
       (ja :: map (fun m => cloze_candidate (group 2 m))
                (hits (scan reCloze h))),
     render (fun m => cloze_markup color (group 1 m)) (scan reCloze h)).
Proof. apply render_st_cloze, scan_hits. Qed.

(** The markup and the captured variable after step 3, for a markup that
    has one marker and no opening brace elsewhere. *)
Lemma rewrite_cloze_one (color ja pre ds front tail post back : string) :
  mem "{"%char pre = false -> mem "{"%char post = false ->
  all_in digit ds = true -> ds <> EmptyString ->
  all_in half_byte front = true ->
  (forall p rest, after_front p (tail ++ rest) [front; EmptyString]
                  = Some (rest, [front; back])) ->
  (exists b t, tail = String b t) ->
  rewrite_cloze UnescapeString color ja
    (pre ++ ("{{c" ++ ds ++ "::" ++ front ++ tail) ++ post)
  = (if is_empty ja && negb (is_empty (TrimSpace back))
     then TrimSpace (stripTags UnescapeString back) else ja,
     pre ++ cloze_markup color front ++ post).
Proof.
  intros Mp Mq D Dn F T Nt.
  rewrite rewrite_cloze_eq, (scan_marker pre ds front tail post back)
    by assumption.
  rewrite hits_app, hits_keeps, render_app, render_keeps.
  cbn [app hits map render first_nonempty]. rewrite hits_keeps, render_keeps.
  unfold group. cbn [nth map first_nonempty]. f_equal.
  unfold cloze_candidate.
  destruct (is_empty ja) eqn:Ej; cbn [andb]; [|reflexivity].
  apply is_empty_true in Ej. subst ja.
  destruct (is_empty (TrimSpace back)); cbn [negb is_empty]; [reflexivity|].
  destruct (is_empty (TrimSpace (stripTags UnescapeString back))) eqn:Et;
    [|reflexivity].
  apply is_empty_true in Et. now rewrite Et.
Qed.

(** C2.  Step 3 replaces every match of reCloze, and nothing else.  A match
    is a marker: two opening braces and the letter c, digits, two colons,
    the first half FRONT (group 1) and, when there is one, two colons and
    the second half BACK (group 2), then two closing braces.  With PLAIN
    the first half without its tags, decoded and trimmed, the marker is
    replaced by nothing when PLAIN is empty, and otherwise by one span whose
    style is the color given and whose content is PLAIN escaped, in which no
    angle bracket, so no tag, stands.  html.EscapeString writes a character
    reference for each of the five bytes [&], ['], [<], [>] and the double
    quote, and every other byte as it is.  And the markers are found: in a
    markup that has no opening brace but those of one marker, whose first
    half has no colon and no closing brace and whose second half, if any,
    has no closing brace, that marker is replaced, the rest of the markup
    stays, and the captured translation, when it is empty, takes the second
    half that is not white space. *)
Theorem rewrite_cloze_spec (color ja h : string) :
  snd (rewrite_cloze UnescapeString color ja h)
  = render (fun m => cloze_markup color (group 1 m)) (scan reCloze h)
  /\ h = render whole (scan reCloze h)
  /\ Forall
       (fun m =>
          exists open ds sep,
            whole m = open ++ ds ++ "::" ++ group 1 m ++ sep ++ "}}"
            /\ folds "{{c" open
            /\ all_in digit ds = true /\ ds <> EmptyString
            /\ ((sep = EmptyString /\ group 2 m = EmptyString)
                \/ sep = "::" ++ group 2 m))
       (hits (scan reCloze h))
  /\ (forall front,
         let plain := TrimSpace (stripTags UnescapeString front) in
         (plain = EmptyString -> cloze_markup color front = EmptyString)
         /\ (plain <> EmptyString ->
             cloze_markup color front
             = "<span style=" ++ dq ++ "color:" ++ color ++ ";" ++ dq ++ ">"
               ++ EscapeString plain ++ "</span>"))
  /\ (forall s,
         mem "<"%char (EscapeString s) = false
         /\ mem ">"%char (EscapeString s) = false)
  /\ EscapeString EmptyString = EmptyString
  /\ (forall c s,
         EscapeString (String c s)
         = (if Ascii.eqb c "&" then "&amp;"
            else if Ascii.eqb c "'" then "&#39;"
            else if Ascii.eqb c "<" then "&lt;"
            else if Ascii.eqb c ">" then "&gt;"
            else if Ascii.eqb c "034" then "&#34;"
            else String c EmptyString)
           ++ EscapeString s)
  /\ (forall pre ds front post,
         mem "{"%char pre = false -> mem "{"%char post = false ->
         all_in digit ds = true -> ds <> EmptyString ->
         all_in half_byte front = true ->
         rewrite_cloze UnescapeString color ja
           (pre ++ "{{c" ++ ds ++ "::" ++ front ++ "}}" ++ post)
         = (ja, pre ++ cloze_markup color front ++ post))
  /\ (forall pre ds front back post,
         mem "{"%char pre = false -> mem "{"%char post = false ->
         all_in digit ds = true -> ds <> EmptyString ->
         all_in half_byte front = true ->
         all_in no_close back = true ->
         rewrite_cloze UnescapeString color ja
           (pre ++ "{{c" ++ ds ++ "::" ++ front ++ "::" ++ back ++ "}}"
            ++ post)
         = (if is_empty ja && negb (is_empty (TrimSpace back))
            then TrimSpace (stripTags UnescapeString back) else ja,
            pre ++ cloze_markup color front ++ post)).
Proof.
  split; [now rewrite rewrite_cloze_eq|]. split.
  { symmetry. apply render_whole_scan. vm_compute. lia. }
  split; [|split; [|split; [|split; [reflexivity|split;
          [apply EscapeString_cons|split]]]]].
  - eapply Forall_impl; [|apply (scan_hits reCloze h)].
    intros m H. apply cloze_hit in H.
    destruct H as (open & ds & front & back & sep & -> & F & D & Dn & S).
    exists open, ds, sep. unfold whole, group. cbn [nth]. auto.
  - intros front plain. unfold cloze_markup. fold plain. split.
    + intros ->. reflexivity.
    + intros N. apply is_empty_false in N. rewrite N.
      unfold span_open. now rewrite !str_app_assoc.
  - intros s. split; now apply EscapeString_no.
  - intros pre ds front post Mp Mq D Dn F.
    pose proof (rewrite_cloze_one color ja pre ds front "}}" post EmptyString
                  Mp Mq D Dn F) as R.
    rewrite !str_app_assoc in R. cbn [TrimSpace TrimLeftSpace TrimRightSpace
                                        is_empty negb andb] in R.
    rewrite andb_false_r in R. apply R.
    + intros p rest. apply after_front_close.
    + do 2 eexists. reflexivity.
  - intros pre ds front back post Mp Mq D Dn F B.
    pose proof (rewrite_cloze_one color ja pre ds front
                  ("::" ++ back ++ "}}") post back Mp Mq D Dn F) as R.
    rewrite !str_app_assoc in R. apply R.
    + intros p rest. rewrite !str_app_assoc. now apply after_front_back.
    + do 2 eexists. reflexivity.
Qed.

End WithDecoder.

(** A marker with tags and an ampersand in its first half, and a second
    half. *)
Definition marked_text : string := "a {{c12::<b>x & y</b>::<i>z</i>}} b".

Lemma rewrite_cloze_witness :
  rewrite_cloze Decoder.UnescapeBasic "red" EmptyString marked_text
  = ("z",
     "a <span style=" ++ dq ++ "color:red;" ++ dq ++ ">x &amp; y</span> b").
Proof.
  destruct (rewrite_cloze_spec Decoder.UnescapeBasic "red" EmptyString
              EmptyString) as (_ & _ & _ & _ & _ & _ & _ & _ & R).
  exact (R "a " "12" "<b>x & y</b>" "<i>z</i>" " b"
           eq_refl eq_refl eq_refl ltac:(discriminate) eq_refl eq_refl).
Defined.

End Cloze.

(** * Step 2: the translation *)

Module Translation.

Import Strings StringsFacts Html Regexp RegexpFacts ScanFacts PatternFacts
  Locality Main UnwrapFacts Cloze.

(** The bytes of the subject that stand in no match. *)
Fixpoint kept (ps : list piece) : string :=
  match ps with
  | [] => EmptyString
  | Keep b :: ps' => String b (kept ps')
  | Hit _ :: ps' => kept ps'
  end.

Lemma render_erase (ps : list piece) : render (expand []) ps = kept ps.
Proof.
  induction ps as [|[b|m] ps IH]; simpl; [reflexivity|f_equal; exact IH|exact IH].
Qed.

Lemma kept_app (l1 l2 : list piece) : kept (l1 ++ l2)%list = kept l1 ++ kept l2.
Proof.
  induction l1 as [|[b|m] l1 IH]; simpl; [reflexivity|now rewrite IH|exact IH].
Qed.

Lemma kept_keeps (s : string) : kept (keeps s) = s.
Proof. induction s; cbn [keeps kept]; congruence. Qed.

(** FindStringSubmatch gives the first match of the scan. *)
Lemma find_from_head (r : regex) (s : string) :
  0 < min_len r ->
  forall prev, find_from r prev s = hd [] (hits (scan_go r prev 0 s)).
Proof.
  intros L. induction s as [|b s IH]; intros prev.
  - cbn [find_from scan_go hits hd].
    destruct (match_at r prev EmptyString) as [x|] eqn:M; [|reflexivity].
    pose proof (match_at_nonempty _ _ _ _ L M) as N. simpl in N. lia.
  - cbn [find_from scan_go].
    destruct (match_at r prev (String b s)) as [x|] eqn:M; [reflexivity|].
    cbn [hits]. apply IH.
Qed.

(** The opening tag of a translation line: the word div, the attribute class
    whose value starts with dc-line and dc-translation, and nothing else. *)
Definition trans_open (o : string) : Prop :=
  exists tag ws1 kw ws2 tok more ws3,
    o = tag ++ ws1 ++ kw ++ ws2 ++ tok ++ more ++ dq ++ ws3 ++ ">"
    /\ folds "<div" tag
    /\ all_in space ws1 = true /\ ws1 <> EmptyString
    /\ folds ("class=" ++ dq ++ "dc-line") kw
    /\ all_in space ws2 = true /\ ws2 <> EmptyString
    /\ folds "dc-translation" tok
    /\ all_in not_dq more = true
    /\ all_in space ws3 = true.

(** A match of reTransDiv: the opening tag, the content (group 1), which
    ends at the first closing div tag, and that closing tag. *)
Lemma trans_hit (m : list string) :
  hit_of reTransDiv m ->
  exists open inner close,
    m = [open ++ inner ++ close; inner]
    /\ trans_open open /\ folds "</div>" close.
Proof.
  intros (prev & a & rest & c & _ & -> & M).
  assert (N : ngroups reTransDiv = 1) by reflexivity.
  rewrite N in M. clear N. unfold reTransDiv, star, lazy in M.
  cbn [seq] in M. cbn [Matches] in M.
  destruct M as (tag & a1 & c1 & -> & M1 & ws1 & a2 & c2 & -> & M2
                 & kw & a3 & c3 & -> & M3 & ws2 & a4 & c4 & -> & M4
                 & tok & a5 & c5 & -> & M5 & more & a6 & c6 & -> & [M6 ->]
                 & q & a7 & c7 & -> & M7 & ws3 & a8 & c8 & -> & [M8 ->]
                 & gt & a9 & c9 & -> & M9 & inner & close & c10 & -> & M10
                 & M11).
  apply Matches_lit in M1 as [F1 ->].
  apply Matches_plus in M2 as (W1 & N1 & ->).
  apply Matches_lit in M3 as [F3 ->].
  apply Matches_plus in M4 as (W2 & N2 & ->).
  apply Matches_lit in M5 as [F5 ->].
  apply Matches_lit in M7 as [F7 ->].
  apply (Card.folds_plain dq) in F7; [subst q|reflexivity].
  apply Matches_lit in M9 as [F9 ->].
  apply (Card.folds_plain ">") in F9; [subst gt|reflexivity].
  destruct M10 as (c' & [_ ->] & ->).
  apply Matches_lit in M11 as [F11 ->].
  exists (tag ++ ws1 ++ kw ++ ws2 ++ tok ++ more ++ dq ++ ws3 ++ ">"),
    inner, close.
  split; [|split; [|assumption]].
  - cbn [repeat set_cap]. now rewrite !str_app_assoc.
  - exists tag, ws1, kw, ws2, tok, more, ws3. repeat split; auto.
Qed.

Lemma first_nonempty_single (x : string) : first_nonempty [x] = x.
Proof.
  cbn [first_nonempty]. destruct (is_empty x) eqn:E; [|reflexivity].
  apply is_empty_true in E. now subst.
Qed.

Lemma first_nonempty_flat (l1 l2 : list string) :
  first_nonempty (first_nonempty l1 :: l2) = first_nonempty (l1 ++ l2).
Proof. now rewrite first_nonempty_app. Qed.

Section WithDecoder.

Variable UnescapeString : string -> string.

(** The translation a container of content [inner] gives. *)
Definition candidate (inner : string) : string :=
  TrimSpace (stripTags UnescapeString inner).

(** The candidate of the translation line, and that of the first element of
    class dc-translation; the empty string when there is no match. *)
Definition explicit_candidate (h : string) : string :=
  let m := FindStringSubmatch reTransDiv h in
  if 2 <=? List.length m then candidate (group 1 m) else EmptyString.

Definition any_candidate (h : string) : string :=
  let m := FindStringSubmatch reAnyTranslation h in
  if 2 <=? List.length m then candidate (group 1 m) else EmptyString.

Lemma min_len_reTransDiv : 0 < min_len reTransDiv.
Proof. vm_compute. lia. Qed.

(** Step 2 on the markup [h]. *)
Lemma extract_translation_eq (h : string) :
  extract_translation UnescapeString h
  = (first_nonempty
       [explicit_candidate h; any_candidate (kept (scan reTransDiv h))],
     kept (scan reTransDiv h)).
Proof.
  unfold extract_translation, explicit_candidate, any_candidate, candidate.
  destruct (FindStringSubmatch reTransDiv h) as [|a c] eqn:F.
  - rewrite (no_match_scan _ _ F), kept_keeps.
    cbn [List.length Nat.leb is_empty first_nonempty].
    f_equal. symmetry. apply first_nonempty_single.
  - destruct (find_from_first reTransDiv h min_len_reTransDiv None (a :: c) F)
      as (pre & post & _ & H & _); [discriminate|].
    destruct (trans_hit _ H) as (open & inner & close & E & _).
    rewrite E. cbn [List.length Nat.leb].
    unfold ReplaceAllString. rewrite render_erase. f_equal.
    remember (TrimSpace (stripTags UnescapeString
                           (group 1 [open ++ inner ++ close; inner])))
      as cand eqn:Ec.
    clear Ec. cbn [first_nonempty].
    destruct (is_empty cand) eqn:Em; [|reflexivity].
    apply is_empty_true in Em. subst cand.
    symmetry. apply first_nonempty_single.
Qed.

(** The candidates of the translation, in the order in which [transform]
    consults them: the translation line, the first element of class
    dc-translation of the markup without the translation lines, the second
    halves of the markers of that markup. *)
Definition candidates (h : string) : list string :=
  let h1 := strip_style h in
  let h2 := kept (scan reTransDiv h1) in
  explicit_candidate h1 :: any_candidate h2
  :: map (fun m => cloze_candidate UnescapeString (group 2 m))
       (hits (scan reCloze h2)).

(** The translation [transform] returns. *)
Lemma transform_translation (h sound color : string) :
  exists out,
    transform UnescapeString h sound color
    = Some (out, first_nonempty (candidates h)).
Proof.
  unfold transform, candidates. rewrite extract_translation_eq.
  rewrite rewrite_cloze_eq.
  destruct (unwrap_total
              (render (fun m => cloze_markup UnescapeString color (group 1 m))
                 (scan reCloze (kept (scan reTransDiv (strip_style h))))))
    as (h' & R & _).
  rewrite R. eexists. f_equal. f_equal.
  apply (first_nonempty_flat [_; _]).
Qed.

End WithDecoder.

End Translation.

(** * The claims about the translation *)

Module TranslationClaims.

Import Strings StringsFacts Html Regexp RegexpFacts ScanFacts PatternFacts
  Locality Main UnwrapFacts Cloze Translation.

(** The pieces up to the first match. *)
Lemma hits_split (ps : list piece) (m : list string) (l : list (list string)) :
  hits ps = m :: l ->
  exists pre tail, ps = (keeps pre ++ Hit m :: tail)%list /\ hits tail = l.
Proof.
  induction ps as [|[b|m'] ps IH]; intros H; [discriminate| |].
  - destruct (IH H) as (pre & tail & -> & E).
    exists (String b pre), tail. auto.
  - cbn [hits] in H. injection H as -> <-.
    exists EmptyString, ps. auto.
Qed.

Lemma first_nonempty_head (x : string) (l : list string) :
  x <> EmptyString -> first_nonempty (x :: l) = x.
Proof. intros N. apply is_empty_false in N. cbn [first_nonempty]. now rewrite N. Qed.

Lemma first_nonempty_skip (x : string) (l : list string) :
  x = EmptyString -> first_nonempty (x :: l) = first_nonempty l.
Proof. intros ->. reflexivity. Qed.

Section WithDecoder.

Variable UnescapeString : string -> string.

Lemma explicit_candidate_hit (h : string) (m : list string) :
  FindStringSubmatch reTransDiv h = m -> hit_of reTransDiv m ->
  explicit_candidate UnescapeString h = candidate UnescapeString (group 1 m).
Proof.
  intros F H. unfold explicit_candidate. rewrite F.
  destruct (trans_hit _ H) as (open & inner & close & -> & _). reflexivity.
Qed.



(** C9, as the code has it.  When the markup without its style blocks has
    two matches of reTransDiv or more, FindStringSubmatch gives the first
    one, and the candidate of the translation line is its content; the
    markup the later steps work on has none of the bytes of the matches.
    When that candidate is not empty it is the translation [transform]
    returns; when it is empty, the translation comes from the candidates
    of the remaining markup. *)
Theorem first_container_wins (h sound color : string) (m1 m2 : list string)
  (more : list (list string)) :
  hits (scan reTransDiv (strip_style h)) = m1 :: m2 :: more ->
  FindStringSubmatch reTransDiv (strip_style h) = m1
  /\ explicit_candidate UnescapeString (strip_style h)
     = candidate UnescapeString (group 1 m1)
  /\ (exists p0 p1 tail,
         scan reTransDiv (strip_style h)
         = (keeps p0 ++ Hit m1 :: keeps p1 ++ Hit m2 :: tail)%list
         /\ strip_style h
            = p0 ++ whole m1 ++ p1 ++ whole m2 ++ render whole tail
         /\ snd (extract_translation UnescapeString (strip_style h))
            = p0 ++ p1 ++ kept tail)
  /\ (candidate UnescapeString (group 1 m1) <> EmptyString ->
      exists out,
        transform UnescapeString h sound color
        = Some (out, candidate UnescapeString (group 1 m1)))
  /\ (candidate UnescapeString (group 1 m1) = EmptyString ->
      let h2 := snd (extract_translation UnescapeString (strip_style h)) in
      exists out,
        transform UnescapeString h sound color
        = Some (out,
                first_nonempty
                  (any_candidate UnescapeString h2
                   :: map (fun g => cloze_candidate UnescapeString (group 2 g))
                        (hits (scan reCloze h2))))).
Proof.
  intros Hh.
  assert (F : FindStringSubmatch reTransDiv (strip_style h) = m1).
  { unfold FindStringSubmatch.
    rewrite (find_from_head _ _ min_len_reTransDiv).
    fold (scan reTransDiv (strip_style h)). now rewrite Hh. }
  assert (H : hit_of reTransDiv m1).
  { pose proof (scan_hits reTransDiv (strip_style h)) as A.
    rewrite Hh in A. now inversion A. }
  pose proof (explicit_candidate_hit _ _ F H) as X.
  destruct (transform_translation UnescapeString h sound color) as (out & T).
  unfold candidates in T. rewrite X in T.
  split; [exact F|]. split; [exact X|]. split; [|split].
  - destruct (hits_split _ _ _ Hh) as (p0 & t0 & E0 & H0).
    destruct (hits_split _ _ _ H0) as (p1 & tail & -> & _).
    exists p0, p1, tail. split; [exact E0|]. split.
    + rewrite <- (render_whole_scan reTransDiv (strip_style h)
                    min_len_reTransDiv None).
      fold (scan reTransDiv (strip_style h)). rewrite E0.
      rewrite render_app, render_keeps. cbn [render].
      now rewrite render_app, render_keeps.
    + rewrite extract_translation_eq. cbn [snd]. rewrite E0.
      rewrite kept_app, kept_keeps. cbn [kept].
      now rewrite kept_app, kept_keeps.
  - intros P. exists out. now rewrite T, (first_nonempty_head _ _ P).
  - intros P h2. exists out. rewrite T, (first_nonempty_skip _ _ P).
    unfold h2. now rewrite extract_translation_eq.
Qed.

End WithDecoder.

(** ** On markups *)

Definition translation_open : string :=
  "<div class=" ++ dq ++ "dc-line dc-translation" ++ dq ++ ">".






(** Two translation lines with content, and a marker. *)
Definition two_lines : string :=
  translation_open ++ "<b>A</b> </div>x" ++ translation_open ++ "B</div>"
  ++ "{{c1::a::Z}}".

Lemma first_container_witness :
  hits (scan reTransDiv (strip_style two_lines))
  = [[translation_open ++ "<b>A</b> </div>"; "<b>A</b> "];
     [translation_open ++ "B</div>"; "B"]]
  /\ snd (extract_translation Decoder.UnescapeBasic (strip_style two_lines))
     = "x{{c1::a::Z}}"
  /\ exists out,
       transform Decoder.UnescapeBasic two_lines EmptyString "red"
       = Some (out, "A").
Proof.
  split; [reflexivity|]. split; [reflexivity|].
  destruct (first_container_wins Decoder.UnescapeBasic two_lines
              EmptyString "red"
              [translation_open ++ "<b>A</b> </div>"; "<b>A</b> "]
              [translation_open ++ "B</div>"; "B"] [] eq_refl)
    as (_ & _ & _ & T & _).
  apply T. vm_compute. discriminate.
Defined.

(** Two translation lines, the first one blank, and a marker: the
    translation is the second half of the marker. *)
Definition blank_first_line : string :=
  translation_open ++ " </div>" ++ translation_open ++ "B</div>"
  ++ "{{c1::a::Z}}".

Lemma empty_first_container :
  hits (scan reTransDiv (strip_style blank_first_line))
  = [[translation_open ++ " </div>"; " "];
     [translation_open ++ "B</div>"; "B"]]
  /\ candidate Decoder.UnescapeBasic " " = EmptyString
  /\ transform Decoder.UnescapeBasic blank_first_line EmptyString "red"
     = Some ("<span style=" ++ dq ++ "color:red;" ++ dq ++ ">a</span>", "Z").
Proof. vm_compute. repeat split. Qed.

(** The order of the candidates, on a markup whose element of class
    dc-translation is blank, whose first marker has a blank second half and
    whose second marker has one with a tag. *)
Definition blank_sources : string :=
  "<p class=" ++ dq ++ "dc-translation" ++ dq ++ "> </p>"
  ++ "{{c1::a:: }}{{c2::b::<i>Y</i>}}{{c3::c::Z}}".

Example candidates_in_order :
  candidates Decoder.UnescapeBasic blank_sources
  = [EmptyString; EmptyString; EmptyString; "Y"; "Z"]
  /\ exists out,
       transform Decoder.UnescapeBasic blank_sources EmptyString "red"
       = Some (out, "Y").
Proof. split; [reflexivity|]. eexists. vm_compute. reflexivity. Qed.





End TranslationClaims.

(** * Further properties of transform *)

(** ** What the loop of step 3.5 leaves *)

Module UnwrapMore.

Import Strings StringsFacts Regexp RegexpFacts ScanFacts GroupFacts Main
  UnwrapFacts StepFacts.

(** A replacement by group 1 that changes nothing had nothing to replace. *)
Lemma group_fixed_no_match (r : regex) (s : string) :
  0 < outside 1 r ->
  ReplaceAllString r s [TGroup 1] = s ->
  FindStringSubmatch r s = [].
Proof.
  intros O E.
  assert (L : 0 < min_len r) by (pose proof (outside_le_min_len 1 r); lia).
  unfold FindStringSubmatch. rewrite (Translation.find_from_head r s L None).
  fold (scan r s).
  assert (F : Forall (fun m => String.length (expand [TGroup 1] m)
                               < String.length (whole m)) (hits (scan r s))).
  { eapply Forall_impl; [|apply (scan_hits r s)]. intros m Hm. cbn [expand].
    rewrite str_app_nil_r. now apply (group_shorter r). }
  destruct (render_shorter _ _ F) as [[H _]|Lt].
  - now rewrite H.
  - pose proof (render_whole_scan r s L None) as W. fold (scan r s) in W.
    unfold ReplaceAllString in E. rewrite E, W in Lt. lia.
Qed.

Lemma unwrap_round_fixed (h : string) :
  unwrap_round h = h ->
  FindStringSubmatch reUnwrapDown h = []
  /\ FindStringSubmatch reUnwrapGap h = [].
Proof.
  unfold unwrap_round. intros E.
  destruct (ReplaceAllString_group_shrinks reUnwrapDown 0 h outside_reUnwrapDown)
    as [E1|L1].
  - rewrite E1 in E. split; apply group_fixed_no_match; auto.
    + apply outside_reUnwrapDown.
    + apply outside_reUnwrapGap.
  - destruct (ReplaceAllString_group_shrinks reUnwrapGap 0
                (ReplaceAllString reUnwrapDown h [TGroup 1]) outside_reUnwrapGap)
      as [E2|L2].
    + rewrite E2 in E. rewrite E in L1. lia.
    + rewrite E in L2. lia.
Qed.

(** The loop of step 3.5 returns a markup in which neither pattern matches
    any more, and which is no longer than the markup it was given; it
    returns the markup as it is exactly when neither pattern matches in
    it. *)
Theorem unwrap_leaves_no_span (h : string) :
  exists h',
    unwrap h = Some h'
    /\ FindStringSubmatch reUnwrapDown h' = []
    /\ FindStringSubmatch reUnwrapGap h' = []
    /\ String.length h' <= String.length h
    /\ (h' = h <->
        FindStringSubmatch reUnwrapDown h = []
        /\ FindStringSubmatch reUnwrapGap h = []).
Proof.
  destruct (unwrap_loop_total (S (String.length h)) h) as (h' & R & F & Le);
    [lia|].
  exists h'. fold (unwrap h) in R.
  destruct (unwrap_round_fixed _ F) as [D G].
  split; [exact R|]. split; [exact D|]. split; [exact G|].
  split; [exact Le|]. split.
  - intros ->. split; assumption.
  - intros [D' G']. pose proof (no_match_unwrap _ D' G') as R'. congruence.
Qed.

End UnwrapMore.

(** ** What stripTags removes *)

Module StripMore.

Import Strings StringsFacts RegexpFacts Main.

(** The first [k] bytes of [s] are continuation bytes. *)
Fixpoint conts (k : nat) (s : string) : bool :=
  match k with
  | O => true
  | S k' =>
      match s with
      | EmptyString => false
      | String c s' => Utf8.cont c && conts k' s'
      end
  end.

(** A well-formed rune of [w] bytes is a first byte and [w - 1] continuation
    bytes. *)
Lemma rune_size_conts (b : ascii) (s : string) (w : nat) :
  Utf8.rune_size (String b s) = Some w -> conts (w - 1) s = true.
Proof.
  unfold Utf8.rune_size.
  destruct (code b <? 128); [intros [= <-]; reflexivity|].
  destruct s as [|b1 s]; [discriminate|].
  destruct (Utf8.between 194 223 b).
  { destruct (Utf8.cont b1) eqn:C1; [|discriminate].
    intros [= <-]. cbn [Nat.sub conts]. now rewrite C1. }
  destruct s as [|b2 s]; [discriminate|].
  destruct (Utf8.between 224 239 b).
  { match goal with
    | |- (if ?x && _ then _ else _) = _ -> _ => assert (S3 : x = true -> Utf8.cont b1 = true)
    end.
    { destruct (code b =? 224); [unfold Utf8.cont, Utf8.between; intros H;
        apply andb_true_iff in H as [H1 H2]; apply Nat.leb_le in H1, H2;
        apply andb_true_iff; split; apply Nat.leb_le; lia|].
      destruct (code b =? 237); [unfold Utf8.cont, Utf8.between; intros H;
        apply andb_true_iff in H as [H1 H2]; apply Nat.leb_le in H1, H2;
        apply andb_true_iff; split; apply Nat.leb_le; lia|].
      intros H. now apply andb_true_iff in H as [_ H]. }
    match goal with
    | |- (if ?x && ?y then _ else _) = _ -> _ =>
        destruct x; [|discriminate]; destruct y eqn:C2; [|discriminate]
    end.
    intros [= <-]. cbn [Nat.sub conts]. now rewrite (S3 eq_refl), C2. }
  destruct s as [|b3 s]; [discriminate|].
  match goal with
  | |- (if _ && ?x && _ && _ then _ else _) = _ -> _ =>
      assert (S4 : x = true -> Utf8.cont b1 = true)
  end.
  { destruct (code b =? 240); [unfold Utf8.cont, Utf8.between; intros H;
      apply andb_true_iff in H as [H1 H2]; apply Nat.leb_le in H1, H2;
      apply andb_true_iff; split; apply Nat.leb_le; lia|].
    destruct (code b =? 244); [unfold Utf8.cont, Utf8.between; intros H;
      apply andb_true_iff in H as [H1 H2]; apply Nat.leb_le in H1, H2;
      apply andb_true_iff; split; apply Nat.leb_le; lia|].
    intros H. now apply andb_true_iff in H as [_ H]. }
  match goal with
  | |- (if ?a && ?x && ?y && ?z then _ else _) = _ -> _ =>
      destruct a; [|discriminate]; destruct x; [|discriminate];
      destruct y eqn:C2; [|discriminate]; destruct z eqn:C3; [|discriminate]
  end.
  intros [= <-]. cbn [Nat.sub conts]. now rewrite (S4 eq_refl), C2, C3.
Qed.

Lemma cont_no_bracket (c : ascii) :
  Utf8.cont c = true -> mem c "<>" = false.
Proof.
  unfold Utf8.cont, Utf8.between. intros H.
  apply andb_true_iff in H as [H _]. apply Nat.leb_le in H.
  cbn [mem]. rewrite orb_false_r. apply orb_false_iff.
  split; apply Ascii.eqb_neq; intros ->; vm_compute in H; lia.
Qed.

(** The loop of stripTags writes no angle bracket. *)
Lemma strip_go_no_bracket (x : ascii) (s : string) :
  mem x "<>" = true ->
  forall inTag k, conts k s = true -> mem x (strip_go inTag k s) = false.
Proof.
  intros X. induction s as [|b s IH]; intros inTag k C; [reflexivity|].
  cbn [strip_go]. destruct k as [|k].
  - destruct (Ascii.eqb b "<"%char) eqn:E1; [now apply IH|].
    destruct (Ascii.eqb b ">"%char) eqn:E2; [now apply IH|].
    assert (Nb : mem x (String b EmptyString) = false).
    { cbn [mem] in X |- *. rewrite orb_false_r in *.
      apply orb_true_iff in X as [X|X]; apply Ascii.eqb_eq in X; subst x;
        rewrite Ascii.eqb_sym; assumption. }
    destruct (Utf8.rune_size (String b s)) as [w|] eqn:R.
    + pose proof (IH inTag (w - 1) (rune_size_conts _ _ _ R)) as I.
      destruct inTag; [exact I|]. now rewrite BlankFacts.mem_app, Nb, I.
    + pose proof (IH inTag 0 eq_refl) as I.
      destruct inTag; [exact I|]. rewrite BlankFacts.mem_app, I.
      cbn [mem] in X. rewrite orb_false_r in X.
      apply orb_true_iff in X as [X|X]; apply Ascii.eqb_eq in X; subst x;
        reflexivity.
  - cbn [conts] in C. apply andb_true_iff in C as [C1 C2].
    pose proof (IH inTag k C2) as I.
    destruct inTag; [exact I|]. rewrite BlankFacts.mem_app, I.
    cbn [mem] in X |- *. rewrite orb_false_r in *.
    pose proof (cont_no_bracket _ C1) as Nb. cbn [mem] in Nb.
    rewrite orb_false_r in Nb. apply orb_false_iff in Nb as [N1 N2].
    apply orb_true_iff in X as [X|X]; apply Ascii.eqb_eq in X; subst x;
      rewrite Ascii.eqb_sym; rewrite ?N1, ?N2; reflexivity.
Qed.

(** A byte of plain text: ASCII, and no angle bracket. *)
Definition text_byte (c : ascii) : bool :=
  (code c <? 128) && negb (Ascii.eqb c "<"%char) && negb (Ascii.eqb c ">"%char).

Lemma strip_go_text (a rest : string) :
  all_in text_byte a = true ->
  strip_go false 0 (a ++ rest) = a ++ strip_go false 0 rest.
Proof.
  induction a as [|b a IH]; intros T; [reflexivity|].
  cbn [all_in] in T. apply andb_true_iff in T as [Tb Ta].
  unfold text_byte in Tb. apply andb_true_iff in Tb as [Tb T3].
  apply andb_true_iff in Tb as [T1 T2].
  apply negb_true_iff in T2, T3.
  cbn [append strip_go]. rewrite T2, T3.
  cbn [Utf8.rune_size]. rewrite T1. cbn [Nat.sub append].
  now rewrite (IH Ta).
Qed.

(** Inside a tag: nothing is written up to the closing bracket. *)
Lemma strip_go_in_tag (t rest : string) :
  mem ">"%char t = false ->
  forall k,
    conts k (t ++ ">" ++ rest) = true ->
    strip_go true k (t ++ ">" ++ rest) = strip_go false 0 rest.
Proof.
  induction t as [|b t IH]; intros M k C.
  - destruct k; [reflexivity|discriminate].
  - cbn [mem] in M. apply orb_false_iff in M as [M1 M2].
    specialize (IH M2).
    change (String b t ++ ">" ++ rest) with (String b (t ++ ">" ++ rest)) in *.
    remember (t ++ ">" ++ rest) as u eqn:Eu. clear Eu.
    cbn [strip_go]. destruct k as [|k].
    + destruct (Ascii.eqb b "<"%char); [now apply IH|].
      rewrite Ascii.eqb_sym, M1.
      destruct (Utf8.rune_size (String b u)) as [w|] eqn:R.
      * apply IH. apply (rune_size_conts _ _ _ R).
      * now apply IH.
    + cbn [conts] in C. apply andb_true_iff in C as [_ C].
      now apply IH.
Qed.

(** Inside a tag that is not closed: nothing is written. *)
Lemma strip_go_unclosed (t : string) :
  mem ">"%char t = false -> forall k, strip_go true k t = EmptyString.
Proof.
  induction t as [|b t IH]; intros M k; [reflexivity|].
  cbn [mem] in M. apply orb_false_iff in M as [M1 M2].
  cbn [strip_go]. destruct k as [|k]; [|now apply IH].
  destruct (Ascii.eqb b "<"%char); [now apply IH|].
  rewrite Ascii.eqb_sym, M1.
  destruct (Utf8.rune_size (String b t)); now apply IH.
Qed.

Section WithDecoder.

Variable UnescapeString : string -> string.

(** What stripTags gives to html.UnescapeString has no angle bracket: every
    [<] and every [>] of the text is dropped, in a tag or not. *)
Theorem stripTags_no_bracket (s : string) :
  stripTags UnescapeString s
  = TrimSpace (UnescapeString (strip_go false 0 s))
  /\ mem "<"%char (strip_go false 0 s) = false
  /\ mem ">"%char (strip_go false 0 s) = false.
Proof.
  split; [reflexivity|].
  split; apply strip_go_no_bracket; reflexivity.
Qed.

(** After plain text, a tag [<t>] is dropped whatever its bytes are:
    stripTags gives what it gives without the tag. *)
Theorem stripTags_drops_tag (a t rest : string) :
  all_in text_byte a = true ->
  mem ">"%char t = false ->
  stripTags UnescapeString (a ++ "<" ++ t ++ ">" ++ rest)
  = stripTags UnescapeString (a ++ rest).
Proof.
  intros A T. unfold stripTags. rewrite !(strip_go_text _ _ A).
  do 3 f_equal. change ("<" ++ t ++ ">" ++ rest) with (String "<" (t ++ ">" ++ rest)).
  cbn [strip_go Ascii.eqb Bool.eqb]. now apply strip_go_in_tag.
Qed.

(** A tag that is opened and never closed takes the rest of the text with
    it. *)
Theorem stripTags_unclosed_tag (a t : string) :
  all_in text_byte a = true ->
  mem ">"%char t = false ->
  stripTags UnescapeString (a ++ "<" ++ t) = stripTags UnescapeString a.
Proof.
  intros A T. unfold stripTags.
  rewrite (strip_go_text _ _ A).
  rewrite <- (str_app_nil_r a) at 2. rewrite (strip_go_text _ _ A).
  do 3 f_equal. change ("<" ++ t) with (String "<" t).
  cbn [strip_go Ascii.eqb Bool.eqb]. now apply strip_go_unclosed.
Qed.

End WithDecoder.

Lemma stripTags_drops_tag_witness :
  all_in text_byte "a &amp; " = true
  /\ mem ">"%char "b class=x" = false
  /\ stripTags Decoder.UnescapeBasic "a &amp; <b class=x>b</b> c"
     = stripTags Decoder.UnescapeBasic "a &amp; b</b> c".
Proof.
  split; [reflexivity|]. split; [reflexivity|].
  exact (stripTags_drops_tag Decoder.UnescapeBasic "a &amp; " "b class=x"
           "b</b> c" eq_refl eq_refl).
Defined.

Lemma stripTags_unclosed_tag_witness :
  all_in text_byte "Hello " = true
  /\ mem ">"%char "b World" = false
  /\ stripTags Decoder.UnescapeBasic "Hello <b World"
     = stripTags Decoder.UnescapeBasic "Hello ".
Proof.
  split; [reflexivity|]. split; [reflexivity|].
  exact (stripTags_unclosed_tag Decoder.UnescapeBasic "Hello " "b World"
           eq_refl eq_refl).
Defined.

End StripMore.

(** ** Trimming twice *)

Module TrimMore.

Import Strings StringsFacts RegexpFacts Main Blank.

Lemma TrimRightSpace_idem (t : string) :
  TrimRightSpace (TrimRightSpace t) = TrimRightSpace t.
Proof.
  induction t as [|c t IH]; [reflexivity|].
  cbn [TrimRightSpace].
  destruct (is_space_rune (String c (TrimRightSpace t))) eqn:E; [reflexivity|].
  cbn [TrimRightSpace]. now rewrite IH, E.
Qed.

Lemma length_TrimLeftSpace (s : string) :
  String.length (TrimLeftSpace s) <= String.length s.
Proof.
  destruct (TrimLeftSpace_split s) as (sp & E & _).
  rewrite E at 2. rewrite str_length_app. lia.
Qed.

(** A string that starts with a white space rune is not what TrimLeftSpace
    returns for it. *)
Lemma TrimLeftSpace_fixed (s : string) :
  TrimLeftSpace s = s -> s = EmptyString \/ space_width s = 0 \/ 3 < space_width s
  \/ (space_width s = 2 /\ String.length s < 2)
  \/ (space_width s = 3 /\ String.length s < 3).
Proof.
  destruct s as [|c0 r0]; [now left|]. intros E. right.
  cbn [TrimLeftSpace] in E.
  destruct (space_width (String c0 r0)) as [|[|[|[|w]]]] eqn:W.
  - now left.
  - pose proof (length_TrimLeftSpace r0) as L. rewrite E in L. simpl in L. lia.
  - destruct r0 as [|c1 r1]; [right; right; left; simpl; split; [reflexivity|lia]|].
    pose proof (length_TrimLeftSpace r1) as L. rewrite E in L. simpl in L. lia.
  - destruct r0 as [|c1 [|c2 r2]];
      try (right; right; right; simpl; split; [reflexivity|lia]).
    pose proof (length_TrimLeftSpace r2) as L. rewrite E in L. simpl in L. lia.
  - right. left. lia.
Qed.

(** The white space rune a string starts with is the one any longer string
    starts with. *)
Lemma space_width_app (p x : string) :
  space_width p <> 0 -> space_width (p ++ x) = space_width p.
Proof.
  destruct p as [|c0 [|c1 [|c2 p]]]; cbn [append space_width]; intros N;
    try congruence;
    repeat match goal with
           | |- context [if ?b then _ else _] => destruct b
           | H : context [if ?b then _ else _] |- _ => destruct b
           end; try congruence; destruct x; congruence.
Qed.

Lemma space_width_bound (p : string) : space_width p <= String.length p /\ space_width p <= 3.
Proof.
  destruct p as [|c0 [|c1 [|c2 p]]]; cbn [space_width String.length];
    repeat match goal with
           | |- context [if ?b then _ else _] => destruct b
           end; lia.
Qed.

Lemma TrimLeftSpace_head (s : string) :
  space_width s = 0 -> TrimLeftSpace s = s.
Proof.
  destruct s as [|c0 r0]; [reflexivity|]. intros W.
  cbn [TrimLeftSpace]. now rewrite W.
Qed.

(** A prefix of a string that starts with no white space rune starts with
    none. *)
Lemma TrimLeftSpace_prefix (p x : string) :
  TrimLeftSpace (p ++ x) = p ++ x -> TrimLeftSpace p = p.
Proof.
  intros E. destruct (Nat.eq_dec (space_width p) 0) as [Z|N].
  - now apply TrimLeftSpace_head.
  - pose proof (space_width_app p x N) as A.
    pose proof (space_width_bound p) as [B1 B2].
    destruct (TrimLeftSpace_fixed _ E) as [E0|[W|[W|[[W L]|[W L]]]]].
    + destruct p; [reflexivity|discriminate].
    + congruence.
    + lia.
    + rewrite str_length_app in L. lia.
    + rewrite str_length_app in L. lia.
Qed.

Lemma TrimLeftSpace_idem (s : string) :
  TrimLeftSpace (TrimLeftSpace s) = TrimLeftSpace s.
Proof.
  remember (String.length s) as n eqn:E. revert s E.
  induction n as [n IH] using lt_wf_ind. intros s E.
  destruct s as [|c0 r0]; [reflexivity|].
  cbn [TrimLeftSpace].
  destruct (space_width (String c0 r0)) as [|[|[|[|w]]]] eqn:W.
  - cbn [TrimLeftSpace]. now rewrite W.
  - apply (IH (String.length r0)); [subst n; simpl; lia|reflexivity].
  - destruct r0 as [|c1 r1].
    + cbn [TrimLeftSpace]. now rewrite W.
    + apply (IH (String.length r1)); [subst n; simpl; lia|reflexivity].
  - destruct r0 as [|c1 [|c2 r2]]; try (cbn [TrimLeftSpace]; now rewrite W).
    apply (IH (String.length r2)); [subst n; simpl; lia|reflexivity].
  - cbn [TrimLeftSpace]. now rewrite W.
Qed.

(** strings.TrimSpace leaves what it returns as it is. *)
Lemma TrimSpace_idem (s : string) : TrimSpace (TrimSpace s) = TrimSpace s.
Proof.
  unfold TrimSpace.
  destruct (TrimRightSpace_split (TrimLeftSpace s)) as (sp & E & _).
  assert (F : TrimLeftSpace (TrimRightSpace (TrimLeftSpace s))
              = TrimRightSpace (TrimLeftSpace s)).
  { apply (TrimLeftSpace_prefix _ sp). rewrite <- E. apply TrimLeftSpace_idem. }
  rewrite F. apply TrimRightSpace_idem.
Qed.

End TrimMore.

(** ** What the translation and the markup depend on *)

Module TransformMore.

Import Strings StringsFacts Regexp RegexpFacts ScanFacts Main UnwrapFacts
  Cloze Translation TrimMore.

Lemma first_nonempty_Forall (P : string -> Prop) (l : list string) :
  P EmptyString -> Forall P l -> P (first_nonempty l).
Proof.
  intros E F. induction F as [|x l Hx _ IH]; [exact E|].
  cbn [first_nonempty]. now destruct (is_empty x).
Qed.

Section WithDecoder.

Variable UnescapeString : string -> string.

Lemma candidates_trimmed (h : string) :
  Forall (fun x => TrimSpace x = x) (candidates UnescapeString h).
Proof.
  unfold candidates.
  constructor; [|constructor].
  - unfold explicit_candidate, candidate.
    destruct (2 <=? _); [apply TrimSpace_idem|reflexivity].
  - unfold any_candidate, candidate.
    destruct (2 <=? _); [apply TrimSpace_idem|reflexivity].
  - apply Forall_map, Forall_forall. intros m _. unfold cloze_candidate.
    destruct (is_empty _); [reflexivity|apply TrimSpace_idem].
Qed.

(** stripTags returns a trimmed text, so that the calls of strings.TrimSpace
    on its result in [transform] change nothing; and the translation
    [transform] returns has no white space around it. *)
Theorem translation_trimmed (h sound color : string) :
  (forall s,
      TrimSpace (stripTags UnescapeString s) = stripTags UnescapeString s)
  /\ exists out ja,
       transform UnescapeString h sound color = Some (out, ja)
       /\ TrimSpace ja = ja.
Proof.
  split; [intros s; apply TrimSpace_idem|].
  destruct (transform_translation UnescapeString h sound color) as (out & E).
  exists out, (first_nonempty (candidates UnescapeString h)).
  split; [exact E|].
  apply (first_nonempty_Forall (fun x => TrimSpace x = x));
    [reflexivity|apply candidates_trimmed].
Qed.

(** The markup of the first five steps, which the sound has no part in. *)
Definition body_of (color h : string) : string :=
  let h1 := strip_style h in
  let (ja, h2) := extract_translation UnescapeString h1 in
  match unwrap (snd (rewrite_cloze UnescapeString color ja h2)) with
  | Some h3 => rewrite_image (rewrite_card h3)
  | None => EmptyString
  end.

Lemma transform_eq (h sound color : string) :
  transform UnescapeString h sound color
  = Some (collapse_spaces (insert_sound (body_of color h) sound),
          first_nonempty (candidates UnescapeString h)).
Proof.
  unfold transform, body_of. rewrite extract_translation_eq, rewrite_cloze_eq.
  cbn [snd].
  destruct (unwrap_total
              (render (fun m => cloze_markup UnescapeString color (group 1 m))
                 (scan reCloze (kept (scan reTransDiv (strip_style h))))))
    as (h' & R & _).
  rewrite R. f_equal. f_equal.
  apply (first_nonempty_flat [_; _]).
Qed.

(** The translation depends on the markup alone, not on the sound nor on the
    color; and the sound has its part in the last two steps only: the markup
    returned is that of the first five steps, which does not depend on the
    sound, with the sound inserted and the pairs of spaces collapsed. *)
Theorem transform_dependencies (h : string) :
  exists ja,
    forall color,
    exists body,
      forall sound,
        transform UnescapeString h sound color
        = Some (collapse_spaces (insert_sound body sound), ja).
Proof.
  exists (first_nonempty (candidates UnescapeString h)). intros color.
  exists (body_of color h). intros sound.
  apply transform_eq.
Qed.


End WithDecoder.

End TransformMore.

(** ** Matching the matched text again, with word boundaries

    A word boundary looks at the byte after it.  When the pattern goes on
    with something that takes a byte, that byte is in the matched text, and
    matching the matched text alone still finds the same match. *)

Module Boundary.

Import Strings StringsFacts Regexp RegexpFacts ScanFacts Locality.

(** Every word boundary of [r] is followed by a part of the pattern that
    takes a byte; [after] says whether what follows [r] does. *)
Fixpoint guarded (r : regex) (after : bool) : bool :=
  match r with
  | RSeq r1 r2 => guarded r1 ((0 <? min_len r2) || after) && guarded r2 after
  | ROpt r1 => guarded r1 after
  | RGroup _ r1 => guarded r1 after
  | RWordB => after
  | _ => true
  end.

(** The pattern starts with a literal that is not empty. *)
Fixpoint starts_lit (r : regex) : bool :=
  match r with
  | RSeq r1 _ => starts_lit r1
  | RLit alts => forallb (fun a => negb (is_empty a)) alts
  | _ => false
  end.

Lemma last_or_skip (d d' : option ascii) (a : string) :
  is_empty a = false -> last_or d a = last_or d' a.
Proof. destruct a; [discriminate|reflexivity]. Qed.

Lemma run_starts_lit (r : regex) :
  starts_lit r = true ->
  forall k p p' s c, run r k p s c = run r k p' s c.
Proof.
  induction r as [|alts|q|r1 IH1 r2 IH2|g q|r1 IH1|n r1 IH1|];
    try discriminate; intros S k p p' s c; cbn [run].
  - cbn [starts_lit] in S.
    induction alts as [|a alts IHa]; cbn [lit_alts]; [reflexivity|].
    cbn [forallb] in S. apply andb_true_iff in S as [Sa S].
    apply negb_true_iff in Sa.
    rewrite (last_or_skip p p' a Sa), (IHa S). reflexivity.
  - now apply IH1.
Qed.

Section Cut.

Variable rest : string.

Definition empties (k : cont) : Prop := forall p c, k p EmptyString c = None.

(** [k] is late on every text shorter than [bound]. *)
Definition lates_below (bound : nat) (k : cont) : Prop :=
  forall p t c, String.length t < bound -> late rest (k p t c).

Definition related_same (kf kt : cont) : Prop :=
  (forall p s c, sim rest (kt p s c) (kf p (s ++ rest) c))
  /\ lates_below (String.length rest) kf.

Definition strict (kf kt : cont) : Prop :=
  empties kt /\ lates_below (S (String.length rest)) kf.

Lemma lates_below_le (b b' : nat) (k : cont) :
  b' <= b -> lates_below b k -> lates_below b' k.
Proof. intros L K p t c Lt. apply K. lia. Qed.

Lemma run_lates_below (r : regex) :
  forall b k, lates_below b k -> lates_below (b + min_len r) (run r k).
Proof.
  induction r as [|alts|q|r1 IH1 r2 IH2|g q|r1 IH1|n r1 IH1|];
    intros b k K; cbn [min_len]; rewrite ?Nat.add_0_r.
  - exact K.
  - intros p t c L. cbn [run].
    destruct alts as [|w l]; [now left|].
    remember (w :: l) as alts eqn:Ea.
    assert (I : forall a, In a alts ->
                          fold_right (fun v n => Nat.min (String.length v) n)
                            (String.length w) l <= String.length a)
      by (intros a Ia; subst alts; now apply min_len_alts).
    clear Ea. induction alts as [|a alts IHa]; cbn [lit_alts]; [now left|].
    assert (Ia : late rest (lit_alts alts k p t c))
      by (apply IHa; intros a' Ia'; apply I; now right).
    destruct (HasPrefix t a) eqn:E; [|exact Ia].
    refine (orelse_late _ _ _ _ Ia). apply K.
    pose proof (I a (or_introl eq_refl)). pose proof (HasPrefix_length _ _ E).
    rewrite length_drop. lia.
  - intros p t c L. cbn [run]. destruct t as [|x t]; [now left|].
    destruct (q x); [|now left]. apply K. simpl in L. lia.
  - intros p t c L. cbn [run].
    apply (IH1 (b + min_len r2) (run r2 k)); [now apply IH2|lia].
  - intros p t c. cbn [run]. destruct g.
    + revert p. induction t as [|x t IHt]; intros p L; cbn [star_greedy].
      * now apply K.
      * destruct (q x); [|now apply K].
        refine (orelse_late _ _ _ _ _); [|now apply K].
        apply IHt. simpl in L. lia.
    + revert p. induction t as [|x t IHt]; intros p L; cbn [star_lazy].
      * refine (orelse_late _ _ None _ _); [now apply K|now left].
      * refine (orelse_late _ (k p (String x t) c) _ _ _); [now apply K|].
        destruct (q x); [|now left]. apply IHt. simpl in L. lia.
  - intros p t c L. cbn [run].
    refine (orelse_late _ _ _ _ _); [|now apply K].
    apply (lates_below_le (b + min_len r1) b); [lia|now apply IH1|exact L].
  - intros p t c L. cbn [run].
    apply (IH1 b); [|exact L]. intros p' t' c' L'. now apply K.
  - intros p t c L. cbn [run]. destruct (xorb _ _); [now apply K|now left].
Qed.

Lemma run_lates_same (r : regex) (b : nat) (k : cont) :
  lates_below b k -> lates_below b (run r k).
Proof.
  intros K. apply (lates_below_le (b + min_len r)); [lia|].
  now apply run_lates_below.
Qed.

Lemma run_empties (r : regex) :
  forall k, 0 < min_len r \/ empties k -> empties (run r k).
Proof.
  induction r as [|alts|q|r1 IH1 r2 IH2|g q|r1 IH1|n r1 IH1|];
    intros k H p c; cbn [run]; cbn [min_len] in H.
  - destruct H as [H|H]; [lia|apply H].
  - assert (A : Forall (fun a => a <> EmptyString) alts \/ empties k).
    { destruct H as [H|H]; [left|now right].
      destruct alts as [|w l]; [lia|].
      apply Forall_forall. intros a Ia ->.
      pose proof (min_len_alts w l EmptyString Ia) as M. simpl in M. lia. }
    clear H. induction alts as [|a alts IHa]; cbn [lit_alts]; [reflexivity|].
    assert (Ia : lit_alts alts k p EmptyString c = None).
    { apply IHa. destruct A as [A|A]; [left; now inversion A|now right]. }
    destruct a as [|x a].
    + cbn [HasPrefix String.length drop last_or].
      destruct A as [A|A]; [inversion A; congruence|].
      now rewrite A.
    + assert (E : HasPrefix EmptyString (String x a) = false).
      { destruct (HasPrefix EmptyString (String x a)) eqn:E; [|reflexivity].
        apply HasPrefix_length in E. simpl in E. lia. }
      now rewrite E.
  - reflexivity.
  - apply IH1. destruct (Nat.eq_dec (min_len r1) 0) as [Z|N]; [right|left; lia].
    apply IH2. destruct H as [H|H]; [left; lia|now right].
  - destruct H as [H|H]; [lia|].
    destruct g; cbn [star_greedy star_lazy]; now rewrite H.
  - destruct H as [H|H]; [lia|].
    rewrite (IH1 k (or_intror H)). apply H.
  - apply IH1. destruct H as [H|H]; [now left|right].
    intros p' c'. apply H.
  - destruct H as [H|H]; [lia|].
    destruct (xorb _ _); [apply H|reflexivity].
Qed.

Lemma run_strict (r : regex) (after : bool) (kf kt : cont) :
  related_same kf kt ->
  (after = true -> strict kf kt) ->
  (0 <? min_len r) || after = true ->
  strict (run r kf) (run r kt).
Proof.
  intros [R K] St H. apply orb_true_iff in H as [H|H].
  - apply Nat.ltb_lt in H. split.
    + apply run_empties. now left.
    + apply (lates_below_le (String.length rest + min_len r)); [lia|].
      now apply run_lates_below.
  - destruct (St H) as [E L]. split.
    + apply run_empties. now right.
    + apply (lates_below_le (S (String.length rest) + min_len r)); [lia|].
      now apply run_lates_below.
Qed.

Lemma run_related_same (r : regex) :
  forall after kf kt,
    guarded r after = true ->
    related_same kf kt ->
    (after = true -> strict kf kt) ->
    related_same (run r kf) (run r kt).
Proof.
  induction r as [|alts|q|r1 IH1 r2 IH2|g q|r1 IH1|n r1 IH1|];
    intros after kf kt G [R K] St;
    (split; [|now apply run_lates_same]);
    intros p s c; cbn [run].
  - apply R.
  - clear G. induction alts as [|a alts IHa]; cbn [lit_alts]; [right; left; auto|].
    destruct (HasPrefix s a) eqn:E.
    + rewrite (HasPrefix_app_l _ rest _ E).
      rewrite (drop_app_le _ _ _ (HasPrefix_length _ _ E)).
      apply (orelse_sim _ _ _ _ _ (R _ _ _) IHa).
    + destruct (HasPrefix (s ++ rest) a) eqn:E'; [|exact IHa].
      apply late_sim; [|exact IHa]. apply K.
      pose proof (HasPrefix_length _ _ E') as L.
      rewrite length_drop, str_length_app in *.
      assert (String.length s < String.length a); [|lia].
      destruct (Nat.le_gt_cases (String.length a) (String.length s)) as [L'|L'];
        [|exact L'].
      rewrite (HasPrefix_take _ _ _ L' E') in E. discriminate.
  - destruct s as [|b s]; cbn [append].
    + destruct rest as [|b t] eqn:Er; [right; left; auto|].
      destruct (q b); [|right; left; auto].
      apply late_sim_none. rewrite <- Er in *. apply K. rewrite Er. simpl. lia.
    + destruct (q b); [apply R | right; left; auto].
  - cbn [guarded] in G. apply andb_true_iff in G as [G1 G2].
    assert (R2 : related_same (run r2 kf) (run r2 kt))
      by (apply (IH2 after); [assumption|split; assumption|assumption]).
    refine (proj1 (IH1 _ (run r2 kf) (run r2 kt) G1 R2 _) p s c).
    intros H. apply (run_strict r2 after); [split; assumption|assumption|exact H].
  - assert (Gl : forall t p', String.length t < String.length rest ->
                              late rest (run (RStar g q) kf p' t c)).
    { intros t p' L.
      apply (run_lates_below (RStar g q) (String.length rest) kf K).
      cbn [min_len]. lia. }
    destruct g; cbn [run] in Gl.
    + revert p. induction s as [|b s IHs]; intros p.
      * cbn [append star_greedy].
        destruct rest as [|b t] eqn:Er;
          [cbn [star_greedy]; apply (R p EmptyString)|].
        cbn [star_greedy]. destruct (q b); [|apply (R p EmptyString)].
        apply late_sim; [|apply (R p EmptyString)].
        apply Gl. simpl. lia.
      * cbn [append star_greedy]. destruct (q b); [|apply (R p (String b s))].
        apply (orelse_sim _ _ _ _ _ (IHs _) (R p (String b s) c)).
    + revert p. induction s as [|b s IHs]; intros p.
      * cbn [append star_lazy].
        destruct rest as [|b t] eqn:Er.
        -- cbn [star_lazy].
           apply (orelse_sim _ _ _ None None (R p EmptyString c)).
           right; left; auto.
        -- cbn [star_lazy].
           apply (orelse_sim _ _ _ None _ (R p EmptyString c)).
           destruct (q b); [|right; left; auto].
           apply late_sim_none. apply Gl. simpl. lia.
      * cbn [append star_lazy].
        apply (orelse_sim _ _ _ _ _ (R p (String b s) c)).
        destruct (q b); [apply IHs | right; left; auto].
  - cbn [guarded] in G.
    apply (orelse_sim _ _ _ _ _
             (proj1 (IH1 after kf kt G (conj R K) St) _ _ _) (R p s c)).
  - cbn [guarded] in G.
    refine (proj1 (IH1 after _ _ G _ _) p s c).
    + split.
      * intros p' s' c'.
        rewrite !str_length_app.
        replace (String.length s + String.length rest
                 - (String.length s' + String.length rest))
          with (String.length s - String.length s') by lia.
        rewrite take_app_le by lia. apply R.
      * intros p' t' c' L'. now apply K.
    + intros H. destruct (St H) as [E L]. split.
      * intros p' c'. apply E.
      * intros p' t' c' L'. now apply L.
  - cbn [guarded] in G. destruct (St G) as [E L].
    destruct s as [|b s].
    + cbn [append]. destruct (xorb (is_word p) (is_word (head EmptyString)));
        rewrite ?E; apply late_sim_none;
        (destruct (xorb _ _); [apply L; lia|now left]).
    + cbn [append head]. destruct (xorb _ _); [apply (R p (String b s))|].
      right; left; auto.
Qed.

Lemma accept_related_same : related_same accept accept.
Proof.
  split.
  - intros p s c. right. right. exists s, c. auto.
  - intros p t c L. right. exists t, c. auto.
Qed.

Lemma match_at_cut_same (r : regex) (prev : option ascii) (a : string)
  (c : caps) :
  guarded r false = true ->
  match_at r prev (a ++ rest) = Some (rest, c) ->
  match_at r prev a = Some (EmptyString, c).
Proof.
  intros G M. unfold match_at in *.
  assert (St : false = true -> strict accept accept) by discriminate.
  destruct (proj1 (run_related_same r false _ _ G accept_related_same St) prev a
              (repeat EmptyString (ngroups r)))
    as [(r' & c' & E & Lt)|[[_ E]|(r' & c' & E1 & E2)]].
  - rewrite M in E. injection E as <- _. lia.
  - rewrite M in E. discriminate.
  - rewrite M in E2. injection E2 as E2 <-.
    symmetry in E2. apply str_app_eq_self in E2. now subst r'.
Qed.

End Cut.

(** FindStringSubmatch on the text of a match gives the match. *)
Theorem rematch_guarded (r : regex) (m : list string) :
  guarded r false = true -> starts_lit r = true ->
  hit_of r m -> FindStringSubmatch r (whole m) = m.
Proof.
  intros G Sl (prev & a & rest & c & M & -> & _).
  change (whole (a :: c)) with a.
  pose proof (match_at_cut_same rest r prev a c G M) as E.
  unfold match_at in E. rewrite (run_starts_lit r Sl _ prev None) in E.
  fold (match_at r None a) in E.
  unfold FindStringSubmatch.
  assert (F : find_from r None a
              = match match_at r None a with
                | Some x => submatch a x
                | None => match a with
                          | EmptyString => []
                          | String b s' => find_from r (Some b) s'
                          end
                end) by (destruct a; reflexivity).
  rewrite F, E. unfold submatch. cbn [fst snd String.length].
  now rewrite Nat.sub_0_r, take_all.
Qed.

End Boundary.

(** ** Step 5: the image boxes *)

Module Image.

Import Strings StringsFacts Regexp RegexpFacts ScanFacts PatternFacts Main
  Boundary.

(** The declarations every image box gets. *)
Definition image_style : string :=
  "display:inline-block;width:calc(50% - 10px);padding-bottom:29%;"
  ++ "background-position:center;background-repeat:no-repeat;"
  ++ "background-size:cover;margin-left:2px;margin-right:2px;".

(** The declaration of the background image that the function of step 5
    takes from the style of the box. *)
Definition background (style : string) : string :=
  let m := FindStringSubmatch reBgImage style in
  if 2 <=? List.length m
  then let bg := group 0 m in
       if negb (HasSuffix bg ";") then bg ++ ";" else bg
  else EmptyString.

(** The box the function of step 5 writes. *)
Definition image_box (class style : string) : string :=
  "<div class=" ++ dq ++ class ++ dq ++ " style=" ++ dq ++ image_style
  ++ background style ++ dq ++ "></div>".

(** A match of reImage: an empty div whose first attribute is a class that
    holds dc-image and whose second attribute is a style. *)
Lemma image_hit (m : list string) :
  hit_of reImage m ->
  exists tag ws1 kw1 class ws2 kw2 style ws3 close,
    m = [tag ++ ws1 ++ kw1 ++ class ++ dq ++ ws2 ++ kw2 ++ style ++ dq
         ++ ws3 ++ close; class; style]
    /\ folds "<div" tag
    /\ all_in space ws1 = true /\ ws1 <> EmptyString
    /\ folds ("class=" ++ dq) kw1
    /\ Card.class_with "dc-image" class
    /\ all_in space ws2 = true /\ ws2 <> EmptyString
    /\ folds ("style=" ++ dq) kw2
    /\ all_in not_dq style = true
    /\ all_in space ws3 = true
    /\ folds "></div>" close.
Proof.
  intros (prev & a & rest & c & _ & -> & M).
  assert (N : ngroups reImage = 2) by reflexivity.
  rewrite N in M. clear N. unfold reImage in M.
  cbn [seq] in M. cbn [Matches] in M.
  destruct M as (tag & a1 & c1 & -> & M1 & ws1 & a2 & c2 & -> & M2
                 & kw1 & a3 & c3 & -> & M3 & class & a4 & c4 & -> & M4
                 & q1 & a5 & c5 & -> & M5 & ws2 & a6 & c6 & -> & M6
                 & kw2 & a7 & c7 & -> & M7 & style & a8 & c8 & -> & M8
                 & q2 & a9 & c9 & -> & M9 & ws3 & close & c10 & -> & M10
                 & M11).
  apply Matches_lit in M1 as [F1 ->].
  apply Matches_plus in M2 as (W1 & N1 & ->).
  apply Matches_lit in M3 as [F3 ->].
  destruct M4 as (c4' & M4 & ->).
  change (RSeq (star not_dq) (RSeq RWordB (RSeq (lit "dc-image") (star not_dq))))
    with (seq [star not_dq; RWordB; lit "dc-image"; star not_dq]) in M4.
  apply Card.Matches_class in M4 as [Cl ->].
  apply Matches_lit in M5 as [F5 ->].
  apply (Card.folds_plain dq) in F5; [subst q1|reflexivity].
  apply Matches_plus in M6 as (W2 & N2 & ->).
  apply Matches_lit in M7 as [F7 ->].
  destruct M8 as (c8' & [S8 ->] & ->).
  apply Matches_lit in M9 as [F9 ->].
  apply (Card.folds_plain dq) in F9; [subst q2|reflexivity].
  destruct M10 as [W3 ->].
  apply Matches_lit in M11 as [F11 ->].
  exists tag, ws1, kw1, class, ws2, kw2, style, ws3, close.
  cbn [repeat set_cap]. repeat split; auto.
Qed.

Lemma reImage_guarded : guarded reImage false = true /\ starts_lit reImage = true.
Proof. split; reflexivity. Qed.

(** The function of step 5 on the text of a match. *)
Lemma image_func_hit (m : list string) :
  hit_of reImage m ->
  image_func (whole m) = image_box (group 1 m) (group 2 m).
Proof.
  intros H. unfold image_func.
  rewrite (rematch_guarded reImage m (proj1 reImage_guarded)
             (proj2 reImage_guarded) H).
  destruct (image_hit m H)
    as (tag & ws1 & kw1 & class & ws2 & kw2 & style & ws3 & close & -> & _).
  cbn [List.length Nat.ltb Nat.leb]. unfold group. cbn [nth].
  unfold image_box, background, group.
  change (Join _ ";" ++ ";") with image_style.
  now rewrite !str_app_assoc.
Qed.

Lemma render_ext (f g : list string -> string) (ps : list piece) :
  Forall (fun m => f m = g m) (hits ps) -> render f ps = render g ps.
Proof.
  induction ps as [|[b|m] ps IH]; intros F; cbn [render hits] in *.
  - reflexivity.
  - now rewrite IH.
  - inversion F as [|? ? E F']. subst. now rewrite E, IH.
Qed.

(** A match of reBgImage ends with a closing parenthesis. *)
Lemma bg_hit (m : list string) :
  hit_of reBgImage m ->
  exists kw ws1 ws2 fn url,
    m = [kw ++ ws1 ++ ":" ++ ws2 ++ fn ++ url ++ ")"; url]
    /\ folds "background-image" kw
    /\ all_in space ws1 = true /\ all_in space ws2 = true
    /\ folds "url(" fn
    /\ all_in not_rparen url = true /\ url <> EmptyString.
Proof.
  intros (prev & a & rest & c & _ & -> & M).
  assert (N : ngroups reBgImage = 1) by reflexivity.
  rewrite N in M. clear N. unfold reBgImage, star in M.
  cbn [seq] in M. cbn [Matches] in M.
  destruct M as (kw & a1 & c1 & -> & M1 & ws1 & a2 & c2 & -> & [W1 ->]
                 & co & a3 & c3 & -> & M3 & ws2 & a4 & c4 & -> & [W2 ->]
                 & fn & a5 & c5 & -> & M5 & url & close & c6 & -> & M6 & M7).
  apply Matches_lit in M1 as [F1 ->].
  apply Matches_lit in M3 as [F3 ->].
  apply (Card.folds_plain ":") in F3; [subst co|reflexivity].
  apply Matches_lit in M5 as [F5 ->].
  destruct M6 as (c6' & M6 & ->).
  apply Matches_plus in M6 as (U & Un & ->).
  apply Matches_lit in M7 as [F7 ->].
  apply (Card.folds_plain ")") in F7; [subst close|reflexivity].
  exists kw, ws1, ws2, fn, url. cbn [repeat set_cap]. repeat split; auto.
Qed.

Lemma HasSuffix_paren (x : string) : HasSuffix (x ++ ")") ";" = false.
Proof.
  unfold HasSuffix. rewrite str_length_app. cbn [String.length].
  replace (String.length x + 1 - 1) with (String.length x) by lia.
  rewrite drop_app. apply andb_false_r.
Qed.

(** Step 5 replaces every match of reImage, and
    nothing else, by an empty div that has the class of the match, as it
    stood, and a style made of the fixed declarations and the declaration of
    the background image taken from the style of the match; what else the
    tag had is not in it. *)
Theorem rewrite_image_spec (h : string) :
  rewrite_image h
  = render (fun m => image_box (group 1 m) (group 2 m)) (scan reImage h)
  /\ h = render whole (scan reImage h)
  /\ Forall
       (fun m =>
          exists tag ws1 kw1 ws2 kw2 ws3 close,
            whole m
            = tag ++ ws1 ++ kw1 ++ group 1 m ++ dq ++ ws2 ++ kw2
              ++ group 2 m ++ dq ++ ws3 ++ close
            /\ folds "<div" tag
            /\ all_in space ws1 = true /\ ws1 <> EmptyString
            /\ folds ("class=" ++ dq) kw1
            /\ Card.class_with "dc-image" (group 1 m)
            /\ all_in space ws2 = true /\ ws2 <> EmptyString
            /\ folds ("style=" ++ dq) kw2
            /\ all_in not_dq (group 2 m) = true
            /\ all_in space ws3 = true
            /\ folds "></div>" close)
       (hits (scan reImage h)).
Proof.
  split; [|split].
  - unfold rewrite_image, ReplaceAllStringFunc. apply render_ext.
    eapply Forall_impl; [|apply (scan_hits reImage h)].
    intros m H. now apply image_func_hit.
  - symmetry. apply render_whole_scan. vm_compute. lia.
  - eapply Forall_impl; [|apply (scan_hits reImage h)].
    intros m H. apply image_hit in H.
    destruct H as (tag & ws1 & kw1 & class & ws2 & kw2 & style & ws3 & close
                   & -> & H).
    exists tag, ws1, kw1, ws2, kw2, ws3, close.
    unfold whole, group. cbn [nth]. split; [reflexivity|exact H].
Qed.

(** The declaration of the background image: none when reBgImage does not
    match in the style; otherwise the first match, from the words
    background-image to the closing parenthesis of url, followed by a
    semicolon.  The match never ends with a semicolon, so the semicolon is
    always added, also when the style had one after the parenthesis. *)
Theorem background_spec (style : string) :
  (FindStringSubmatch reBgImage style = [] /\ background style = EmptyString)
  \/ exists pre post kw ws1 ws2 fn url,
       style = pre ++ (kw ++ ws1 ++ ":" ++ ws2 ++ fn ++ url ++ ")") ++ post
       /\ FindStringSubmatch reBgImage style
          = [kw ++ ws1 ++ ":" ++ ws2 ++ fn ++ url ++ ")"; url]
       /\ folds "background-image" kw
       /\ all_in space ws1 = true /\ all_in space ws2 = true
       /\ folds "url(" fn
       /\ all_in not_rparen url = true /\ url <> EmptyString
       /\ background style
          = kw ++ ws1 ++ ":" ++ ws2 ++ fn ++ url ++ ");".
Proof.
  unfold background.
  destruct (FindStringSubmatch reBgImage style) as [|a c] eqn:F; [now left|].
  right.
  assert (L : 0 < min_len reBgImage) by (vm_compute; lia).
  destruct (find_from_first reBgImage style L None (a :: c) F)
    as (pre & post & E & H & _); [discriminate|].
  destruct (bg_hit _ H) as (kw & ws1 & ws2 & fn & url & Em & B).
  rewrite Em in *. exists pre, post, kw, ws1, ws2, fn, url.
  split; [exact E|]. split; [reflexivity|].
  destruct B as (B1 & B2 & B3 & B4 & B5 & B6).
  repeat (split; [assumption|]).
  cbn [List.length Nat.leb]. unfold group. cbn [nth].
  replace (kw ++ ws1 ++ ":" ++ ws2 ++ fn ++ url ++ ")")
    with ((kw ++ ws1 ++ ":" ++ ws2 ++ fn ++ url) ++ ")")
    by now rewrite !str_app_assoc.
  rewrite HasSuffix_paren. cbn [negb]. now rewrite !str_app_assoc.
Qed.

End Image.

(** ** Steps 1 and 3.5: what is deleted *)

Module Deletions.

Import Strings StringsFacts Regexp RegexpFacts ScanFacts PatternFacts Main
  Translation.

Lemma length_kept (ps : list piece) :
  String.length (kept ps) <= String.length (render whole ps).
Proof.
  induction ps as [|[b|m] ps IH]; cbn [kept render String.length]; [lia|lia|].
  rewrite str_length_app. lia.
Qed.

(** A match of reStyleBlock: an opening tag whose name starts with style, up
    to a closing style tag. *)
Lemma style_hit (m : list string) :
  hit_of reStyleBlock m ->
  exists open attrs body close,
    m = [open ++ attrs ++ ">" ++ body ++ close]
    /\ folds "<style" open /\ folds "</style>" close.
Proof.
  intros (prev & a & rest & c & _ & -> & M).
  assert (N : ngroups reStyleBlock = 0) by reflexivity.
  rewrite N in M. clear N. unfold reStyleBlock, lazy in M.
  cbn [seq] in M. cbn [Matches] in M.
  destruct M as (open & a1 & c1 & -> & M1 & attrs & a2 & c2 & -> & [_ ->]
                 & gt & a3 & c3 & -> & M3 & body & close & c4 & -> & [_ ->]
                 & M5).
  apply Matches_lit in M1 as [F1 ->].
  apply Matches_lit in M3 as [F3 ->].
  apply (Card.folds_plain ">") in F3; [subst gt|reflexivity].
  apply Matches_lit in M5 as [F5 ->].
  exists open, attrs, body, close. auto.
Qed.

(** Step 1 deletes every match of reStyleBlock and nothing else: what it
    returns is made of the bytes of the markup that stand in no match, in
    their order.  A match runs from an opening tag whose name starts with
    style, in either case, to a closing style tag.  The step inserts
    nothing, so the markup does not get longer. *)
Theorem strip_style_spec (h : string) :
  strip_style h = kept (scan reStyleBlock h)
  /\ h = render whole (scan reStyleBlock h)
  /\ Forall
       (fun m =>
          exists open attrs body close,
            whole m = open ++ attrs ++ ">" ++ body ++ close
            /\ folds "<style" open /\ folds "</style>" close)
       (hits (scan reStyleBlock h))
  /\ String.length (strip_style h) <= String.length h.
Proof.
  assert (W : h = render whole (scan reStyleBlock h)).
  { symmetry. apply render_whole_scan. vm_compute. lia. }
  assert (K : strip_style h = kept (scan reStyleBlock h))
    by apply render_erase.
  split; [exact K|]. split; [exact W|]. split.
  - eapply Forall_impl; [|apply (scan_hits reStyleBlock h)].
    intros m H. destruct (style_hit m H) as (o & a & b & c & -> & F).
    exists o, a, b, c. split; [reflexivity|exact F].
  - rewrite K. rewrite W at 2. apply length_kept.
Qed.

Lemma ngroups_lit (w : string) : ngroups (lit w) = 0.
Proof.
  induction w as [|c w IH]; [reflexivity|].
  destruct w as [|c' w]; [reflexivity|].
  change (lit (String c (String c' w)))
    with (RSeq (RLit (fold_alts c)) (lit (String c' w))).
  cbn [ngroups]. now rewrite IH.
Qed.

(** The opening tag of a decorative span: a span tag in which the attribute
    class has a value that holds the word [token]. *)
Definition span_open_with (token o : string) : Prop :=
  exists tag a1 kw c1 tok c2 a2,
    o = tag ++ a1 ++ kw ++ c1 ++ tok ++ c2 ++ dq ++ a2 ++ ">"
    /\ folds "<span" tag
    /\ all_in not_gt a1 = true
    /\ folds ("class=" ++ dq) kw
    /\ all_in not_dq c1 = true
    /\ folds token tok
    /\ all_in not_dq c2 = true
    /\ all_in not_gt a2 = true.

Lemma unwrap_hit (token : string) (m : list string) :
  hit_of (reUnwrap token) m ->
  exists open inner close,
    m = [open ++ inner ++ close; inner]
    /\ span_open_with token open /\ folds "</span>" close.
Proof.
  intros (prev & a & rest & c & _ & -> & M).
  assert (N : ngroups (reUnwrap token) = 1).
  { unfold reUnwrap. cbn [seq ngroups]. rewrite !ngroups_lit. reflexivity. }
  rewrite N in M. clear N. unfold reUnwrap, star, lazy in M.
  cbn [seq] in M. cbn [Matches] in M.
  destruct M as (tag & x1 & c1 & -> & M1 & a1 & x2 & c2 & -> & [A1 ->]
                 & kw & x3 & c3 & -> & M3 & v1 & x4 & c4 & -> & [V1 ->]
                 & b1 & x5 & c5 & -> & (-> & -> & _)
                 & tok & x6 & c6 & -> & M6
                 & b2 & x7 & c7 & -> & (-> & -> & _)
                 & v2 & x8 & c8 & -> & [V2 ->]
                 & q & x9 & c9 & -> & M9 & a2 & x10 & c10 & -> & [A2 ->]
                 & gt & x11 & c11 & -> & M11 & inner & close & c12 & -> & M12
                 & M13).
  apply Matches_lit in M1 as [F1 ->].
  apply Matches_lit in M3 as [F3 ->].
  apply Matches_lit in M6 as [F6 ->].
  apply Matches_lit in M9 as [F9 ->].
  apply (Card.folds_plain dq) in F9; [subst q|reflexivity].
  apply Matches_lit in M11 as [F11 ->].
  apply (Card.folds_plain ">") in F11; [subst gt|reflexivity].
  destruct M12 as (c' & [_ ->] & ->).
  apply Matches_lit in M13 as [F13 ->].
  exists (tag ++ a1 ++ kw ++ v1 ++ tok ++ v2 ++ dq ++ a2 ++ ">"), inner, close.
  split; [|split; [|assumption]].
  - cbn [repeat set_cap append]. now rewrite !str_app_assoc.
  - exists tag, a1, kw, v1, tok, v2, a2. repeat split; auto.
Qed.

Lemma min_len_reUnwrap (token : string) : 0 < min_len (reUnwrap token).
Proof.
  unfold reUnwrap. cbn [seq min_len].
  assert (min_len (lit "<span") = 5) by reflexivity. lia.
Qed.

(** One pass of the loop of step 3.5, for the word dc-down or dc-gap,
    replaces every match of its pattern by the content of the span (group
    1), and nothing else: of a match, which is the opening tag of a span
    whose class holds the word, a content and a closing span tag, the two
    tags are dropped and the content stays. *)
Theorem unwrap_pass_spec (token h : string) :
  ReplaceAllString (reUnwrap token) h [TGroup 1]
  = render (group 1) (scan (reUnwrap token) h)
  /\ h = render whole (scan (reUnwrap token) h)
  /\ Forall
       (fun m =>
          exists open close,
            whole m = open ++ group 1 m ++ close
            /\ span_open_with token open /\ folds "</span>" close)
       (hits (scan (reUnwrap token) h))
  /\ unwrap_round h
     = ReplaceAllString (reUnwrap "dc-gap")
         (ReplaceAllString (reUnwrap "dc-down") h [TGroup 1]) [TGroup 1].
Proof.
  split; [|split; [|split; [|reflexivity]]].
  - unfold ReplaceAllString. apply Image.render_ext.
    apply Forall_forall. intros m _. cbn [expand]. apply str_app_nil_r.
  - symmetry. apply render_whole_scan. apply min_len_reUnwrap.
  - eapply Forall_impl; [|apply (scan_hits (reUnwrap token) h)].
    intros m H. destruct (unwrap_hit token m H) as (o & i & c & -> & F).
    exists o, c. split; [reflexivity|exact F].
Qed.

End Deletions.

(** * The driver: names of files *)

(** ** Packages path and path/filepath (with the slash as separator) *)

Module Filepath.

Import Strings Main.

(** strings.LastIndexByte(s, c) *)
Fixpoint LastIndexByte (s : string) (c : ascii) : option nat :=
  match s with
  | EmptyString => None
  | String b s' =>
      match LastIndexByte s' c with
      | Some i => Some (S i)
      | None => if Ascii.eqb b c then Some 0 else None
      end
  end.

(** path.Base(path), which is filepath.Base(path) where the separator is the
    slash: the trailing slashes are cut, then what stands before the last
    slash; the empty path gives a dot and a path of slashes gives a slash. *)
Definition Base (path : string) : string :=
  if is_empty path then "."
  else
    let path := TrimRight path "/" in
    let path :=
      match LastIndexByte path "/" with
      | Some i => drop (i + 1) path
      | None => path
      end in
    if is_empty path then "/" else path.

(** The loop of filepath.Ext, which goes from the last byte down to the
    first: [Some e] when it has returned [e] on the bytes of [s], [None]
    when it has met neither a dot nor a slash on them. *)
Fixpoint ext_scan (s : string) : option string :=
  match s with
  | EmptyString => None
  | String b s' =>
      match ext_scan s' with
      | Some e => Some e
      | None =>
          if Ascii.eqb b "/"%char then Some EmptyString
          else if Ascii.eqb b "."%char then Some s
          else None
      end
  end.

(** filepath.Ext(path) *)
Definition Ext (path : string) : string :=
  match ext_scan path with
  | Some e => e
  | None => EmptyString
  end.

(** strings.TrimSuffix(s, suffix) *)
Definition TrimSuffix (s suffix : string) : string :=
  if HasSuffix s suffix
  then take (String.length s - String.length suffix) s
  else s.

End Filepath.

Module Driver.

Import Strings Main Filepath.

(** baseNameNoExt(p) *)
Definition baseNameNoExt (p : string) : string :=
  let base := Base p in
  TrimSuffix base (Ext base).

End Driver.

Module FilepathFacts.

Import Strings StringsFacts RegexpFacts Main Filepath Driver.

Lemma LastIndexByte_None (s : string) (c : ascii) :
  LastIndexByte s c = None -> mem c s = false.
Proof.
  induction s as [|b s IH]; [reflexivity|]. cbn [LastIndexByte mem].
  destruct (LastIndexByte s c) eqn:E; [discriminate|].
  rewrite (Ascii.eqb_sym c b). destruct (Ascii.eqb b c); [discriminate|].
  intros _. now apply IH.
Qed.

(** What stands after the last [c] has no [c]. *)
Lemma LastIndexByte_Some (s : string) (c : ascii) (i : nat) :
  LastIndexByte s c = Some i -> mem c (drop (i + 1) s) = false.
Proof.
  revert i. induction s as [|b s IH]; intros i; [discriminate|].
  cbn [LastIndexByte].
  destruct (LastIndexByte s c) as [j|] eqn:E.
  - intros [= <-]. cbn [Nat.add drop]. now apply IH.
  - destruct (Ascii.eqb b c); [|discriminate]. intros [= <-].
    cbn [Nat.add drop]. rewrite ?drop_0. now apply LastIndexByte_None.
Qed.

Lemma LastIndexByte_app (a f : string) (c : ascii) :
  mem c f = false -> LastIndexByte (a ++ String c f) c = Some (String.length a).
Proof.
  intros M. induction a as [|b a IH].
  - cbn [append LastIndexByte String.length].
    assert (N : LastIndexByte f c = None).
    { clear -M. induction f as [|x f IH]; [reflexivity|].
      cbn [mem] in M. apply orb_false_iff in M as [M1 M2].
      cbn [LastIndexByte]. rewrite (IH M2), Ascii.eqb_sym, M1. reflexivity. }
    now rewrite N, Ascii.eqb_refl.
  - cbn [append LastIndexByte String.length]. now rewrite IH.
Qed.

Lemma TrimRight_keep (f cutset : string) :
  (forall c, last_or None f = Some c -> mem c cutset = false) ->
  TrimRight f cutset = f.
Proof.
  induction f as [|b f IH]; intros L; [reflexivity|].
  cbn [TrimRight]. destruct f as [|b' f].
  - cbn [TrimRight is_empty andb]. rewrite (L b eq_refl). reflexivity.
  - rewrite IH by (intros c Hc; apply L; exact Hc). reflexivity.
Qed.

Lemma mem_drop (c : ascii) (n : nat) (s : string) :
  mem c s = false -> mem c (drop n s) = false.
Proof.
  revert s. induction n as [|n IH]; intros s M; [now rewrite drop_0|].
  destruct s as [|b s]; [reflexivity|].
  cbn [mem] in M. apply orb_false_iff in M as [_ M]. cbn [drop]. now apply IH.
Qed.

(** The base of a path has no slash, unless it is the slash. *)
Lemma Base_no_slash (p : string) :
  Base p <> EmptyString
  /\ (Base p = "/" \/ mem "/"%char (Base p) = false).
Proof.
  unfold Base. destruct (is_empty p); [split; [discriminate|now right]|].
  destruct (LastIndexByte (TrimRight p "/") "/") as [i|] eqn:E.
  - destruct (is_empty (drop (i + 1) (TrimRight p "/"))) eqn:Z.
    + split; [discriminate|now left].
    + split; [now apply is_empty_false|right].
      now apply LastIndexByte_Some.
  - destruct (is_empty (TrimRight p "/")) eqn:Z.
    + split; [discriminate|now left].
    + split; [now apply is_empty_false|right].
      now apply LastIndexByte_None.
Qed.

Lemma ext_scan_None (s : string) :
  ext_scan s = None -> mem "."%char s = false /\ mem "/"%char s = false.
Proof.
  induction s as [|b s IH]; [auto|]. cbn [ext_scan mem].
  destruct (ext_scan s); [discriminate|].
  rewrite (Ascii.eqb_sym "." b), (Ascii.eqb_sym "/" b).
  destruct (Ascii.eqb b "/"); [discriminate|].
  destruct (Ascii.eqb b "."); [discriminate|].
  intros _. destruct (IH eq_refl) as [-> ->]. auto.
Qed.

(** What filepath.Ext returns: nothing, or the end of the path from its last
    dot, which no slash follows. *)
Lemma ext_scan_Some (s e : string) :
  ext_scan s = Some e ->
  exists x,
    s = x ++ e
    /\ (e = EmptyString
        \/ exists e', e = String "."%char e' /\ mem "."%char e' = false
                      /\ mem "/"%char e' = false).
Proof.
  revert e. induction s as [|b s IH]; intros e; [discriminate|].
  cbn [ext_scan]. destruct (ext_scan s) as [e0|] eqn:E.
  - intros [= <-]. destruct (IH _ eq_refl) as (x & -> & H).
    exists (String b x). auto.
  - destruct (Ascii.eqb b "/") eqn:B1.
    + intros [= <-]. exists (String b s). rewrite str_app_nil_r. auto.
    + destruct (Ascii.eqb b ".") eqn:B2; [|discriminate].
      intros [= <-]. exists EmptyString. split; [reflexivity|right].
      apply Ascii.eqb_eq in B2. subst b. exists s.
      destruct (ext_scan_None _ E). auto.
Qed.

Lemma ext_scan_app (a e : string) :
  mem "."%char e = false -> mem "/"%char e = false ->
  ext_scan (a ++ String "."%char e) = Some (String "."%char e).
Proof.
  intros D S.
  assert (N : ext_scan e = None).
  { clear a. induction e as [|x e IH]; [reflexivity|].
    cbn [mem] in D, S. apply orb_false_iff in D as [D1 D2].
    apply orb_false_iff in S as [S1 S2].
    cbn [ext_scan]. rewrite (IH D2 S2).
    rewrite (Ascii.eqb_sym x "/"), S1, (Ascii.eqb_sym x "."), D1. reflexivity. }
  induction a as [|b a IH].
  - cbn [append ext_scan]. now rewrite N.
  - cbn [append ext_scan]. now rewrite IH.
Qed.

Lemma HasSuffix_app (x e : string) : HasSuffix (x ++ e) e = true.
Proof.
  unfold HasSuffix. rewrite str_length_app.
  replace (String.length x + String.length e - String.length e)
    with (String.length x) by lia.
  rewrite drop_app, String.eqb_refl, andb_true_r. apply Nat.leb_le. lia.
Qed.

Lemma TrimSuffix_app (x e : string) : TrimSuffix (x ++ e) e = x.
Proof.
  unfold TrimSuffix. rewrite HasSuffix_app, str_length_app.
  replace (String.length x + String.length e - String.length e)
    with (String.length x) by lia.
  apply take_app.
Qed.

Lemma mem_app_l (c : ascii) (x e : string) :
  mem c (x ++ e) = false -> mem c x = false.
Proof.
  rewrite BlankFacts.mem_app. intros H. now apply orb_false_iff in H as [H _].
Qed.

(** baseNameNoExt cuts the extension off the base of the path and nothing
    else: the name it returns, followed by the extension, is the base.  The
    extension is empty or runs from the last dot of the base.  The name has
    no slash, except for a path made of slashes, whose name is the slash. *)
Theorem baseNameNoExt_spec (p : string) :
  baseNameNoExt p ++ Ext (Base p) = Base p
  /\ (Ext (Base p) = EmptyString
      \/ exists e, Ext (Base p) = String "."%char e
                   /\ mem "."%char e = false /\ mem "/"%char e = false)
  /\ (baseNameNoExt p = "/" \/ mem "/"%char (baseNameNoExt p) = false).
Proof.
  unfold baseNameNoExt, Ext.
  destruct (Base_no_slash p) as [_ S].
  destruct (ext_scan (Base p)) as [e|] eqn:E.
  - destruct (ext_scan_Some _ _ E) as (x & Ex & H).
    rewrite Ex in *. rewrite TrimSuffix_app.
    split; [reflexivity|]. split; [exact H|].
    destruct S as [S|S].
    + destruct H as [->|(e' & -> & _)].
      * rewrite str_app_nil_r in S. now left.
      * right. destruct x as [|b x]; [reflexivity|].
        destruct x; [|destruct x; discriminate]. discriminate.
    + right. now apply (mem_app_l _ _ e).
  - assert (T : TrimSuffix (Base p) EmptyString = Base p).
    { rewrite <- (str_app_nil_r (Base p)) at 1. apply TrimSuffix_app. }
    rewrite T, str_app_nil_r. split; [reflexivity|]. split; [now left|exact S].
Qed.

(** For a file [name.ext] in a directory, baseNameNoExt gives [name]: the
    directory and the last extension are cut.  The name may have dots, and
    may be empty: a file whose name starts with its only dot has the empty
    string for name. *)
Theorem baseNameNoExt_file (dir name ext : string) :
  mem "/"%char name = false ->
  mem "/"%char ext = false ->
  mem "."%char ext = false ->
  baseNameNoExt (dir ++ "/" ++ name ++ "." ++ ext) = name
  /\ baseNameNoExt (name ++ "." ++ ext) = name.
Proof.
  intros Sn Se De.
  assert (Sf : mem "/"%char (name ++ "." ++ ext) = false).
  { rewrite BlankFacts.mem_app, Sn. cbn [append mem orb]. rewrite Se.
    reflexivity. }
  assert (Lf : forall a c, last_or None (a ++ name ++ "." ++ ext) = Some c ->
                           mem c "/" = false).
  { intros a c. rewrite <- str_app_assoc, last_or_app.
    cbn [append last_or]. intros L.
    assert (I : mem "/"%char (String "." ext) = false)
      by (cbn [mem orb]; exact Se).
    clear -L I. revert L I. generalize "."%char as d.
    induction ext as [|x e IH]; intros d L I.
    - cbn [last_or] in L. injection L as <-.
      cbn [mem] in I |- *. apply orb_false_iff in I as [I _].
      now rewrite Ascii.eqb_sym, I.
    - cbn [last_or] in L. apply (IH x L).
      cbn [mem] in I. apply orb_false_iff in I as [_ I]. exact I. }
  assert (B : forall f, f = name ++ "." ++ ext ->
                        TrimSuffix f (Ext f) = name).
  { intros f ->. unfold Ext.
    change (name ++ "." ++ ext) with (name ++ String "." ext).
    rewrite (ext_scan_app _ _ De Se). apply TrimSuffix_app. }
  split.
  - unfold baseNameNoExt.
    assert (Eb : Base (dir ++ "/" ++ name ++ "." ++ ext) = name ++ "." ++ ext).
    { unfold Base.
      assert (Ne : is_empty (dir ++ "/" ++ name ++ "." ++ ext) = false)
        by (destruct dir; reflexivity).
      rewrite Ne.
      rewrite <- str_app_assoc.
      rewrite (TrimRight_keep ((dir ++ "/") ++ name ++ "." ++ ext) "/")
        by apply Lf.
      rewrite str_app_assoc.
      change ("/" ++ name ++ "." ++ ext) with (String "/" (name ++ "." ++ ext)).
      rewrite (LastIndexByte_app _ _ _ Sf).
      replace (String.length dir + 1) with (String.length (dir ++ "/"))
        by (rewrite str_length_app; reflexivity).
      change (dir ++ String "/" (name ++ "." ++ ext))
        with (dir ++ "/" ++ (name ++ "." ++ ext)).
      rewrite <- str_app_assoc, drop_app.
      destruct name; reflexivity. }
    rewrite Eb. now apply B.
  - unfold baseNameNoExt.
    assert (Eb : Base (name ++ "." ++ ext) = name ++ "." ++ ext).
    { unfold Base.
      assert (Ne : is_empty (name ++ "." ++ ext) = false)
        by (destruct name; reflexivity).
      rewrite Ne.
      rewrite (TrimRight_keep (name ++ "." ++ ext) "/")
        by (apply (Lf EmptyString)).
      assert (X : LastIndexByte (name ++ "." ++ ext) "/" = None).
      { clear -Sf. induction (name ++ "." ++ ext) as [|x f IH];
          [reflexivity|].
        cbn [mem] in Sf. apply orb_false_iff in Sf as [S1 S2].
        cbn [LastIndexByte]. rewrite (IH S2), Ascii.eqb_sym, S1.
        reflexivity. }
      now rewrite X, Ne. }
    rewrite Eb. now apply B.
Qed.

Lemma baseNameNoExt_file_witness :
  baseNameNoExt "data/raw/lln_items.v2.zip" = "lln_items.v2"
  /\ baseNameNoExt ".zip" = EmptyString.
Proof.
  split.
  - exact (proj1 (baseNameNoExt_file "data/raw" "lln_items.v2" "zip"
                    eq_refl eq_refl eq_refl)).
  - exact (proj2 (baseNameNoExt_file EmptyString EmptyString "zip"
                    eq_refl eq_refl eq_refl)).
Defined.

End FilepathFacts.

(** * The driver: the files of a ZIP *)

Module Zip.

Import Strings Main Filepath.

Section Select.

(** strings.ToLower, with its tables of letters, is not reproduced: the
    choice below is made on the names it returns, whatever they are. *)
Variable ToLower : string -> string.

(** The loop of processZip over the names of the files, in their order: [i]
    is the index of the file at hand, [target] and [fallback] are the two
    variables of the loop. *)
Fixpoint select_go (i : nat) (files : list string)
  (target fallback : option nat) : option nat * option nat :=
  match files with
  | [] => (target, fallback)
  | name :: files' =>
      let base := ToLower (Base name) in
      if String.eqb base "item.csv" || String.eqb base "items.csv"
      then select_go (S i) files' (Some i) fallback
      else if HasSuffix base ".csv"
              && match fallback with None => true | Some _ => false end
           then select_go (S i) files' target (Some i)
           else select_go (S i) files' target fallback
  end.

(** The file processZip opens; [None] is its error "item.csv not found". *)
Definition select (files : list string) : option nat :=
  let (target, fallback) := select_go 0 files None None in
  match target with
  | None => fallback
  | Some _ => target
  end.

End Select.

(** The bytes strings.TrimLeft takes off the name of a file: the slash and
    the backslash. *)
Definition slashes : string :=
  String "/"%char (String "092"%char EmptyString).

(** strings.Split(s, sep) for a separator of one byte. *)
Fixpoint Split (s : string) (sep : ascii) : list string :=
  match s with
  | EmptyString => [EmptyString]
  | String b s' =>
      if Ascii.eqb b sep then EmptyString :: Split s' sep
      else match Split s' sep with
           | x :: l => String b x :: l
           | [] => [String b EmptyString]
           end
  end.

(** strings.EqualFold(s, w) for a word [w] of ASCII bytes: the runes that
    fold to a letter are its two cases and, for s and k, U+017F and
    U+212A. *)
Fixpoint EqualFold (s w : string) {struct w} : bool :=
  match w with
  | EmptyString => is_empty s
  | String ch w' =>
      existsb (fun alt =>
                 HasPrefix s alt && EqualFold (drop (String.length alt) s) w')
        (Regexp.fold_alts ch)
  end.

(** The first lines of the loop of copyZipMediaFiles, for the file of name
    [name]: [None] when the loop passes over the file, [Some rel] when it
    goes on with the path [rel], the name after its first segment.  The
    file is then selected; whether it is copied is decided further down, in
    [copy_go]. *)
Definition media_rel (name : string) (isDir : bool) : option string :=
  let name := TrimLeft name slashes in
  let parts := Split name "/" in
  if (List.length parts =? 0) || negb (EqualFold (hd EmptyString parts) "media")
  then None
  else
    let rel := Join (tl parts) "/" in
    if is_empty rel || isDir then None else Some rel.

(** What copying one file does to the disk: the file is written, or one of
    the calls returns an error, or os.MkdirAll fails and check panics. *)
Inductive written (Disk : Type) : Type :=
| Written (d : Disk)
| Failed (d : Disk)
| Panic.

Arguments Written {Disk} d.
Arguments Failed {Disk} d.
Arguments Panic {Disk}.

(** What copyZipMediaFiles returns: the two counters, whether err is not nil,
    and the disk it leaves; or it does not return. *)
Inductive copy_result (Disk : Type) : Type :=
| Return (copied skipped : nat) (err : bool) (d : Disk)
| Panicked.

Arguments Return {Disk} copied skipped err d.
Arguments Panicked {Disk}.

Section Copy.

(** The disk and the calls on it are not reproduced: [dstPath rel] is
    filepath.Join(dest, filepath.FromSlash(rel)), [fileExists] is os.Stat
    without error, and [write d i p] is what the loop does from os.MkdirAll
    to os.Rename with the file of index [i] and the path [p]. *)
Variable Disk : Type.
Variable dstPath : string -> string.
Variable fileExists : Disk -> string -> bool.
Variable write : Disk -> nat -> string -> written Disk.

(** The loop of copyZipMediaFiles over the files, each with its name and
    whether it is a directory; [i] is the index of the file at hand. *)
Fixpoint copy_go (i : nat) (files : list (string * bool)) (overwrite : bool)
  (d : Disk) (copied skipped : nat) : copy_result Disk :=
  match files with
  | [] => Return copied skipped false d
  | (name, isDir) :: files' =>
      match media_rel name isDir with
      | None => copy_go (S i) files' overwrite d copied skipped
      | Some rel =>
          if negb overwrite && fileExists d (dstPath rel)
          then copy_go (S i) files' overwrite d copied (S skipped)
          else match write d i (dstPath rel) with
               | Panic => Panicked
               | Failed d' => Return copied skipped true d'
               | Written d' =>
                   copy_go (S i) files' overwrite d' (S copied) skipped
               end
      end
  end.

Definition copyZipMediaFiles (files : list (string * bool))
  (overwrite : bool) (d : Disk) : copy_result Disk :=
  copy_go 0 files overwrite d 0 0.

End Copy.

End Zip.

Module ZipFacts.

Import Strings StringsFacts RegexpFacts PatternFacts Main Filepath Zip.

Section Select.

Variable ToLower : string -> string.

(** The name is item.csv or items.csv, in the eyes of processZip. *)
Definition is_item (name : string) : bool :=
  String.eqb (ToLower (Base name)) "item.csv"
  || String.eqb (ToLower (Base name)) "items.csv".

(** The name ends with .csv. *)
Definition is_csv (name : string) : bool :=
  HasSuffix (ToLower (Base name)) ".csv".

(** [target] is the last of the files seen that is an item file. *)
Definition last_item (seen : list string) (target : option nat) : Prop :=
  match target with
  | Some i =>
      exists l1 n l2,
        seen = (l1 ++ n :: l2)%list /\ List.length l1 = i
        /\ is_item n = true /\ Forall (fun x => is_item x = false) l2
  | None => Forall (fun x => is_item x = false) seen
  end.

(** [fallback] is the first of the files seen that is a CSV file and no item
    file. *)
Definition first_csv (seen : list string) (fallback : option nat) : Prop :=
  match fallback with
  | Some i =>
      exists l1 n l2,
        seen = (l1 ++ n :: l2)%list /\ List.length l1 = i
        /\ is_item n = false /\ is_csv n = true
        /\ Forall (fun x => is_item x = true \/ is_csv x = false) l1
  | None => Forall (fun x => is_item x = true \/ is_csv x = false) seen
  end.

Lemma last_item_snoc (seen : list string) (t : option nat) (n : string) :
  last_item seen t -> is_item n = false -> last_item (seen ++ [n]) t.
Proof.
  intros T N. destruct t as [i|]; cbn [last_item] in *.
  - destruct T as (l1 & x & l2 & -> & L & I & F).
    exists l1, x, (l2 ++ [n])%list. rewrite <- app_assoc. cbn [app].
    repeat split; auto. apply Forall_app. auto.
  - apply Forall_app. auto.
Qed.

Lemma first_csv_snoc (seen : list string) (f : option nat) (n : string) :
  first_csv seen f ->
  (f = None -> is_item n = true \/ is_csv n = false) ->
  first_csv (seen ++ [n]) f.
Proof.
  intros F N. destruct f as [i|]; cbn [first_csv] in *.
  - destruct F as (l1 & x & l2 & -> & L & I & C & A).
    exists l1, x, (l2 ++ [n])%list. rewrite <- app_assoc. cbn [app].
    repeat split; auto.
  - apply Forall_app. auto.
Qed.

Lemma select_go_inv (files : list string) :
  forall seen t f,
    last_item seen t -> first_csv seen f ->
    last_item (seen ++ files) (fst (select_go ToLower (List.length seen) files t f))
    /\ first_csv (seen ++ files)
         (snd (select_go ToLower (List.length seen) files t f)).
Proof.
  induction files as [|n files IH]; intros seen t f T F.
  - rewrite app_nil_r. auto.
  - cbn [select_go].
    assert (E : (seen ++ n :: files = (seen ++ [n]) ++ files)%list)
      by (rewrite <- app_assoc; reflexivity).
    assert (L : S (List.length seen) = List.length (seen ++ [n])%list)
      by (rewrite length_app; simpl; lia).
    rewrite E, L.
    fold (is_item n). fold (is_csv n).
    destruct (is_item n) eqn:I.
    + apply IH.
      * exists seen, n, []. repeat split; auto.
      * apply first_csv_snoc; auto.
    + destruct (is_csv n) eqn:C; cbn [andb].
      * destruct f as [j|].
        -- apply IH; [now apply last_item_snoc|].
           apply first_csv_snoc; [assumption|discriminate].
        -- apply IH; [now apply last_item_snoc|].
           exists seen, n, []. repeat split; auto.
      * apply IH; [now apply last_item_snoc|].
        apply first_csv_snoc; auto.
Qed.

(** The file processZip hands to processTSV is the last file named item.csv
    or items.csv, whatever its directory and the case of its letters; when
    there is none, it is the first file whose name ends with .csv; when
    there is none either, processZip returns its error. *)
Theorem select_spec (files : list string) :
  match select ToLower files with
  | Some i =>
      exists l1 name l2,
        files = (l1 ++ name :: l2)%list /\ List.length l1 = i
        /\ ((is_item name = true /\ Forall (fun x => is_item x = false) l2)
            \/ (Forall (fun x => is_item x = false) files
                /\ is_csv name = true
                /\ Forall (fun x => is_csv x = false) l1))
  | None => Forall (fun x => is_item x = false /\ is_csv x = false) files
  end.
Proof.
  unfold select.
  destruct (select_go_inv files [] None None) as [T F];
    [constructor|constructor|].
  cbn [app List.length] in T, F.
  destruct (select_go ToLower 0 files None None) as [t f]. cbn [fst snd] in *.
  destruct t as [i|].
  - destruct T as (l1 & n & l2 & E & L & I & A).
    exists l1, n, l2. auto.
  - cbn [last_item] in T. destruct f as [j|].
    + destruct F as (l1 & n & l2 & E & L & I & C & A).
      exists l1, n, l2. repeat split; auto. right. repeat split; auto.
      rewrite E in T. apply Forall_app in T as [T1 _].
      rewrite Forall_forall in *. intros x Hx.
      destruct (A x Hx) as [Ix|Cx]; [|exact Cx].
      rewrite (T1 x Hx) in Ix. discriminate.
    + cbn [first_csv] in F. rewrite Forall_forall in *. intros x Hx.
      split; [now apply T|].
      destruct (F x Hx) as [Ix|Cx]; [|exact Cx].
      rewrite (T x Hx) in Ix. discriminate.
Qed.

End Select.

(** *** The files of the folder media *)

Lemma Split_nonempty (s : string) (sep : ascii) : Split s sep <> [].
Proof.
  destruct s as [|b s]; cbn [Split]; [discriminate|].
  destruct (Ascii.eqb b sep); [discriminate|].
  destruct (Split s sep); discriminate.
Qed.

Lemma Join_cons (x : string) (l : list string) (sep : string) :
  l <> [] -> Join (x :: l) sep = x ++ sep ++ Join l sep.
Proof. destruct l; [congruence|reflexivity]. Qed.

(** Joining what was split gives the string back. *)
Lemma Join_Split (s : string) (sep : ascii) :
  Join (Split s sep) (String sep EmptyString) = s.
Proof.
  induction s as [|b s IH]; [reflexivity|]. cbn [Split].
  destruct (Ascii.eqb_spec b sep) as [->|N].
  - rewrite Join_cons by apply Split_nonempty. cbn [append]. now rewrite IH.
  - destruct (Split s sep) as [|x l] eqn:E; [now apply Split_nonempty in E|].
    destruct l as [|y l].
    + cbn [Join] in *. now rewrite IH.
    + rewrite Join_cons by discriminate. rewrite Join_cons in IH by discriminate.
      rewrite <- IH. reflexivity.
Qed.

Lemma Split_app (seg rest : string) (sep : ascii) :
  mem sep seg = false ->
  Split (seg ++ String sep rest) sep = seg :: Split rest sep.
Proof.
  induction seg as [|b seg IH]; intros M.
  - cbn [append Split]. now rewrite Ascii.eqb_refl.
  - cbn [mem] in M. apply orb_false_iff in M as [M1 M2].
    cbn [append Split]. rewrite (Ascii.eqb_sym b sep), M1, (IH M2). reflexivity.
Qed.

Lemma EqualFold_folds (w s : string) : EqualFold s w = true <-> folds w s.
Proof.
  revert s. induction w as [|ch w IH]; intros s; cbn [EqualFold folds].
  - apply is_empty_true.
  - rewrite existsb_exists. split.
    + intros (x & I & H). apply andb_true_iff in H as [P E].
      apply HasPrefix_iff in P as [t ->]. rewrite drop_app in E.
      exists x, t. repeat split; auto. now apply IH.
    + intros (x & t & I & -> & F). exists x. split; [exact I|].
      rewrite HasPrefix_app, drop_app. now apply IH.
Qed.

Lemma TrimLeft_lead (lead t cutset : string) :
  all_in (Sound.in_cutset cutset) lead = true ->
  TrimLeft (lead ++ t) cutset = TrimLeft t cutset.
Proof.
  induction lead as [|c lead IH]; intros A; [reflexivity|].
  cbn [all_in] in A. apply andb_true_iff in A as [A1 A2].
  cbn [append TrimLeft]. unfold Sound.in_cutset in A1. rewrite A1. auto.
Qed.

Lemma TrimLeft_head (t cutset : string) :
  (forall c, head t = Some c -> mem c cutset = false) ->
  TrimLeft t cutset = t.
Proof.
  destruct t as [|c t]; [reflexivity|]. intros H.
  cbn [TrimLeft]. now rewrite (H c eq_refl).
Qed.

(** A word that is media, up to the case of its letters, has no slash and
    starts with no slash or backslash. *)
Lemma folds_media (seg : string) :
  folds "media" seg ->
  mem "/"%char seg = false
  /\ forall t c, head (seg ++ t) = Some c -> mem c slashes = false.
Proof.
  cbn [folds].
  intros (x1 & a1 & I1 & -> & x2 & a2 & I2 & -> & x3 & a3 & I3 & ->
          & x4 & a4 & I4 & -> & x5 & a5 & I5 & -> & ->).
  vm_compute in I1, I2, I3, I4, I5.
  destruct I1 as [<-|[<-|[]]]; destruct I2 as [<-|[<-|[]]];
    destruct I3 as [<-|[<-|[]]]; destruct I4 as [<-|[<-|[]]];
    destruct I5 as [<-|[<-|[]]];
    (split; [reflexivity|intros t c [= <-]; reflexivity]).
Qed.

(** The loop of copyZipMediaFiles selects a file exactly when it is no
    directory and its name, after the slashes and backslashes it may start
    with, is the word media in either case, a slash, and a path that is not
    empty; that path is the one it goes on with. *)
Lemma media_rel_iff (name : string) (isDir : bool) (rel : string) :
  media_rel name isDir = Some rel
  <-> isDir = false /\ rel <> EmptyString
      /\ exists lead seg,
           name = lead ++ seg ++ "/" ++ rel
           /\ all_in (Sound.in_cutset slashes) lead = true
           /\ folds "media" seg.
Proof.
  unfold media_rel. split.
  - destruct (Sound.TrimLeft_spec name slashes) as (lead & E & A & _).
    remember (TrimLeft name slashes) as t eqn:Et. clear Et.
    pose proof (Join_Split t "/") as J.
    destruct (Split t "/") as [|seg ps] eqn:Es; [now apply Split_nonempty in Es|].
    cbn [List.length Nat.eqb orb hd tl].
    destruct (EqualFold seg "media") eqn:F; [|discriminate]. cbn [negb].
    destruct (is_empty (Join ps "/")) eqn:Z; [discriminate|].
    destruct isDir; [discriminate|]. cbn [orb]. intros [= <-].
    apply is_empty_false in Z.
    split; [reflexivity|]. split; [exact Z|].
    exists lead, seg. apply EqualFold_folds in F.
    repeat split; auto.
    rewrite E. f_equal. rewrite <- J.
    apply Join_cons. intros ->. now apply Z.
  - intros (-> & N & lead & seg & -> & A & F).
    destruct (folds_media _ F) as [M H].
    rewrite (TrimLeft_lead _ _ _ A).
    rewrite TrimLeft_head by apply H.
    change (seg ++ "/" ++ rel) with (seg ++ String "/" rel).
    rewrite (Split_app _ _ _ M). cbn [List.length Nat.eqb orb hd tl].
    apply EqualFold_folds in F. rewrite F. cbn [negb].
    rewrite Join_Split. apply is_empty_false in N. now rewrite N.
Qed.

(** The file is one the loop of copyZipMediaFiles selects. *)
Definition selects (f : string * bool) : bool :=
  match media_rel (fst f) (snd f) with
  | Some _ => true
  | None => false
  end.

Section Copy.

Variable Disk : Type.
Variable dstPath : string -> string.
Variable fileExists : Disk -> string -> bool.
Variable write : Disk -> nat -> string -> written Disk.

Lemma copy_go_counts (overwrite : bool) (files : list (string * bool)) :
  forall i d c s c' s' err d',
    copy_go Disk dstPath fileExists write i files overwrite d c s
    = Return c' s' err d' ->
    c' + s' <= c + s + List.length (filter selects files)
    /\ (err = false -> c' + s' = c + s + List.length (filter selects files))
    /\ (overwrite = true -> s' = s).
Proof.
  induction files as [|[name isDir] files IH]; intros i d c s c' s' err d'.
  - cbn [copy_go filter List.length]. intros [= <- <- <- <-].
    repeat split; lia.
  - assert (Hs : selects (name, isDir)
                 = match media_rel name isDir with
                   | Some _ => true
                   | None => false
                   end) by reflexivity.
    cbn [copy_go filter]. rewrite Hs.
    destruct (media_rel name isDir) as [rel|]; [|apply IH].
    cbn [List.length].
    destruct (negb overwrite && fileExists d (dstPath rel)) eqn:K.
    + intros R. apply IH in R as (A & B & C).
      split; [lia|]. split; [intros E; specialize (B E); lia|].
      intros ->. discriminate.
    + destruct (write d i (dstPath rel)) as [d1|d1|]; [| |discriminate].
      * intros R. apply IH in R as (A & B & C).
        split; [lia|]. split; [intros E; specialize (B E); lia|exact C].
      * intros [= <- <- <- <-]. split; [lia|]. split; [discriminate|reflexivity].
Qed.

(** The loop writes the first file it selects, unless overwrite is off and
    the path is there already: the files before it are passed over, the
    file is skipped or handed to the calls that write it, with the path
    filepath.Join makes of the destination and the rest of the name. *)
Lemma copy_go_first (overwrite : bool) (before : list (string * bool))
  (name : string) (isDir : bool) (rel : string)
  (after : list (string * bool)) :
  forallb (fun f => negb (selects f)) before = true ->
  media_rel name isDir = Some rel ->
  forall i d c s,
    copy_go Disk dstPath fileExists write i
      (before ++ (name, isDir) :: after) overwrite d c s
    = if negb overwrite && fileExists d (dstPath rel)
      then copy_go Disk dstPath fileExists write
             (S (i + List.length before)) after overwrite d c (S s)
      else match write d (i + List.length before) (dstPath rel) with
           | Panic => Panicked
           | Failed d' => Return c s true d'
           | Written d' =>
               copy_go Disk dstPath fileExists write
                 (S (i + List.length before)) after overwrite d' (S c) s
           end.
Proof.
  intros B M. induction before as [|[n b] before IH]; intros i d c s.
  - cbn [app copy_go List.length]. rewrite M, Nat.add_0_r. reflexivity.
  - cbn [forallb] in B. apply andb_true_iff in B as [B1 B2].
    unfold selects in B1. cbn [fst snd] in B1.
    cbn [app copy_go List.length].
    destruct (media_rel n b); [discriminate|].
    rewrite (IH B2). now rewrite <- !plus_n_Sm.
Qed.

End Copy.

(** copyZipMediaFiles goes through the files in their order.  It selects a
    file exactly when it is no directory and its name, after the slashes and
    backslashes it may start with, is the word media in either case, a
    slash, and a path that is not empty.  A selected file is skipped when
    overwrite is off and its destination is there already, and written
    otherwise; the first error ends the loop.  So the two counters add up
    to no more than the number of selected files, and to that number when
    no error is returned; nothing is skipped when overwrite is on.  The
    destination is made of the path as it stands in the name: for
    media/../up.png it is ../up.png, joined to the folder of Anki. *)
Theorem copyZipMediaFiles_spec (Disk : Type) (dstPath : string -> string)
  (fileExists : Disk -> string -> bool)
  (write : Disk -> nat -> string -> written Disk)
  (overwrite : bool) (d : Disk) :
  (forall name isDir rel,
      media_rel name isDir = Some rel
      <-> isDir = false /\ rel <> EmptyString
          /\ exists lead seg,
               name = lead ++ seg ++ "/" ++ rel
               /\ all_in (Sound.in_cutset slashes) lead = true
               /\ folds "media" seg)
  /\ (forall files copied skipped err d',
         copyZipMediaFiles Disk dstPath fileExists write files overwrite d
         = Return copied skipped err d' ->
         copied + skipped <= List.length (filter selects files)
         /\ (err = false ->
             copied + skipped = List.length (filter selects files))
         /\ (overwrite = true -> skipped = 0))
  /\ (forall before name isDir rel after,
         forallb (fun f => negb (selects f)) before = true ->
         media_rel name isDir = Some rel ->
         copyZipMediaFiles Disk dstPath fileExists write
           (before ++ (name, isDir) :: after) overwrite d
         = if negb overwrite && fileExists d (dstPath rel)
           then copy_go Disk dstPath fileExists write
                  (S (List.length before)) after overwrite d 0 1
           else match write d (List.length before) (dstPath rel) with
                | Panic => Panicked
                | Failed d' => Return 0 0 true d'
                | Written d' =>
                    copy_go Disk dstPath fileExists write
                      (S (List.length before)) after overwrite d' 1 0
                end)
  /\ media_rel "media/../up.png" false = Some "../up.png".
Proof.
  split; [intros name isDir rel; apply media_rel_iff|].
  split; [|split; [|reflexivity]].
  - intros files copied skipped err d' R.
    apply copy_go_counts in R. exact R.
  - intros before name isDir rel after B M. unfold copyZipMediaFiles.
    now rewrite (copy_go_first _ _ _ _ _ before name isDir rel after B M).
Qed.

(** A disk as the list of its paths; a file is written by adding its
    path. *)
Definition on_disk (d : list string) (p : string) : bool :=
  existsb (String.eqb p) d.

Definition add_path (d : list string) (i : nat) (p : string)
  : written (list string) :=
  Written (p :: d).

Definition archive : list (string * bool) :=
  [("item.csv", false); ("media/", true); ("media/a.mp3", false);
   ("/Media/img/b.png", false); ("notes/c.png", false)].

Lemma copyZipMediaFiles_witness :
  copyZipMediaFiles (list string) (append "anki/") on_disk add_path
    archive false ["anki/a.mp3"]
  = Return 1 1 false ["anki/img/b.png"; "anki/a.mp3"]
  /\ 1 + 1 = List.length (filter selects archive).
Proof.
  split; [reflexivity|].
  destruct (copyZipMediaFiles_spec (list string) (append "anki/") on_disk
              add_path false ["anki/a.mp3"]) as (_ & C & _).
  destruct (C archive 1 1 false ["anki/img/b.png"; "anki/a.mp3"] eq_refl)
    as (_ & E & _).
  exact (E eq_refl).
Defined.

End ZipFacts.

(** * The driver: the rows *)

Module Tsv.

Import Strings Main.

Section WithDecoder.

Variable UnescapeString : string -> string.

(** The body of the loop of processTSV for one record read: [Some None] when
    it goes on to the next record without writing, [Some (Some row)] when it
    writes [row]; [None] only if the loop of [transform] were not to end. *)
Definition process_record (color : string) (rec : list string)
  : option (option (list string)) :=
  match rec with
  | [] => Some None
  | htmlIn :: rest =>
      let sound :=
        match rest with
        | s :: _ => TrimSpace s
        | [] => EmptyString
        end in
      match transform UnescapeString htmlIn sound color with
      | Some (htmlOut, ja) => Some (Some [htmlOut; ja])
      | None => None
      end
  end.

End WithDecoder.

End Tsv.

Module TsvFacts.

Import Strings StringsFacts RegexpFacts PatternFacts Main Blank Tsv
  TransformMore.

Lemma all_in_TrimSpace (p : ascii -> bool) (s : string) :
  all_in p s = true -> all_in p (TrimSpace s) = true.
Proof.
  unfold TrimSpace. intros A.
  destruct (TrimLeftSpace_split s) as (l & E & _).
  destruct (TrimRightSpace_split (TrimLeftSpace s)) as (r & E' & _).
  rewrite E, all_in_app in A. apply andb_true_iff in A as [_ A].
  rewrite E', all_in_app in A. now apply andb_true_iff in A as [A _].
Qed.

Lemma TrimLeft_all (t cutset : string) :
  all_in (Sound.in_cutset cutset) t = true -> TrimLeft t cutset = EmptyString.
Proof.
  induction t as [|c t IH]; intros A; [reflexivity|].
  cbn [all_in] in A. apply andb_true_iff in A as [A1 A2].
  cbn [TrimLeft]. unfold Sound.in_cutset in A1. rewrite A1. auto.
Qed.

Section WithDecoder.

Variable UnescapeString : string -> string.

(** Every record that has a field gives one row of two fields, and a record
    without field gives none; the fields after the second take no part in
    the row; and a second field made of double quotes and spaces only gives
    the row of a record that has no second field: nothing is inserted for
    it. *)
Theorem process_record_spec (color htmlIn : string) :
  (forall rest,
      exists out ja,
        process_record UnescapeString color (htmlIn :: rest)
        = Some (Some [out; ja]))
  /\ process_record UnescapeString color [] = Some None
  /\ (forall s more,
         process_record UnescapeString color (htmlIn :: s :: more)
         = process_record UnescapeString color [htmlIn; s])
  /\ (forall s more,
         all_in (Sound.in_cutset (dq ++ " ")) s = true ->
         process_record UnescapeString color (htmlIn :: s :: more)
         = process_record UnescapeString color [htmlIn]).
Proof.
  split; [|split; [reflexivity|split]].
  - intros rest. unfold process_record.
    destruct rest as [|s more]; rewrite transform_eq; eexists; eexists;
      reflexivity.
  - reflexivity.
  - intros s more A. unfold process_record. rewrite !transform_eq.
    apply all_in_TrimSpace in A.
    assert (E : insert_sound (body_of UnescapeString color htmlIn) (TrimSpace s)
                = insert_sound (body_of UnescapeString color htmlIn)
                    EmptyString).
    { unfold insert_sound, Trim. rewrite (TrimLeft_all _ _ A). reflexivity. }
    now rewrite E.
Qed.

End WithDecoder.

End TsvFacts.

(** ** The last step, again *)

Module CollapseMore.

Import Strings StringsFacts Main ReplaceFacts.

Lemma length_replace_go (old new : string) (s : string) :
  String.length new <= String.length old ->
  forall k,
    String.length (replace_go old new k s) <= String.length s - k.
Proof.
  intros L. induction s as [|c s IH]; intros k; [simpl; lia|].
  cbn [replace_go]. destruct k as [|k].
  - destruct (HasPrefix (String c s) old) eqn:P.
    + apply Locality.HasPrefix_length in P.
      rewrite str_length_app. specialize (IH (String.length old - 1)).
      cbn [String.length] in *. lia.
    + specialize (IH 0). cbn [String.length]. lia.
  - specialize (IH k). cbn [String.length]. lia.
Qed.

Lemma replace_go_shorter (old new : string) (s : string) (i : nat) :
  String.length new < String.length old ->
  Index s old = Some i ->
  String.length (replace_go old new 0 s) < String.length s.
Proof.
  intros L. revert i. induction s as [|c s IH]; intros i I.
  - destruct old; [simpl in L; lia|discriminate].
  - rewrite Index_unfold in I. cbn [replace_go].
    destruct (HasPrefix (String c s) old) eqn:P.
    + apply Locality.HasPrefix_length in P.
      rewrite str_length_app.
      pose proof (length_replace_go old new s ltac:(lia)
                    (String.length old - 1)).
      cbn [String.length] in *. lia.
    + destruct (Index s old) as [j|] eqn:J; [|discriminate].
      specialize (IH j eq_refl). cbn [String.length]. lia.
Qed.

(** The last step never makes the markup longer, and leaves it as it is
    exactly when it has no two spaces in a row; when it has, the markup gets
    shorter. *)
Theorem collapse_spaces_changes (h : string) :
  String.length (collapse_spaces h) <= String.length h
  /\ (collapse_spaces h = h <-> Index h "  " = None)
  /\ (Index h "  " <> None ->
      String.length (collapse_spaces h) < String.length h).
Proof.
  assert (Sh : Index h "  " <> None ->
              String.length (collapse_spaces h) < String.length h).
  { destruct (Index h "  ") as [i|] eqn:I; [|congruence]. intros _.
    apply (replace_go_shorter "  " " " h i); [simpl; lia|exact I]. }
  split; [|split; [split|exact Sh]].
  - pose proof (length_replace_go "  " " " h ltac:(simpl; lia) 0) as L.
    unfold collapse_spaces, ReplaceAll. lia.
  - intros E. destruct (Index h "  ") as [i|] eqn:I; [|reflexivity].
    assert (N : Some i <> None) by discriminate.
    specialize (Sh N). rewrite E in Sh. lia.
  - apply ReplaceAll_absent.
Qed.

End CollapseMore.

(** ** Step 2, the element of class dc-translation *)

Module AnyTranslation.

Import Strings StringsFacts Regexp RegexpFacts ScanFacts PatternFacts Main
  Translation.

(** An opening tag, of whatever name, in which the attribute class has a
    value that holds the word dc-translation. *)
Definition any_open (o : string) : Prop :=
  exists a1 kw c1 tok c2 a2,
    o = "<" ++ a1 ++ kw ++ c1 ++ tok ++ c2 ++ dq ++ a2 ++ ">"
    /\ all_in not_gt a1 = true /\ a1 <> EmptyString
    /\ folds ("class=" ++ dq) kw
    /\ all_in not_dq c1 = true
    /\ folds "dc-translation" tok
    /\ all_in not_dq c2 = true
    /\ all_in not_gt a2 = true.

(** A closing tag, of whatever name. *)
Definition any_close (c : string) : Prop :=
  exists name,
    c = "</" ++ name ++ ">" /\ all_in not_gt name = true
    /\ name <> EmptyString.

Lemma any_hit (m : list string) :
  hit_of reAnyTranslation m ->
  exists open inner close,
    m = [open ++ inner ++ close; inner] /\ any_open open /\ any_close close.
Proof.
  intros (prev & a & rest & c & _ & -> & M).
  assert (N : ngroups reAnyTranslation = 1) by reflexivity.
  rewrite N in M. clear N. unfold reAnyTranslation, star, lazy in M.
  cbn [seq] in M. cbn [Matches] in M.
  destruct M as (lt & x1 & c1 & -> & M1 & a1 & x2 & c2 & -> & M2
                 & kw & x3 & c3 & -> & M3 & v1 & x4 & c4 & -> & [V1 ->]
                 & b1 & x5 & c5 & -> & (-> & -> & _)
                 & tok & x6 & c6 & -> & M6
                 & b2 & x7 & c7 & -> & (-> & -> & _)
                 & v2 & x8 & c8 & -> & [V2 ->]
                 & q & x9 & c9 & -> & M9 & a2 & x10 & c10 & -> & [A2 ->]
                 & gt & x11 & c11 & -> & M11 & inner & x12 & c12 & -> & M12
                 & lts & x13 & c13 & -> & M13 & name & gt2 & c14 & -> & M14
                 & M15).
  apply Matches_lit in M1 as [F1 ->].
  apply (Card.folds_plain "<") in F1; [subst lt|reflexivity].
  apply Matches_plus in M2 as (A1 & N1 & ->).
  apply Matches_lit in M3 as [F3 ->].
  apply Matches_lit in M6 as [F6 ->].
  apply Matches_lit in M9 as [F9 ->].
  apply (Card.folds_plain dq) in F9; [subst q|reflexivity].
  apply Matches_lit in M11 as [F11 ->].
  apply (Card.folds_plain ">") in F11; [subst gt|reflexivity].
  destruct M12 as (c' & [_ ->] & ->).
  apply Matches_lit in M13 as [F13 ->].
  apply (Card.folds_plain "</") in F13; [subst lts|reflexivity].
  apply Matches_plus in M14 as (An & Nn & ->).
  apply Matches_lit in M15 as [F15 ->].
  apply (Card.folds_plain ">") in F15; [subst gt2|reflexivity].
  exists ("<" ++ a1 ++ kw ++ v1 ++ tok ++ v2 ++ dq ++ a2 ++ ">"), inner,
    ("</" ++ name ++ ">").
  split; [|split].
  - cbn [repeat set_cap append]. now rewrite !str_app_assoc.
  - exists a1, kw, v1, tok, v2, a2. repeat split; auto.
  - exists name. auto.
Qed.

Section WithDecoder.

Variable UnescapeString : string -> string.

(** The second candidate of the translation: none when reAnyTranslation does
    not match; otherwise the content, without its tags, decoded and trimmed,
    of the first match.  The match is an opening tag of any name whose class
    holds the word dc-translation, the content, and a closing tag of any
    name, which need not be the name of the opening tag. *)
Theorem any_candidate_spec (h : string) :
  (FindStringSubmatch reAnyTranslation h = []
   /\ any_candidate UnescapeString h = EmptyString)
  \/ exists pre open inner close post,
       h = pre ++ (open ++ inner ++ close) ++ post
       /\ FindStringSubmatch reAnyTranslation h
          = [open ++ inner ++ close; inner]
       /\ any_open open /\ any_close close
       /\ any_candidate UnescapeString h
          = TrimSpace (stripTags UnescapeString inner).
Proof.
  unfold any_candidate, candidate.
  destruct (FindStringSubmatch reAnyTranslation h) as [|a c] eqn:F;
    [now left|].
  right.
  assert (L : 0 < min_len reAnyTranslation) by (vm_compute; lia).
  destruct (find_from_first reAnyTranslation h L None (a :: c) F)
    as (pre & post & E & H & _); [discriminate|].
  destruct (any_hit _ H) as (open & inner & close & Em & O & C).
  rewrite Em in *. exists pre, open, inner, close, post.
  repeat split; auto.
Qed.

End WithDecoder.

End AnyTranslation.

(** ** The second match in the two closures *)

Module Closures.

Import Strings StringsFacts Regexp RegexpFacts ScanFacts Main Locality
  Boundary Cloze Image.

(** The functions given to ReplaceAllStringFunc in steps 3 and 5 match the
    pattern again on the text they receive.  On every text they receive from
    the scan, this second match is the match of the scan, with its two
    groups: the slice has three elements, so that the tests on its length
    always go the same way. *)
Theorem closures_rematch (h : string) :
  Forall
    (fun m =>
       FindStringSubmatch reCloze (whole m) = m /\ List.length m = 3)
    (hits (scan reCloze h))
  /\ Forall
       (fun m =>
          FindStringSubmatch reImage (whole m) = m /\ List.length m = 3)
       (hits (scan reImage h)).
Proof.
  split.
  - eapply Forall_impl; [|apply (scan_hits reCloze h)].
    intros m H. split; [now apply rematch|].
    destruct (cloze_hit m H) as (o & d & f & b & s & -> & _). reflexivity.
  - eapply Forall_impl; [|apply (scan_hits reImage h)].
    intros m H. split.
    + apply rematch_guarded; [reflexivity|reflexivity|exact H].
    + destruct (image_hit m H)
        as (t & w1 & k1 & c & w2 & k2 & s & w3 & cl & -> & _). reflexivity.
Qed.

End Closures.
